(** * vidfilter_scripter: the parameter scaler and the filter command

    A shallow embedding of [vidfilter_scripter/__init__.py]: the [Range]
    table, the [Parameter] class (slider position <-> bounded value, label
    formatting) and the two [MainWindow] slots that drive it.

    Python numbers are modelled as Python has them.  The [RANGES] table holds
    [float]s, i.e. IEEE 754 binary64 values: they are Rocq's primitive floats,
    whose operations are the same hardware operations.  The [Parameter] class
    itself is duck-typed, and runs unchanged over [fractions.Fraction]; that
    second number system (exact rationals) is the one in which the affine map
    is a bijection, so the class is written once over an interface
    ([Number]) with one instance per number system. *)

From Stdlib Require Import ZArith QArith Qabs Lqa Floats String Ascii List Lia Bool.
From Stdlib Require Import DecimalString.
Import ListNotations.

Set Warnings "-inexact-float".
Local Open Scope Z_scope.

(** ** Exceptions and fallible computations *)

Inductive exn : Type :=
| ZeroDivisionError   (* division by a zero divisor *)
| OverflowError       (* int too large for a float; round() of an infinity *)
| ValueError          (* round() of a NaN *)
| KeyError            (* missing dictionary key *)
| UnsupportedFormat.  (* a format string outside the modelled fragment *)

Inductive result (A : Type) : Type :=
| Ok (a : A)
| Raise (e : exn).
Arguments Ok {A} a.
Arguments Raise {A} e.

Definition bind {A B : Type} (c : result A) (k : A -> result B) : result B :=
  match c with
  | Ok a => k a
  | Raise e => Raise e
  end.

Notation "x <- c ;; k" := (bind c (fun x => k))
  (at level 61, c at next level, right associativity).

Fixpoint mapM {A B : Type} (f : A -> result B) (l : list A) : result (list B) :=
  match l with
  | [] => Ok []
  | a :: l' => b <- f a ;; bs <- mapM f l' ;; Ok (b :: bs)
  end.

(** ** Integer rounding and fixed-point printing

    [round_half_even n d] is the integer nearest to [n / d] ([0 < d]), ties
    going to the even neighbour: what Python's [round()] returns for a float
    and for a [Fraction] (whose [__round__] is this very divmod). *)

Definition round_half_even (n d : Z) : Z :=
  let floor := n / d in
  let remainder := n mod d in
  match (2 * remainder ?= d) with
  | Lt => floor
  | Gt => floor + 1
  | Eq => if Z.even floor then floor else floor + 1
  end.

Definition str_of_nat (n : N) : string := NilZero.string_of_uint (N.to_uint n).

Fixpoint zfill (width : nat) (s : string) : string :=
  match (width - String.length s)%nat with
  | O => s
  | S _ => match width with
           | O => s
           | S w => String "0" (zfill w s)
           end
  end.

(** [format_fixed neg num den ndigits]: the magnitude [num / den] printed in
    fixed-point notation with [ndigits] decimals, correctly rounded (ties to
    even), with a minus sign when [neg]: Python's presentation type [f]. *)
Definition format_fixed (neg : bool) (num den : Z) (ndigits : nat) : string :=
  let p := 10 ^ Z.of_nat ndigits in
  let q := round_half_even (num * p) den in
  let int_part := str_of_nat (Z.to_N (q / p)) in
  let frac_part :=
    match ndigits with
    | O => EmptyString
    | _ => String "." (zfill ndigits (str_of_nat (Z.to_N (q mod p))))
    end in
  ((if neg then "-" else "") ++ int_part ++ frac_part)%string.

(** ** The numbers a [Parameter] computes with *)

Class Number (F : Type) : Type := {
  (** the implicit conversion of an [int] operand in mixed arithmetic *)
  of_int : Z -> result F;
  add : F -> F -> F;
  sub : F -> F -> F;
  mul : F -> F -> F;
  (** [/]: raises [ZeroDivisionError] on a zero divisor *)
  truediv : F -> F -> result F;
  (** the builtin [round(x)] with one argument *)
  round : F -> result Z;
  eqb : F -> F -> bool;
  ltb : F -> F -> bool;
  leb : F -> F -> bool;
  (** [format(x, '.<n>f')] *)
  format_f : nat -> F -> string
}.

(** *** binary64 floats *)

Module PyFloat.

(** The exact value of a finite float is [float_num x / float_den x]. *)
Definition float_num (s : bool) (m : positive) (e : Z) : Z :=
  cond_Zopp s (Z.pos m * 2 ^ Z.max e 0).
Definition float_den (e : Z) : Z := 2 ^ Z.max (- e) 0.

(** [int -> float]: correctly rounded, [OverflowError] when the integer
    rounds beyond the largest finite float ([2^1024 - 2^970] is that largest
    float plus half a unit in the last place). *)
Definition of_int (n : Z) : result float :=
  if Z.abs n <? 2 ^ 1024 - 2 ^ 970
  then Ok (SF2Prim (binary_normalize prec emax n 0 false))
  else Raise OverflowError.

Definition truediv (x y : float) : result float :=
  if PrimFloat.eqb y 0%float then Raise ZeroDivisionError
  else Ok (PrimFloat.div x y).

Definition round (x : float) : result Z :=
  match Prim2SF x with
  | S754_nan => Raise ValueError
  | S754_infinity _ => Raise OverflowError
  | S754_zero _ => Ok 0
  | S754_finite s m e => Ok (round_half_even (float_num s m e) (float_den e))
  end.

Definition format_f (ndigits : nat) (x : float) : string :=
  match Prim2SF x with
  | S754_nan => "nan"
  | S754_infinity s => if s then "-inf" else "inf"
  | S754_zero s => format_fixed s 0 1 ndigits
  | S754_finite s m e => format_fixed s (float_num false m e) (float_den e) ndigits
  end.

(** The exact rational value of a float, when it has one. *)
Definition to_Q (x : float) : option Q :=
  match Prim2SF x with
  | S754_zero _ => Some 0%Q
  | S754_finite s m e =>
      Some (Qmake (float_num s m e) (Z.to_pos (float_den e)))
  | _ => None
  end.

End PyFloat.

#[export] Instance float_Number : Number float := {|
  of_int := PyFloat.of_int;
  add := PrimFloat.add;
  sub := PrimFloat.sub;
  mul := PrimFloat.mul;
  truediv := PyFloat.truediv;
  round := PyFloat.round;
  eqb := PrimFloat.eqb;
  ltb := PrimFloat.ltb;
  leb := PrimFloat.leb;
  format_f := PyFloat.format_f
|}.

(** *** exact rationals ([fractions.Fraction]) *)

Module Fraction.

Definition truediv (x y : Q) : result Q :=
  if Qeq_bool y 0 then Raise ZeroDivisionError else Ok (x / y)%Q.

Definition round (x : Q) : result Z :=
  Ok (round_half_even (Qnum x) (Z.pos (Qden x))).

Definition ltb (x y : Q) : bool := negb (Qle_bool y x).

Definition format_f (ndigits : nat) (x : Q) : string :=
  format_fixed (Qnum x <? 0) (Z.abs (Qnum x)) (Z.pos (Qden x)) ndigits.

End Fraction.

#[export] Instance Fraction_Number : Number Q := {|
  of_int := fun n => Ok (inject_Z n);
  add := Qplus;
  sub := Qminus;
  mul := Qmult;
  truediv := Fraction.truediv;
  round := Fraction.round;
  eqb := Qeq_bool;
  ltb := Fraction.ltb;
  leb := Qle_bool;
  format_f := Fraction.format_f
|}.

(** ** [Range], [RANGES], [SLIDER_MAX] *)

Module Range.
Record t (F : Type) : Type := mk {
  min : F;
  max : F;
  default : F;
  format : string
}.
Arguments mk {F} _ _ _ _.
Arguments min {F} _.
Arguments max {F} _.
Arguments default {F} _.
Arguments format {F} _.
End Range.

(** A dict is an association list in insertion order. *)
Definition dict (V : Type) : Type := list (string * V).

Definition RANGES : dict (Range.t float) := [
  ("contrast",   Range.mk 0.0%float    2.0%float 1.0%float "{0:.2f}");
  ("brightness", Range.mk (-0.5)%float 0.5%float 0.0%float "{0:.2f}");
  ("saturation", Range.mk 0.0%float    3.0%float 1.0%float "{0:.2f}");
  ("gamma",      Range.mk 0.1%float    5.0%float 1.0%float "{0:.2f}")
]%string.

Definition SLIDER_MAX : Z := 200.

(** ** [str.format] on the fragment the program uses

    A format string of the shape [{0:.<d>f}] with one decimal digit [<d>]. *)
Definition digit_of_ascii (c : ascii) : option nat :=
  let n := nat_of_ascii c in
  if ((48 <=? n) && (n <=? 57))%nat then Some (n - 48)%nat else None.

Definition parse_format (fmt : string) : option nat :=
  match fmt with
  | String "{" (String "0" (String ":" (String "."
      (String d (String "f" (String "}" EmptyString)))))) => digit_of_ascii d
  | _ => None
  end.

Definition str_format {F : Type} `{Number F} (fmt : string) (x : F) : result string :=
  match parse_format fmt with
  | Some ndigits => Ok (format_f ndigits x)
  | None => Raise UnsupportedFormat
  end.

(** ** class Parameter ([Parameter] is a reserved word: the module is [Param]) *)

Module Param.
Section WithNumber.
Context {F : Type} `{Number F}.

Record t : Type := mk {
  var : string;
  value : F;
  range : F;
  scale : F;
  offset : F;
  format : string
}.

Definition set_value (self : t) (v : F) : t :=
  mk (var self) v (range self) (scale self) (offset self) (format self).

Definition __init__ (var : string) (rng : Range.t F) : result t :=
  let value := Range.default rng in
  let range := sub (Range.max rng) (Range.min rng) in
  slider_max <- of_int SLIDER_MAX ;;
  scale <- truediv slider_max range ;;
  let offset := mul (Range.min rng) scale in
  Ok (mk var value range scale offset (Range.format rng)).

Definition slider_value (self : t) : result Z :=
  round (sub (mul (value self) (scale self)) (offset self)).

Definition set_from_slider_value (self : t) (value : Z) : result t :=
  position <- of_int value ;;
  v <- truediv (add position (offset self)) (scale self) ;;
  Ok (set_value self v).

Definition label (self : t) : result string :=
  str_format (format self) (value self).

End WithNumber.
Arguments t F : clear implicits.
End Param.

(** ** Dictionaries (insertion-ordered, as Python's [dict]) *)

Fixpoint dict_get {V : Type} (k : string) (d : dict V) : result V :=
  match d with
  | [] => Raise KeyError
  | (k', v) :: d' => if String.eqb k k' then Ok v else dict_get k d'
  end.

(** [d[k] = v]: an existing key keeps its place, a new key goes last. *)
Fixpoint dict_set {V : Type} (k : string) (v : V) (d : dict V) : dict V :=
  match d with
  | [] => [(k, v)]
  | (k', v') :: d' =>
      if String.eqb k k' then (k', v) :: d' else (k', v') :: dict_set k v d'
  end.

Definition keys {V : Type} (d : dict V) : list string := map fst d.
Definition values {V : Type} (d : dict V) : list V := map snd d.

(** [sep.join(l)] *)
Fixpoint join (sep : string) (l : list string) : string :=
  match l with
  | [] => EmptyString
  | [s] => s
  | s :: l' => (s ++ sep ++ join sep l')%string
  end.

(** ** class MainWindow: the parameters and what the slots do to them

    The widgets and the player are collaborators: a slider is the position
    last handed to [setValue], a label the text last handed to [setText], and
    the player the list of commands it was sent, oldest first. *)

Module MainWindow.

Record t : Type := mk {
  parameters : dict (Param.t float);
  sliders : dict Z;
  labels : dict string;
  mpv_commands : list (list string)
}.

(** The body of the [for var, rng in RANGES.items()] loop of [__init__]. *)
Definition init_widgets (w : t) (var : string) : result t :=
  p <- dict_get var (parameters w) ;;
  position <- Param.slider_value p ;;
  text <- Param.label p ;;
  Ok (mk (parameters w) (dict_set var position (sliders w))
         (dict_set var text (labels w)) (mpv_commands w)).

Fixpoint for_each (body : t -> string -> result t) (w : t) (vars : list string)
  : result t :=
  match vars with
  | [] => Ok w
  | var :: vars' => w' <- body w var ;; for_each body w' vars'
  end.

(** [__init__] to the end of its loop over [RANGES] (lines 69 to 98 of the
    source).  Each [setValue] comes before the [valueChanged] of that slider
    is connected, so no slot runs here.  The last statement, on
    [options.Filename], is in [init_with_options] below. *)
Definition __init__ : result t :=
  parameters <- mapM (fun '(var, rng) =>
                        p <- Param.__init__ var rng ;; Ok (var, p)) RANGES ;;
  for_each init_widgets (mk parameters [] [] []) (keys RANGES).

Definition slot_slider_value_changed (self : t) (var : string) (value : Z)
  : result t :=
  p <- dict_get var (parameters self) ;;
  p' <- Param.set_from_slider_value p value ;;
  let parameters' := dict_set var p' (parameters self) in
  text <- Param.label p' ;;
  let labels' := dict_set var text (labels self) in
  items <- mapM (fun p => l <- Param.label p ;;
                          Ok (Param.var p ++ "=" ++ l)%string)
                (values parameters') ;;
  let args := ["vf"; "set"; "eq=" ++ join ":" items]%string in
  Ok (mk parameters' (sliders self) labels' (mpv_commands self ++ [args])).

(** The body of [slot_reset_var].  When its [setValue] changes what the
    slider holds, Qt runs [slot_slider_value_changed] before it returns: a
    click on the button, with that, is [reset_clicked] below.  The states of
    [window_reachable] take the body and the slot as steps of their own. *)
Definition slot_reset_var (self : t) (var : string) : result t :=
  p <- dict_get var (parameters self) ;;
  rng <- dict_get var RANGES ;;
  let p' := Param.set_value p (Range.default rng) in
  let parameters' := dict_set var p' (parameters self) in
  position <- Param.slider_value p' ;;
  Ok (mk parameters' (dict_set var position (sliders self)) (labels self)
         (mpv_commands self)).

End MainWindow.

(** * What the properties are stated with *)

Section Scaler.
Context {F : Type} `{Number F}.

(** [rng.min <= v <= rng.max], with Python's comparisons. *)
Definition within (rng : Range.t F) (v : F) : bool :=
  leb (Range.min rng) v && leb v (Range.max rng).

(** [Parameter(var, rng)] followed by [set_from_slider_value(position)]: the
    [value] it leaves. *)
Definition value_at (var : string) (rng : Range.t F) (position : Z) : result F :=
  p <- Param.__init__ var rng ;;
  p' <- Param.set_from_slider_value p position ;;
  Ok (Param.value p').

(** ... and the slider position read back from it. *)
Definition round_trip (var : string) (rng : Range.t F) (position : Z) : result Z :=
  p <- Param.__init__ var rng ;;
  p' <- Param.set_from_slider_value p position ;;
  Param.slider_value p'.

(** [Parameter(var, rng)] with [value] overwritten by [v]: its slider position. *)
Definition position_of (var : string) (rng : Range.t F) (v : F) : result Z :=
  p <- Param.__init__ var rng ;;
  Param.slider_value (Param.set_value p v).

(** [set_from_slider_value(slider_value())] on a fresh [Parameter], whose
    [value] is the default. *)
Definition default_round_trip (var : string) (rng : Range.t F) : result F :=
  p <- Param.__init__ var rng ;;
  position <- Param.slider_value p ;;
  p' <- Param.set_from_slider_value p position ;;
  Ok (Param.value p').

(** The states of a [Parameter] of range [rng]: built by [__init__], moved by
    [set_from_slider_value] with a position the slider widget can hold, or
    reset to the default (the assignment of [slot_reset_var]). *)
Inductive reachable (rng : Range.t F) : Param.t F -> Prop :=
| reach_init var p :
    Param.__init__ var rng = Ok p -> reachable rng p
| reach_set p position p' :
    reachable rng p ->
    0 <= position <= SLIDER_MAX ->
    Param.set_from_slider_value p position = Ok p' ->
    reachable rng p'
| reach_reset p :
    reachable rng p -> reachable rng (Param.set_value p (Range.default rng)).

End Scaler.

(** The [Parameter] that [__init__] builds over exact rationals, in closed
    form. *)
Definition exact_parameter (var : string) (rng : Range.t Q) : Param.t Q :=
  let width := (Range.max rng - Range.min rng)%Q in
  Param.mk var (Range.default rng) width (inject_Z SLIDER_MAX / width)%Q
           (Range.min rng * (inject_Z SLIDER_MAX / width))%Q (Range.format rng).

(** The four configured ranges. *)
Definition contrast_range : Range.t float :=
  Range.mk 0.0%float 2.0%float 1.0%float "{0:.2f}".
Definition brightness_range : Range.t float :=
  Range.mk (-0.5)%float 0.5%float 0.0%float "{0:.2f}".
Definition saturation_range : Range.t float :=
  Range.mk 0.0%float 3.0%float 1.0%float "{0:.2f}".
Definition gamma_range : Range.t float :=
  Range.mk 0.1%float 5.0%float 1.0%float "{0:.2f}".

(** What [set_from_slider_value(position)] leaves in [value], and the label
    printed for it, on a fresh [Parameter] of the range. *)
Definition value_and_label {F : Type} `{Number F}
    (rng : Range.t F) (position : Z) : result (F * string) :=
  p <- Param.__init__ "var" rng ;;
  p' <- Param.set_from_slider_value p position ;;
  text <- Param.label p' ;;
  Ok (Param.value p', text).

(** The positions a slider with [setMaximum(SLIDER_MAX)] can hold. *)
Definition positions : list Z := map Z.of_nat (seq 0 (S (Z.to_nat SLIDER_MAX))).

Definition result_eqb {A : Type} (eq : A -> A -> bool) (r : result A) (a : A) : bool :=
  match r with
  | Ok a' => eq a' a
  | Raise _ => false
  end.

Definition result_holds {A : Type} (r : result A) (f : A -> bool) : bool :=
  match r with
  | Ok a => f a
  | Raise _ => false
  end.

(** Float ranges outside the configured table, each with [min < max] and the
    default inside. *)
Definition uneven_range : Range.t float :=
  Range.mk 0.4%float 1.5%float 1.0%float "{0:.2f}".
Definition far_range : Range.t float :=
  Range.mk 1e15%float 1000000000000001%float 1e15%float "{0:.2f}".
Definition farther_range : Range.t float :=
  Range.mk 1e17%float 100000000000000016%float 1e17%float "{0:.2f}".
Definition overflowing_range : Range.t float :=
  Range.mk (-1e308)%float 1e308%float 0.0%float "{0:.2f}".

(** The [Parameter] that [__init__] builds for gamma. *)
Definition gamma_parameter : Param.t float :=
  Param.mk "gamma" 1.0%float (5.0 - 0.1)%float (200 / (5.0 - 0.1))%float
           (0.1 * (200 / (5.0 - 0.1)))%float "{0:.2f}".

(** A range over exact rationals, [Range(Fraction(1, 10), Fraction(5), Fraction(1), ...)]. *)
Definition exact_gamma_range : Range.t Q :=
  Range.mk (1 # 10)%Q 5%Q 1%Q "{0:.2f}".

(** [|v - default| <= (max - min) / (2 * SLIDER_MAX)], half a slider step,
    on the exact values of the floats. *)
Definition within_half_step (rng : Range.t float) (v : float) : bool :=
  match PyFloat.to_Q v, PyFloat.to_Q (Range.default rng),
        PyFloat.to_Q (Range.min rng), PyFloat.to_Q (Range.max rng) with
  | Some qv, Some qd, Some lo, Some hi =>
      Qle_bool (Qabs (qv - qd)) ((hi - lo) / inject_Z (2 * SLIDER_MAX))
  | _, _, _, _ => false
  end.

(** The value is strictly off the range, on the side of the position. *)
Definition strictly_outside {F : Type} `{Number F}
    (rng : Range.t F) (position : Z) (v : F) : bool :=
  if position <? 0 then ltb v (Range.min rng) else ltb (Range.max rng) v.

(** The integers that convert to a float. *)
Definition float_max_int : Z := 2 ^ 1024 - 2 ^ 970.

(** The [Parameter] that [__init__] builds over floats, in closed form. *)
Definition float_parameter (var : string) (rng : Range.t float) : Param.t float :=
  let width := (Range.max rng - Range.min rng)%float in
  Param.mk var (Range.default rng) width (200 / width)%float
           (Range.min rng * (200 / width))%float (Range.format rng).

(** The states of the window: built by [__init__], then moved by the two
    slots, with whatever arguments they are called with. *)
Inductive window_reachable : MainWindow.t -> Prop :=
| window_init w :
    MainWindow.__init__ = Ok w -> window_reachable w
| window_slider w var value w' :
    window_reachable w ->
    MainWindow.slot_slider_value_changed w var value = Ok w' ->
    window_reachable w'
| window_reset w var w' :
    window_reachable w ->
    MainWindow.slot_reset_var w var = Ok w' ->
    window_reachable w'.

(** The label of the parameter stored under [var]. *)
Definition label_of (w : MainWindow.t) (var : string) : result string :=
  p <- dict_get var (MainWindow.parameters w) ;; Param.label p.

(** The command as the specification writes it:
    [eq=contrast=<v>:brightness=<v>:saturation=<v>:gamma=<v>], each [<v>] the
    label of that parameter. *)
Definition eq_command_of_spec (w : MainWindow.t) : result (list string) :=
  c <- label_of w "contrast" ;;
  b <- label_of w "brightness" ;;
  s <- label_of w "saturation" ;;
  g <- label_of w "gamma" ;;
  Ok ["vf"; "set";
      "eq=contrast=" ++ c ++ ":brightness=" ++ b
        ++ ":saturation=" ++ s ++ ":gamma=" ++ g]%string.

(** What every reachable window looks like: the four parameters of [RANGES],
    in order, each with some value. *)
Definition wired (w : MainWindow.t) : Prop :=
  exists vc vb vs vg : float,
    MainWindow.parameters w =
    [("contrast", Param.set_value (float_parameter "contrast" contrast_range) vc);
     ("brightness", Param.set_value (float_parameter "brightness" brightness_range) vb);
     ("saturation", Param.set_value (float_parameter "saturation" saturation_range) vs);
     ("gamma", Param.set_value (float_parameter "gamma" gamma_range) vg)]%string.

(** A float that is neither a zero nor a NaN. *)
Definition nonzero (x : spec_float) : Prop :=
  match x with
  | S754_finite _ _ _ | S754_infinity _ => True
  | _ => False
  end.

(** [x] and [y] are the same infinity. *)
Definition same_infinity (x y : float) : bool :=
  PrimFloat.is_infinity x && PrimFloat.eqb x y.

(** A degenerate float range whose bounds are both [float('inf')]. *)
Definition infinite_range : Range.t float :=
  Range.mk infinity infinity 0.0%float "{0:.2f}".

(** ** Binary64 floats as integers

    What the arithmetic of floats is reasoned with: a float counted in units
    of the smallest positive float, and the float nearest to a rational. *)

(** The exponent of the unit in the last place of a float of integer part
    [q], counted from the smallest exponent. *)
Definition ulp_exponent (q : Z) : Z := Z.max (Zdigits2 q - 53) 0.

(** The float nearest to [N / D] (ties to even), both counted in units of the
    smallest positive float. *)
Definition nearest (N D : Z) : Z :=
  let F := ulp_exponent (N / D) in
  round_half_even N (D * 2 ^ F) * 2 ^ F.

(** Where [n / d] stands between the integers around it. *)
Definition loc (n d : Z) : location :=
  if n mod d =? 0 then loc_Exact else loc_Inexact (2 * (n mod d) ?= d).

(** The shift register holding the integer part of [n / d] and the position
    of its fractional part. *)
Definition register (n d : Z) : shr_record := shr_record_of_loc (n / d) (loc n d).

(** The mantissa that [binary_round_aux] rounds to, and its exponent. *)
Definition rounded_exponent (n d e : Z) : Z := fexp prec emax (Zdigits2 (n / d) + e).

Definition rounded_mantissa (n d e : Z) : Z :=
  round_half_even n (d * 2 ^ (rounded_exponent n d e - e)).

(** A float as an integer number of units of the smallest positive float,
    [2^-1074]; the infinities sit just beyond the largest finite float. *)
Definition top : Z := 2 ^ 2098.

(** The ordinal of a float: its value in those units, the infinities at
    [top] and [- top]; a NaN is given 0 and kept apart by [is_number]. *)
Definition ord (x : spec_float) : Z :=
  match x with
  | S754_zero _ | S754_nan => 0
  | S754_infinity s => cond_Zopp s top
  | S754_finite s m e => cond_Zopp s (Z.pos m * 2 ^ (e + 1074))
  end.

(** A magnitude that reaches [top] overflows to the infinity. *)
Definition clamp (v : Z) : Z := Z.min v top.

(** [binary_round_aux] rounds to the nearest float: the integer it is given,
    [n / d] with the location of the remainder, stands for the rational
    [n / d * 2 ^ e]. *)
Definition scaled_num (n e : Z) : Z := n * 2 ^ Z.max (e + 1074) 0.

(** ... as the quotient [scaled_num n e / scaled_den d e] of units. *)
Definition scaled_den (d e : Z) : Z := d * 2 ^ Z.max (- (e + 1074)) 0.

(** A zero or a finite float: neither an infinity nor a NaN. *)
Definition is_finite (x : spec_float) : bool :=
  match x with
  | S754_zero _ | S754_finite _ _ _ => true
  | _ => false
  end.

(** Not a NaN. *)
Definition is_number (x : spec_float) : bool :=
  match x with
  | S754_nan => false
  | _ => true
  end.

(** [nearest], extended to the negative rationals by symmetry and to the
    infinities by [clamp]. *)
Definition to_nearest (N D : Z) : Z :=
  if N <? 0 then - clamp (nearest (- N) D) else clamp (nearest N D).

(** The same for the primitive floats, read through [Prim2SF]. *)
Definition ordinal (x : float) : Z := ord (Prim2SF x).

(** [math.isfinite(x)] *)
Definition finite (x : float) : bool := is_finite (Prim2SF x).

(** What [position_between] asks of a range, as a test: the scaler is built,
    with finite numbers and a scale that is not negative, and the ends of
    the range have the ends of the slider as positions. *)
Definition regular (rng : Range.t float) : bool :=
  let p := float_parameter "" rng in
  let lo := Range.min rng in
  let hi := Range.max rng in
  let s := Param.scale p in
  let o := Param.offset p in
  negb (PrimFloat.eqb (hi - lo) 0)
  && finite lo && finite hi && finite s && (0 <=? ordinal s) && finite o
  && finite (lo * s) && finite (hi * s)
  && finite (lo * s - o) && finite (hi * s - o)
  && result_eqb Z.eqb (PyFloat.round (lo * s - o)) 0
  && result_eqb Z.eqb (PyFloat.round (hi * s - o)) SLIDER_MAX.

(** The numbers of [set_from_slider_value] at a position are finite. *)
Definition finite_at (scale offset : float) (position : Z) : bool :=
  result_holds (PyFloat.of_int position)
    (fun x => finite x && finite (x + offset) && finite ((x + offset) / scale)).

(** What [value_between] asks of a range, as a test: the scaler is built
    with a finite positive scale, the numbers stay finite down to the least
    and up to the greatest integer that converts to a float, and one step
    off either end of the slider the value is off the range. *)
Definition off_range (rng : Range.t float) : bool :=
  let p := float_parameter "" rng in
  let s := Param.scale p in
  let o := Param.offset p in
  negb (PrimFloat.eqb (Range.max rng - Range.min rng) 0)
  && negb (PrimFloat.eqb s 0)
  && finite s && (0 <? ordinal s) && finite o
  && finite (Range.min rng) && finite (Range.max rng)
  && finite_at s o (1 - float_max_int) && finite_at s o (- 1)
  && finite_at s o (SLIDER_MAX + 1) && finite_at s o (float_max_int - 1)
  && result_holds (value_at "" rng (- 1)) (strictly_outside rng (- 1))
  && result_holds (value_at "" rng (SLIDER_MAX + 1))
       (strictly_outside rng (SLIDER_MAX + 1)).

(** ** The rest of the window *)

(** [int(x)] of a float: the integer part, toward zero; [ValueError] for a
    NaN and [OverflowError] for an infinity. *)
Definition int_of_float (x : float) : result Z :=
  match Prim2SF x with
  | S754_nan => Raise ValueError
  | S754_infinity _ => Raise OverflowError
  | S754_zero _ => Ok 0
  | S754_finite s m e => Ok (PyFloat.float_num s m e ÷ PyFloat.float_den e)
  end.

(** [MainWindow.pos_change(_, percent)], the observer of the player's
    [percent-pos]: [percent] is a float, or [None] when the player has no
    position.  [if percent:] skips [None] and a zero; otherwise the position
    slider is handed [int(percent * 10)], with its signals blocked.  The
    result is the position handed to [sld_position.setValue], if any. *)
Definition pos_change (percent : option float) : result (option Z) :=
  match percent with
  | None => Ok None
  | Some x =>
      if PrimFloat.eqb x 0 then Ok None
      else
        ten <- PyFloat.of_int 10 ;;
        position <- int_of_float (x * ten) ;;
        Ok (Some position)
  end.

(** A click on the reset button of [var], as the program runs it:
    [slot_reset_var(var)], whose [setValue] makes Qt emit [valueChanged] when
    it changes what the slider holds; [__init__] has connected that signal to
    [slot_slider_value_changed], and the reset does not block it, so the slot
    runs with the new position before [setValue] returns.  When the slider
    held that position already, nothing more happens.  [current] is what the
    slider of [var] holds at the click; Qt keeps what a slider holds between
    its minimum, 0, and its maximum, [SLIDER_MAX]. *)
Definition reset_clicked (self : MainWindow.t) (var : string) (current : Z)
  : result MainWindow.t :=
  w <- MainWindow.slot_reset_var self var ;;
  handed <- dict_get var (MainWindow.sliders w) ;;
  let position := Z.max 0 (Z.min SLIDER_MAX handed) in
  if position =? current then Ok w
  else MainWindow.slot_slider_value_changed w var position.

(** [MainWindow.__init__(options)] to its end: after the widgets are set up
    ([MainWindow.__init__], lines 69 to 98 of the source),
    [if options.Filename: self.mpv.play(options.Filename)].  [Filename] is
    the optional argument of the command line, a string, or [None] when it is
    left out; an empty string is falsy as [None] is.  The result is the
    window and the file handed to [mpv.play], if any. *)
Definition init_with_options (Filename : option string)
  : result (MainWindow.t * option string) :=
  w <- MainWindow.__init__ ;;
  match Filename with
  | Some f => if String.eqb f "" then Ok (w, None) else Ok (w, Some f)
  | None => Ok (w, None)
  end.

(** The states of the window when the sliders deliver positions they can
    hold: built by [__init__], then moved by [slot_slider_value_changed] with
    a position in [0, SLIDER_MAX] and by [slot_reset_var]. *)
Inductive slider_reachable : MainWindow.t -> Prop :=
| slider_init w :
    MainWindow.__init__ = Ok w -> slider_reachable w
| slider_moved w var value w' :
    slider_reachable w ->
    0 <= value <= SLIDER_MAX ->
    MainWindow.slot_slider_value_changed w var value = Ok w' ->
    slider_reachable w'
| slider_reset w var w' :
    slider_reachable w ->
    MainWindow.slot_reset_var w var = Ok w' ->
    slider_reachable w'.

(** Every parameter of the window has its value in its range. *)
Definition values_in_range (w : MainWindow.t) : Prop :=
  forall var rng p,
    In (var, rng) RANGES ->
    dict_get var (MainWindow.parameters w) = Ok p ->
    within rng (Param.value p) = true.

(** * Properties *)

(** ** Rounding to the nearest integer *)

Lemma round_half_even_exact (p d : Z) :
  0 < d -> round_half_even (p * d) d = p.
Proof.
  intros Hd. unfold round_half_even.
  rewrite Z.div_mul, Z.mod_mul by lia.
  replace (2 * 0) with 0 by lia.
  destruct (Z.compare_spec 0 d); lia.
Qed.

Lemma round_half_even_bounds (n d lo hi : Z) :
  0 < d -> lo * d <= n <= hi * d -> lo <= round_half_even n d <= hi.
Proof.
  intros Hd [Hlo Hhi]. unfold round_half_even.
  pose proof (Z.div_mod n d ltac:(lia)) as Hdm.
  pose proof (Z.mod_pos_bound n d Hd) as Hm.
  assert (Hq : lo <= n / d) by (apply Z.div_le_lower_bound; lia).
  assert (Hq' : n / d <= hi) by (apply Z.div_le_upper_bound; lia).
  assert (Hlt : 0 < n mod d -> n / d < hi) by nia.
  destruct (Z.compare_spec (2 * (n mod d)) d); [destruct (Z.even (n / d)) | |]; lia.
Qed.

Lemma round_half_even_error (n d : Z) :
  0 < d -> 2 * Z.abs (round_half_even n d * d - n) <= d.
Proof.
  intros Hd. unfold round_half_even.
  pose proof (Z.div_mod n d ltac:(lia)) as Hdm.
  pose proof (Z.mod_pos_bound n d Hd) as Hm.
  destruct (Z.compare_spec (2 * (n mod d)) d); [destruct (Z.even (n / d)) | |]; nia.
Qed.

Lemma positions_spec (p : Z) : 0 <= p <= SLIDER_MAX -> In p positions.
Proof.
  intros Hp. unfold positions.
  rewrite <- (Z2Nat.id p) by lia.
  apply in_map, in_seq. unfold SLIDER_MAX in *. lia.
Qed.

Lemma forall_positions (f : Z -> bool) :
  forallb f positions = true ->
  forall p, 0 <= p <= SLIDER_MAX -> f p = true.
Proof.
  intros Hall p Hp. rewrite forallb_forall in Hall.
  apply Hall, positions_spec, Hp.
Qed.

(** ** The worked examples *)

(** C9: on the range (0.0, 2.0, 1.0) with SLIDER_MAX = 200, position 100 gives
    value 1.0 and label "1.00", position 0 gives 0.0 and "0.00", position 200
    gives 2.0 and "2.00"; on the range (-0.5, 0.5, 0.0) the slider position of
    the value 0.0 is 100. *)
Theorem examples_of_the_spec :
  SLIDER_MAX = 200 /\
  value_and_label contrast_range 100 = Ok (1.0%float, "1.00"%string) /\
  value_and_label contrast_range 0 = Ok (0.0%float, "0.00"%string) /\
  value_and_label contrast_range 200 = Ok (2.0%float, "2.00"%string) /\
  position_of "var" brightness_range 0.0%float = Ok 100.
Proof. repeat split; vm_compute; reflexivity. Qed.

(** ** The scaler over exact rationals *)

Lemma Qpos_nonzero (x : Q) : (0 < x)%Q -> ~ (x == 0)%Q.
Proof. intros Hx E. rewrite E in Hx. exact (Qlt_irrefl 0 Hx). Qed.

Section ExactScaler.
Variable var : string.
Variable rng : Range.t Q.
Hypothesis min_lt_max : ltb (Range.min rng) (Range.max rng) = true.

Local Open Scope Q_scope.

Local Abbreviation width := (Range.max rng - Range.min rng) (only parsing).

Lemma exact_width_pos : 0 < width.
Proof.
  cbn in min_lt_max. unfold Fraction.ltb in min_lt_max.
  apply negb_true_iff in min_lt_max.
  destruct (Qlt_le_dec (Range.min rng) (Range.max rng)) as [Hlt | Hle].
  - lra.
  - apply Qle_bool_iff in Hle. congruence.
Qed.

Lemma exact_truediv (x y : Q) : ~ y == 0 -> truediv x y = Ok (x / y).
Proof.
  intros Hy. cbn. unfold Fraction.truediv.
  destruct (Qeq_bool y 0) eqn:E; [apply Qeq_bool_eq in E; contradiction | reflexivity].
Qed.

Lemma exact_init : Param.__init__ var rng = Ok (exact_parameter var rng).
Proof.
  pose proof exact_width_pos as Hw.
  unfold Param.__init__. cbn [of_int Fraction_Number bind sub mul].
  rewrite exact_truediv by (apply Qpos_nonzero, exact_width_pos).
  reflexivity.
Qed.

Lemma exact_scale_pos : 0 < inject_Z SLIDER_MAX / width.
Proof.
  pose proof exact_width_pos as Hw.
  apply Qlt_shift_div_l; [exact Hw | ]. unfold SLIDER_MAX. 
  change (inject_Z 200) with 200. lra.
Qed.

Lemma exact_set (p : Param.t Q) (position : Z) :
  Param.scale p = Param.scale (exact_parameter var rng) ->
  Param.set_from_slider_value p position =
  Ok (Param.set_value p ((inject_Z position + Param.offset p) / Param.scale p)).
Proof.
  intros Hs. pose proof exact_scale_pos as Hp.
  unfold Param.set_from_slider_value. cbn [of_int Fraction_Number bind add].
  rewrite exact_truediv; [reflexivity | ].
  rewrite Hs. cbn [Param.scale exact_parameter]. apply Qpos_nonzero, Hp.
Qed.

(** The affine map, in closed form. *)
Lemma exact_value_at (position : Z) :
  exists v, value_at var rng position = Ok v /\
            v == Range.min rng + inject_Z position * width / inject_Z SLIDER_MAX.
Proof.
  pose proof exact_width_pos as Hw.
  unfold value_at. rewrite exact_init. cbn [bind].
  rewrite exact_set by reflexivity. cbn [bind].
  eexists. split; [reflexivity | ].
  cbn [Param.value Param.set_value Param.offset Param.scale exact_parameter].
  unfold SLIDER_MAX. change (inject_Z 200) with 200. field.
  apply Qpos_nonzero, Hw.
Qed.

Lemma exact_round (x : Q) (n : Z) : x == inject_Z n -> round x = Ok n.
Proof.
  intros Hx. cbn. unfold Fraction.round. f_equal.
  unfold Qeq in Hx. cbn in Hx. rewrite Z.mul_1_r in Hx. rewrite Hx.
  apply round_half_even_exact. reflexivity.
Qed.

Lemma exact_round_bounds (x : Q) (lo hi : Z) :
  inject_Z lo <= x <= inject_Z hi ->
  exists n, round x = Ok n /\ (lo <= n <= hi)%Z.
Proof.
  intros [Hlo Hhi]. eexists. split; [reflexivity | ].
  apply round_half_even_bounds; [reflexivity | ].
  unfold Qle in Hlo, Hhi. cbn in Hlo, Hhi. lia.
Qed.

Lemma exact_round_error (x : Q) :
  exists n, round x = Ok n /\ Qabs (inject_Z n - x) <= 1 # 2.
Proof.
  eexists. split; [reflexivity | ].
  pose proof (round_half_even_error (Qnum x) (Z.pos (Qden x)) eq_refl) as He.
  set (n := round_half_even (Qnum x) (Z.pos (Qden x))) in *.
  destruct x as [a d]. cbn [Qnum Qden] in *.
  unfold Qle, Qabs, Qminus, Qplus, Qopp, inject_Z. cbn [Qnum Qden].
  rewrite Z.mul_1_l.
  replace (n * Z.pos d + - a * 1)%Z with (n * Z.pos d - a)%Z by lia.
  lia.
Qed.

Lemma exact_slider_value (p : Param.t Q) :
  Param.slider_value p =
  round (Param.value p * Param.scale p - Param.offset p).
Proof. reflexivity. Qed.

Lemma exact_round_trip (position : Z) :
  round_trip var rng position = Ok position.
Proof.
  pose proof exact_width_pos as Hw.
  unfold round_trip. rewrite exact_init. cbn [bind].
  rewrite exact_set by reflexivity. cbn [bind].
  rewrite exact_slider_value. apply exact_round.
  cbn [Param.value Param.set_value Param.offset Param.scale exact_parameter].
  unfold SLIDER_MAX. change (inject_Z 200) with 200. field.
  apply Qpos_nonzero, Hw.
Qed.

Lemma exact_within (v : Q) :
  within rng v = true <-> Range.min rng <= v <= Range.max rng.
Proof.
  unfold within. cbn [leb Fraction_Number].
  rewrite andb_true_iff, !Qle_bool_iff. reflexivity.
Qed.

Lemma exact_ltb (x y : Q) : ltb x y = true <-> x < y.
Proof.
  cbn. unfold Fraction.ltb. rewrite negb_true_iff. split.
  - intros Hb. apply Qnot_le_lt. intros Hle. apply Qle_bool_iff in Hle. congruence.
  - intros Hlt. destruct (Qle_bool y x) eqn:E; [ | reflexivity].
    apply Qle_bool_iff in E. lra.
Qed.

Lemma inject_Z_bounds (a b n : Z) :
  (a <= n <= b)%Z -> inject_Z a <= inject_Z n <= inject_Z b.
Proof. intros [Ha Hb]. split; rewrite <- Zle_Qle; assumption. Qed.

(** A position of the slider lands inside the range. *)
Lemma exact_value_within (position : Z) :
  (0 <= position <= SLIDER_MAX)%Z ->
  exists v, value_at var rng position = Ok v /\ within rng v = true.
Proof.
  intros Hp. pose proof exact_width_pos as Hw.
  destruct (exact_value_at position) as (v & Hv & Hclosed).
  exists v. split; [exact Hv | ]. apply exact_within. rewrite Hclosed.
  apply inject_Z_bounds in Hp. revert Hp. unfold SLIDER_MAX.
  change (inject_Z 200) with 200. change (inject_Z 0) with 0.
  generalize (inject_Z position). intros q [H0 H200].
  assert (E : q * width / 200 == width * (q / 200)) by (field; discriminate).
  rewrite E. clear E.
  assert (H1 : 0 <= q / 200 <= 1).
  { split; [apply Qle_shift_div_l | apply Qle_shift_div_r]; lra. }
  destruct H1 as [Ha Hb].
  pose proof (Qmult_le_0_compat width (q / 200) ltac:(lra) Ha) as Hm.
  pose proof (Qmult_le_0_compat width (1 - q / 200) ltac:(lra) ltac:(lra)) as Hn.
  assert (E : width * (1 - q / 200) == width - width * (q / 200)) by ring.
  rewrite E in Hn. lra.
Qed.

(** A position off the slider lands strictly off the range, on the same side. *)
Lemma exact_value_outside (position : Z) :
  exists v, value_at var rng position = Ok v /\
            ((position < 0)%Z -> ltb v (Range.min rng) = true) /\
            ((SLIDER_MAX < position)%Z -> ltb (Range.max rng) v = true).
Proof.
  pose proof exact_width_pos as Hw.
  destruct (exact_value_at position) as (v & Hv & Hclosed).
  exists v. split; [exact Hv | ].
  assert (E : inject_Z position * width / inject_Z SLIDER_MAX
              == width * (inject_Z position / 200)).
  { unfold SLIDER_MAX. change (inject_Z 200) with 200. field. }
  rewrite E in Hclosed. clear E.
  split; intros Hp; apply exact_ltb; rewrite Hclosed.
  - assert (Hq : inject_Z position / 200 < 0).
    { apply Qlt_shift_div_r; [reflexivity | ].
      rewrite Zlt_Qlt in Hp. change (inject_Z 0) with 0 in Hp. lra. }
    pose proof (Qmult_lt_0_compat width (- (inject_Z position / 200)) Hw ltac:(lra)) as Hm.
    assert (E : width * - (inject_Z position / 200)
                == - (width * (inject_Z position / 200))) by ring.
    rewrite E in Hm. lra.
  - assert (Hq : 1 < inject_Z position / 200).
    { apply Qlt_shift_div_l; [reflexivity | ].
      unfold SLIDER_MAX in Hp. rewrite Zlt_Qlt in Hp.
      change (inject_Z 200) with 200 in Hp. lra. }
    pose proof (Qmult_lt_0_compat width (inject_Z position / 200 - 1) Hw ltac:(lra)) as Hm.
    assert (E : width * (inject_Z position / 200 - 1)
                == width * (inject_Z position / 200) - width) by ring.
    rewrite E in Hm. lra.
Qed.

(** A value inside the range has its slider position on the slider. *)
Lemma exact_position_of (v : Q) :
  within rng v = true ->
  exists n, position_of var rng v = Ok n /\ (0 <= n <= SLIDER_MAX)%Z.
Proof.
  intros Hv. apply exact_within in Hv. pose proof exact_width_pos as Hw.
  unfold position_of. rewrite exact_init. cbn [bind].
  rewrite exact_slider_value. apply exact_round_bounds.
  cbn [Param.value Param.set_value Param.offset Param.scale exact_parameter].
  unfold SLIDER_MAX. change (inject_Z 200) with 200. change (inject_Z 0) with 0.
  assert (E : v * (200 / width) - Range.min rng * (200 / width)
              == 200 * ((v - Range.min rng) / width)).
  { field. apply Qpos_nonzero, Hw. }
  rewrite E. clear E.
  assert (H1 : 0 <= (v - Range.min rng) / width <= 1).
  { split; [apply Qle_shift_div_l | apply Qle_shift_div_r]; lra. }
  lra.
Qed.

(** Reading the slider position of the default and setting it back moves
    the value by at most half a slider step. *)
Lemma exact_default_round_trip :
  exists v, default_round_trip var rng = Ok v /\
            Qabs (v - Range.default rng) <= width / inject_Z (2 * SLIDER_MAX).
Proof.
  pose proof exact_width_pos as Hw.
  unfold default_round_trip. rewrite exact_init. cbn [bind].
  rewrite exact_slider_value.
  destruct (exact_round_error
              (Param.value (exact_parameter var rng) * Param.scale (exact_parameter var rng)
               - Param.offset (exact_parameter var rng))) as (n & Hn & Herr).
  rewrite Hn. cbn [bind]. rewrite exact_set by reflexivity. cbn [bind].
  eexists. split; [reflexivity | ].
  cbn [Param.value Param.set_value Param.offset Param.scale exact_parameter] in *.
  unfold SLIDER_MAX in *. change (inject_Z (2 * 200)) with 400.
  change (inject_Z 200) with 200 in *.
  set (d := Range.default rng) in *. set (m := Range.min rng) in *.
  set (w := Range.max rng - m) in *.
  assert (E : (inject_Z n + m * (200 / w)) / (200 / w) - d
              == (inject_Z n - (d * (200 / w) - m * (200 / w))) * (w / 200)).
  { field. apply Qpos_nonzero, Hw. }
  rewrite E, Qabs_Qmult. clear E.
  assert (Hpos : 0 <= w / 200) by (apply Qle_shift_div_l; lra).
  rewrite (Qabs_pos (w / 200)) by exact Hpos.
  assert (E : w / 400 == (1 # 2) * (w / 200)) by (field; discriminate).
  rewrite E. apply Qmult_le_compat_r; assumption.
Qed.

End ExactScaler.

(** ** The states of a [Parameter] *)

Section Reachable.
Context {F : Type} `{Number F}.

Lemma set_value_set_value (p : Param.t F) (v v' : F) :
  Param.set_value (Param.set_value p v) v' = Param.set_value p v'.
Proof. reflexivity. Qed.

Lemma set_value_value (p : Param.t F) : Param.set_value p (Param.value p) = p.
Proof. destruct p. reflexivity. Qed.

Lemma init_value (var : string) (rng : Range.t F) (p : Param.t F) :
  Param.__init__ var rng = Ok p -> Param.value p = Range.default rng.
Proof.
  unfold Param.__init__. destruct (of_int SLIDER_MAX); [ | discriminate]. cbn [bind].
  destruct (truediv _ _); [ | discriminate]. cbn [bind].
  intros [= <-]. reflexivity.
Qed.

(** [set_from_slider_value] reads [scale] and [offset] only. *)
Lemma set_from_slider_value_set_value (p p' : Param.t F) (v : F) (position : Z) :
  Param.set_from_slider_value (Param.set_value p v) position = Ok p' ->
  exists v', Param.set_from_slider_value p position = Ok (Param.set_value p v')
             /\ p' = Param.set_value p v'.
Proof.
  unfold Param.set_from_slider_value.
  destruct (of_int position); [ | discriminate]. cbn [bind].
  cbn [Param.offset Param.scale Param.set_value].
  destruct (truediv _ _) as [v' | ]; [ | discriminate]. cbn [bind].
  intros [= <-]. exists v'. split; reflexivity.
Qed.

(** A reachable state is the fresh [Parameter] with, as its value, the default
    or the image of a slider position. *)
Lemma reachable_values (rng : Range.t F) (p : Param.t F) :
  reachable rng p ->
  exists var p0 v,
    Param.__init__ var rng = Ok p0 /\ p = Param.set_value p0 v /\
    (v = Range.default rng \/
     exists position, 0 <= position <= SLIDER_MAX /\
                      value_at var rng position = Ok v).
Proof.
  induction 1 as [var p Hinit | p position p' _ IH Hpos Hset | p _ IH].
  - exists var, p, (Param.value p). split; [exact Hinit | ].
    split; [symmetry; apply set_value_value | ].
    left. eapply init_value, Hinit.
  - destruct IH as (var & p0 & v & Hinit & -> & _).
    apply set_from_slider_value_set_value in Hset.
    destruct Hset as (v' & Hset & ->).
    exists var, p0, v'. split; [exact Hinit | ]. split; [reflexivity | ].
    right. exists position. split; [exact Hpos | ].
    unfold value_at. rewrite Hinit. cbn [bind]. rewrite Hset. reflexivity.
  - destruct IH as (var & p0 & v & Hinit & -> & _).
    exists var, p0, (Range.default rng). split; [exact Hinit | ].
    split; [reflexivity | ]. left. reflexivity.
Qed.

End Reachable.

(** ** The scaler over the configured float ranges *)

Lemma result_eqb_Z (r : result Z) (n : Z) : result_eqb Z.eqb r n = true -> r = Ok n.
Proof.
  destruct r as [m | e]; cbn; [ | discriminate].
  intros Hm. apply Z.eqb_eq in Hm. congruence.
Qed.

Lemma result_holds_Ok {A : Type} (r : result A) (f : A -> bool) :
  result_holds r f = true -> exists a, r = Ok a /\ f a = true.
Proof.
  destruct r as [a | e]; cbn; [ | discriminate].
  intros Ha. exists a. split; [reflexivity | exact Ha].
Qed.

(** Case analysis on the entries of [RANGES]. *)
Ltac configured H :=
  cbn [In RANGES] in H;
  repeat (destruct H as [H | H]; [injection H as <- <- | ]);
  [ .. | contradiction H ].

Lemma configured_round_trip (var : string) (rng : Range.t float) :
  In (var, rng) RANGES ->
  forall var' position, 0 <= position <= SLIDER_MAX ->
                        round_trip var' rng position = Ok position.
Proof.
  intros Hin var' position Hp. apply result_eqb_Z. revert position Hp.
  apply (forall_positions (fun p => result_eqb Z.eqb (round_trip var' rng p) p)).
  configured Hin; vm_compute; reflexivity.
Qed.

Lemma configured_value_within (var : string) (rng : Range.t float) :
  In (var, rng) RANGES ->
  forall var' position, 0 <= position <= SLIDER_MAX ->
    exists v, value_at var' rng position = Ok v /\ within rng v = true.
Proof.
  intros Hin var' position Hp. apply result_holds_Ok. revert position Hp.
  apply (forall_positions (fun p => result_holds (value_at var' rng p) (within rng))).
  configured Hin; vm_compute; reflexivity.
Qed.

(** ** Round trip from the slider *)

(** C1, as stated, fails over floats: on the range (1e15, 1e15 + 1) the
    position 10 is absorbed by the offset 2e17 and read back as 0. *)
Lemma round_trip_float_counterexample :
  ltb (Range.min far_range) (Range.max far_range) = true /\
  0 <= 10 <= SLIDER_MAX /\
  round_trip "var" far_range 10 = Ok 0.
Proof.
  split; [vm_compute; reflexivity | ].
  split; [unfold SLIDER_MAX; lia | vm_compute; reflexivity].
Qed.

(** C1, amended: over exact rationals, for every range with min < max, and over
    floats for each of the four configured ranges, every slider position p in
    [0, SLIDER_MAX] is read back by [slider_value()] after
    [set_from_slider_value(p)] as p itself. *)
Theorem round_trip_from_slider :
  (forall (var : string) (rng : Range.t Q) (position : Z),
      ltb (Range.min rng) (Range.max rng) = true ->
      0 <= position <= SLIDER_MAX ->
      round_trip var rng position = Ok position) /\
  (forall (var : string) (rng : Range.t float) (position : Z),
      In (var, rng) RANGES ->
      0 <= position <= SLIDER_MAX ->
      round_trip var rng position = Ok position).
Proof.
  split.
  - intros var rng position Hlt _. apply exact_round_trip, Hlt.
  - intros var rng position Hin Hp. eapply configured_round_trip; eassumption.
Qed.

Lemma round_trip_from_slider_witness :
  round_trip "gamma" exact_gamma_range 37 = Ok 37 /\
  round_trip "gamma" gamma_range 37 = Ok 37.
Proof.
  split.
  - apply (proj1 round_trip_from_slider); [reflexivity | unfold SLIDER_MAX; lia].
  - apply (proj2 round_trip_from_slider);
      [cbn; tauto | unfold SLIDER_MAX; lia].
Defined.

(** ** The value stays inside the range *)

(** C2, as stated, fails over floats: on the range (0.4, 1.5, 1.0) the last
    slider position gives 1.5000000000000002, above max. *)
Lemma value_within_float_counterexample :
  ltb (Range.min uneven_range) (Range.max uneven_range) = true /\
  within uneven_range (Range.default uneven_range) = true /\
  0 <= 200 <= SLIDER_MAX /\
  value_at "var" uneven_range 200 = Ok 1.5000000000000002%float /\
  within uneven_range 1.5000000000000002%float = false /\
  exists p, reachable uneven_range p /\ within uneven_range (Param.value p) = false.
Proof.
  split; [vm_compute; reflexivity | ].
  split; [vm_compute; reflexivity | ].
  split; [unfold SLIDER_MAX; lia | ].
  split; [vm_compute; reflexivity | ].
  split; [vm_compute; reflexivity | ].
  eexists. split.
  - eapply reach_set.
    + eapply reach_init with (var := "var"%string). vm_compute. reflexivity.
    + unfold SLIDER_MAX. instantiate (1 := 200). lia.
    + vm_compute. reflexivity.
  - vm_compute. reflexivity.
Qed.

(** C2, amended: over exact rationals, for every range with min < max and
    min <= default <= max, and over floats for each of the four configured
    ranges, the value of a [Parameter] lies in [min, max] in every state
    reached from [__init__] by [set_from_slider_value] with positions in
    [0, SLIDER_MAX] and by resets to the default. *)
Theorem value_stays_within :
  (forall (rng : Range.t Q) (p : Param.t Q),
      ltb (Range.min rng) (Range.max rng) = true ->
      within rng (Range.default rng) = true ->
      reachable rng p ->
      within rng (Param.value p) = true) /\
  (forall (var : string) (rng : Range.t float) (p : Param.t float),
      In (var, rng) RANGES ->
      reachable rng p ->
      within rng (Param.value p) = true).
Proof.
  split.
  - intros rng p Hlt Hdefault Hreach.
    destruct (reachable_values rng p Hreach)
      as (var & p0 & v & _ & -> & [-> | (position & Hpos & Hat)]);
      cbn [Param.value Param.set_value]; [exact Hdefault | ].
    destruct (exact_value_within var rng Hlt position Hpos) as (v' & Hat' & Hin).
    congruence.
  - intros var rng p Hin Hreach.
    destruct (reachable_values rng p Hreach)
      as (var' & p0 & v & _ & -> & [-> | (position & Hpos & Hat)]);
      cbn [Param.value Param.set_value].
    + configured Hin; vm_compute; reflexivity.
    + destruct (configured_value_within var rng Hin var' position Hpos)
        as (v' & Hat' & Hv').
      congruence.
Qed.

Lemma value_stays_within_witness :
  (exists p,
      Param.set_from_slider_value (exact_parameter "gamma" exact_gamma_range) 200 = Ok p
      /\ within exact_gamma_range (Param.value p) = true) /\
  (exists p,
      Param.set_from_slider_value gamma_parameter 200 = Ok p
      /\ within gamma_range (Param.value p) = true
      /\ within gamma_range
           (Param.value (Param.set_value p (Range.default gamma_range))) = true).
Proof.
  split.
  - eexists. split; [vm_compute; reflexivity | ].
    apply (proj1 value_stays_within); [reflexivity | reflexivity | ].
    apply reach_set with (p := exact_parameter "gamma" exact_gamma_range)
                         (position := 200).
    + apply reach_init with (var := "gamma"%string). vm_compute. reflexivity.
    + unfold SLIDER_MAX. lia.
    + vm_compute. reflexivity.
  - assert (Hmoved : reachable gamma_range (Param.set_value gamma_parameter 5.0%float)).
    { apply reach_set with (p := gamma_parameter) (position := 200).
      - apply reach_init with (var := "gamma"%string). vm_compute. reflexivity.
      - unfold SLIDER_MAX. lia.
      - vm_compute. reflexivity. }
    exists (Param.set_value gamma_parameter 5.0%float).
    split; [vm_compute; reflexivity | ]. split.
    + apply (proj2 value_stays_within "gamma"%string); [cbn; tauto | exact Hmoved].
    + apply (proj2 value_stays_within "gamma"%string); [cbn; tauto | ].
      apply reach_reset. exact Hmoved.
Defined.

(** ** The ends of the slider *)

(** C4, as stated, fails over floats: on the range (0.4, 1.5, 1.0) the
    position SLIDER_MAX gives 1.5000000000000002, not max. *)
Lemma slider_ends_float_counterexample :
  ltb (Range.min uneven_range) (Range.max uneven_range) = true /\
  value_at "var" uneven_range SLIDER_MAX = Ok 1.5000000000000002%float /\
  eqb 1.5000000000000002%float (Range.max uneven_range) = false.
Proof.
  split; [vm_compute; reflexivity | ].
  split; vm_compute; reflexivity.
Qed.

(** C4, amended: over exact rationals, for every range with min < max, and over
    floats for each of the four configured ranges,
    [set_from_slider_value(0)] sets value = min and
    [set_from_slider_value(SLIDER_MAX)] sets value = max. *)
Theorem slider_ends :
  (forall (var : string) (rng : Range.t Q),
      ltb (Range.min rng) (Range.max rng) = true ->
      exists lo hi,
        value_at var rng 0 = Ok lo /\ eqb lo (Range.min rng) = true /\
        value_at var rng SLIDER_MAX = Ok hi /\ eqb hi (Range.max rng) = true) /\
  (forall (var : string) (rng : Range.t float),
      In (var, rng) RANGES ->
      value_at var rng 0 = Ok (Range.min rng) /\
      value_at var rng SLIDER_MAX = Ok (Range.max rng)).
Proof.
  split.
  - intros var rng Hlt.
    destruct (exact_value_at var rng Hlt 0) as (lo & Hlo & Elo).
    destruct (exact_value_at var rng Hlt SLIDER_MAX) as (hi & Hhi & Ehi).
    exists lo, hi. repeat split; try assumption; cbn [eqb Fraction_Number];
      apply Qeq_bool_iff.
    + rewrite Elo. change (inject_Z 0) with 0%Q. unfold SLIDER_MAX.
      change (inject_Z 200) with 200%Q. field.
    + rewrite Ehi. unfold SLIDER_MAX. change (inject_Z 200) with 200%Q. field.
  - intros var rng Hin. configured Hin; split; vm_compute; reflexivity.
Qed.

Lemma slider_ends_witness :
  (exists lo hi,
      value_at "gamma" exact_gamma_range 0 = Ok lo /\
      eqb lo (Range.min exact_gamma_range) = true /\
      value_at "gamma" exact_gamma_range SLIDER_MAX = Ok hi /\
      eqb hi (Range.max exact_gamma_range) = true) /\
  value_at "gamma" gamma_range 0 = Ok 0.1%float /\
  value_at "gamma" gamma_range SLIDER_MAX = Ok 5.0%float.
Proof.
  split.
  - apply (proj1 slider_ends). reflexivity.
  - apply (proj2 slider_ends "gamma"%string gamma_range). cbn. tauto.
Defined.

(** ** Round trip from the default *)

(** C3, as stated, fails: for gamma the default 1.0 has slider position 37,
    which maps back to 1.0065000000000002 (label "1.01"), more than 0.006
    away from the default. *)
Lemma default_round_trip_counterexample :
  In ("gamma"%string, gamma_range) RANGES /\
  Range.default gamma_range = 1.0%float /\
  position_of "gamma" gamma_range 1.0%float = Ok 37 /\
  default_round_trip "gamma" gamma_range = Ok 1.0065000000000002%float /\
  PrimFloat.ltb (1.0 + 0.006)%float 1.0065000000000002%float = true /\
  format_f 2 1.0065000000000002%float = "1.01"%string.
Proof.
  split; [cbn; tauto | ].
  split; [reflexivity | ].
  split; [vm_compute; reflexivity | ].
  split; [vm_compute; reflexivity | ].
  split; vm_compute; reflexivity.
Qed.

(** C3, amended: starting from value = default,
    [set_from_slider_value(slider_value())] yields a value within half a
    slider step, (max - min) / (2 * SLIDER_MAX), of the default: over exact
    rationals for every range with min < max, and over floats for the four
    configured ranges, where it is the default itself for contrast and
    brightness, 1.0049999999999999 for saturation and 1.0065000000000002 for
    gamma. *)
Theorem default_round_trip_half_step :
  (forall (var : string) (rng : Range.t Q),
      ltb (Range.min rng) (Range.max rng) = true ->
      exists v, default_round_trip var rng = Ok v /\
                (Qabs (v - Range.default rng)
                 <= (Range.max rng - Range.min rng) / inject_Z (2 * SLIDER_MAX))%Q) /\
  (forall (var : string) (rng : Range.t float),
      In (var, rng) RANGES ->
      exists v, default_round_trip var rng = Ok v /\ within_half_step rng v = true) /\
  default_round_trip "contrast" contrast_range = Ok 1.0%float /\
  default_round_trip "brightness" brightness_range = Ok 0.0%float /\
  default_round_trip "saturation" saturation_range = Ok 1.0049999999999999%float /\
  default_round_trip "gamma" gamma_range = Ok 1.0065000000000002%float.
Proof.
  split; [intros var rng Hlt; apply exact_default_round_trip, Hlt | ].
  split.
  - intros var rng Hin. apply result_holds_Ok.
    configured Hin; vm_compute; reflexivity.
  - repeat (split; [vm_compute; reflexivity | ]). vm_compute. reflexivity.
Qed.

Lemma default_round_trip_half_step_witness :
  (exists v, default_round_trip "gamma" exact_gamma_range = Ok v /\
             (Qabs (v - 1) <= (5 - (1 # 10)) / inject_Z (2 * SLIDER_MAX))%Q) /\
  (exists v, default_round_trip "gamma" gamma_range = Ok v /\
             within_half_step gamma_range v = true).
Proof.
  split.
  - apply (proj1 default_round_trip_half_step "gamma"%string exact_gamma_range).
    reflexivity.
  - apply (proj1 (proj2 default_round_trip_half_step) "gamma"%string gamma_range).
    cbn. tauto.
Defined.

(** ** The slider position of a value *)

Lemma position_of_value_at {F : Type} `{Number F}
    (var : string) (rng : Range.t F) (position : Z) (v : F) :
  value_at var rng position = Ok v ->
  position_of var rng v = round_trip var rng position.
Proof.
  unfold value_at, position_of, round_trip.
  destruct (Param.__init__ var rng) as [p0 | ]; [ | discriminate]. cbn [bind].
  unfold Param.set_from_slider_value.
  destruct (of_int position); [ | discriminate]. cbn [bind].
  destruct (truediv _ _); [ | discriminate]. cbn [bind].
  intros [= <-]. reflexivity.
Qed.

Lemma configured_default_position (var : string) (rng : Range.t float) :
  In (var, rng) RANGES ->
  forall var', exists n, position_of var' rng (Range.default rng) = Ok n
                         /\ 0 <= n <= SLIDER_MAX.
Proof.
  intros Hin var'.
  assert (Hb : result_holds (position_of var' rng (Range.default rng))
                 (fun n => (0 <=? n) && (n <=? SLIDER_MAX)) = true)
    by (configured Hin; vm_compute; reflexivity).
  apply result_holds_Ok in Hb. destruct Hb as (n & Hn & Hb).
  exists n. split; [exact Hn | lia].
Qed.

Lemma configured_reachable_position
    (var : string) (rng : Range.t float) (p : Param.t float) :
  In (var, rng) RANGES ->
  reachable rng p ->
  exists n, Param.slider_value p = Ok n /\ 0 <= n <= SLIDER_MAX.
Proof.
  intros Hin Hreach.
  destruct (reachable_values rng p Hreach)
    as (var' & p0 & v & Hinit & -> & Hv).
  assert (Hpos : Param.slider_value (Param.set_value p0 v) = position_of var' rng v)
    by (unfold position_of; rewrite Hinit; reflexivity).
  rewrite Hpos. destruct Hv as [-> | (position & Hp & Hat)].
  - eapply configured_default_position, Hin.
  - rewrite (position_of_value_at _ _ _ _ Hat).
    rewrite (configured_round_trip var rng Hin var' position Hp).
    exists position. split; [reflexivity | exact Hp].
Qed.

(** ** Which operations can raise *)

Lemma float_set_total (p : Param.t float) (position : Z) :
  PrimFloat.eqb (Param.scale p) 0%float = false ->
  Z.abs position < float_max_int ->
  exists v, Param.set_from_slider_value p position = Ok (Param.set_value p v).
Proof.
  intros Hscale Hpos. unfold Param.set_from_slider_value.
  cbn [of_int float_Number]. unfold PyFloat.of_int.
  fold float_max_int. destruct (Z.ltb_spec (Z.abs position) float_max_int); [ | lia].
  cbn [bind truediv float_Number]. unfold PyFloat.truediv. rewrite Hscale.
  eexists. reflexivity.
Qed.

Lemma configured_init (var : string) (rng : Range.t float) :
  In (var, rng) RANGES ->
  exists p0, Param.__init__ var rng = Ok p0
             /\ PrimFloat.eqb (Param.scale p0) 0%float = false
             /\ Param.format p0 = "{0:.2f}"%string.
Proof.
  intros Hin.
  configured Hin; eexists; (split; [vm_compute; reflexivity | ]);
    split; vm_compute; reflexivity.
Qed.

(** C10, as stated, fails over floats: on the range (-1e308, 1e308) the width
    overflows to infinity, scale is 0.0, and [set_from_slider_value(0)] on the
    constructed [Parameter] divides by zero. *)
Lemma totality_float_counterexample :
  ltb (Range.min overflowing_range) (Range.max overflowing_range) = true /\
  (p <- Param.__init__ "var" overflowing_range ;; Ok (Param.scale p)) = Ok 0.0%float /\
  (p <- Param.__init__ "var" overflowing_range ;;
   Param.set_from_slider_value p 0) = Raise ZeroDivisionError.
Proof.
  split; [vm_compute; reflexivity | ].
  split; vm_compute; reflexivity.
Qed.

(** C10, amended: over exact rationals, for every range with min < max,
    [__init__] succeeds with a nonzero scale, and [set_from_slider_value(p)]
    and [slider_value()] raise for no integer p and no value.  Over floats,
    for each of the four configured ranges, [__init__] succeeds with a nonzero
    scale, [set_from_slider_value(p)] raises for no value and no integer p that
    converts to a float (|p| < 2^1024 - 2^970), [label()] raises for no value,
    and [slider_value()] does not raise in any state reached from [__init__]
    by [set_from_slider_value] with positions in [0, SLIDER_MAX] and by
    resets. *)
Theorem operations_total :
  (forall (var : string) (rng : Range.t Q),
      ltb (Range.min rng) (Range.max rng) = true ->
      exists p0,
        Param.__init__ var rng = Ok p0 /\
        Qeq_bool (Param.scale p0) 0 = false /\
        forall (v : Q) (position : Z),
          (exists p', Param.set_from_slider_value (Param.set_value p0 v) position = Ok p')
          /\ (exists n, Param.slider_value (Param.set_value p0 v) = Ok n)) /\
  (forall (var : string) (rng : Range.t float),
      In (var, rng) RANGES ->
      exists p0,
        Param.__init__ var rng = Ok p0 /\
        PrimFloat.eqb (Param.scale p0) 0%float = false /\
        (forall (v : float) (position : Z),
            Z.abs position < float_max_int ->
            exists p', Param.set_from_slider_value (Param.set_value p0 v) position = Ok p') /\
        (forall v : float, exists text, Param.label (Param.set_value p0 v) = Ok text) /\
        (forall p : Param.t float,
            reachable rng p -> exists n, Param.slider_value p = Ok n)).
Proof.
  split.
  - intros var rng Hlt. exists (exact_parameter var rng).
    split; [apply exact_init, Hlt | ].
    pose proof (exact_scale_pos rng Hlt) as Hpos.
    split.
    + cbn [Param.scale exact_parameter].
      destruct (Qeq_bool _ 0) eqn:E; [ | reflexivity].
      apply Qeq_bool_eq in E. apply Qpos_nonzero in Hpos. contradiction.
    + intros v position. split.
      * eexists. apply (exact_set var rng Hlt). reflexivity.
      * eexists. reflexivity.
  - intros var rng Hin.
    destruct (configured_init var rng Hin) as (p0 & Hinit & Hscale & Hformat).
    exists p0. split; [exact Hinit | ]. split; [exact Hscale | ].
    split; [ | split].
    + intros v position Hpos.
      destruct (float_set_total (Param.set_value p0 v) position Hscale Hpos) as (v' & Hset).
      eexists. exact Hset.
    + intros v. unfold Param.label. cbn [Param.format Param.set_value].
      rewrite Hformat. eexists. reflexivity.
    + intros p Hreach.
      destruct (configured_reachable_position var rng p Hin Hreach) as (n & Hn & _).
      exists n. exact Hn.
Qed.

Lemma operations_total_witness :
  (exists p0,
      Param.__init__ "gamma" exact_gamma_range = Ok p0 /\
      Qeq_bool (Param.scale p0) 0 = false /\
      forall (v : Q) (position : Z),
        (exists p', Param.set_from_slider_value (Param.set_value p0 v) position = Ok p')
        /\ (exists n, Param.slider_value (Param.set_value p0 v) = Ok n)) /\
  (exists p0,
      Param.__init__ "gamma" gamma_range = Ok p0 /\
      PrimFloat.eqb (Param.scale p0) 0%float = false /\
      (forall (v : float) (position : Z),
          Z.abs position < float_max_int ->
          exists p', Param.set_from_slider_value (Param.set_value p0 v) position = Ok p') /\
      (forall v : float, exists text, Param.label (Param.set_value p0 v) = Ok text) /\
      (forall p : Param.t float,
          reachable gamma_range p -> exists n, Param.slider_value p = Ok n)).
Proof.
  split.
  - apply (proj1 operations_total "gamma"%string exact_gamma_range). reflexivity.
  - apply (proj2 operations_total "gamma"%string gamma_range). cbn. tauto.
Defined.

(** ** The filter command *)

Lemma wired_init (w : MainWindow.t) : MainWindow.__init__ = Ok w -> wired w.
Proof.
  intros Hinit.
  assert (E : MainWindow.__init__ =
              Ok (MainWindow.mk
                    [("contrast", float_parameter "contrast" contrast_range);
                     ("brightness", float_parameter "brightness" brightness_range);
                     ("saturation", float_parameter "saturation" saturation_range);
                     ("gamma", float_parameter "gamma" gamma_range)]%string
                    [("contrast", 100); ("brightness", 100);
                     ("saturation", 67); ("gamma", 37)]%string
                    [("contrast", "1.00"); ("brightness", "0.00");
                     ("saturation", "1.00"); ("gamma", "1.00")]%string
                    []))
    by (vm_compute; reflexivity).
  rewrite E in Hinit. injection Hinit as <-.
  exists 1.0%float, 0.0%float, 1.0%float, 1.0%float. reflexivity.
Qed.

Lemma mapM_Ok {A B : Type} (f : A -> result B) (g : A -> B) (l : list A) :
  (forall a, In a l -> f a = Ok (g a)) -> mapM f l = Ok (map g l).
Proof.
  induction l as [ | a l IH]; intros Hf; [reflexivity | ].
  cbn [mapM map]. rewrite (Hf a) by (left; reflexivity). cbn [bind].
  rewrite IH by (intros b Hb; apply Hf; right; exact Hb). reflexivity.
Qed.

Lemma label_2f (p : Param.t float) :
  Param.format p = "{0:.2f}"%string ->
  Param.label p = Ok (format_f 2 (Param.value p)).
Proof. intros Hf. unfold Param.label. rewrite Hf. reflexivity. Qed.

(** One run of [slot_slider_value_changed], when the parameter is there, the
    position converts and every format is the configured one. *)
Lemma slot_slider_value_changed_Ok
    (w : MainWindow.t) (var : string) (value : Z) (p : Param.t float) (v : float) :
  dict_get var (MainWindow.parameters w) = Ok p ->
  Param.set_from_slider_value p value = Ok (Param.set_value p v) ->
  (forall q, In q (values (dict_set var (Param.set_value p v) (MainWindow.parameters w))) ->
             Param.format q = "{0:.2f}"%string) ->
  MainWindow.slot_slider_value_changed w var value =
  Ok (MainWindow.mk
        (dict_set var (Param.set_value p v) (MainWindow.parameters w))
        (MainWindow.sliders w)
        (dict_set var (format_f 2 v) (MainWindow.labels w))
        (MainWindow.mpv_commands w ++
           [["vf"; "set";
             "eq=" ++ join ":"
               (map (fun q => Param.var q ++ "=" ++ format_f 2 (Param.value q))
                  (values (dict_set var (Param.set_value p v)
                             (MainWindow.parameters w))))]]))%string.
Proof.
  intros Hget Hset Hformat. unfold MainWindow.slot_slider_value_changed.
  rewrite Hget. cbn [bind]. rewrite Hset. cbn [bind].
  assert (Hin : In (Param.set_value p v)
                  (values (dict_set var (Param.set_value p v) (MainWindow.parameters w)))).
  { clear Hset Hformat. revert Hget. unfold values.
    induction (MainWindow.parameters w) as [ | [k q] d IH]; cbn [dict_get dict_set].
    - discriminate.
    - destruct (String.eqb var k); intros Hq.
      + left. reflexivity.
      + right. apply IH, Hq. }
  rewrite (label_2f _ (Hformat _ Hin)). cbn [bind Param.value Param.set_value].
  rewrite (mapM_Ok _ (fun q => Param.var q ++ "=" ++ format_f 2 (Param.value q))%string).
  - reflexivity.
  - intros q Hq. rewrite (label_2f _ (Hformat _ Hq)). reflexivity.
Qed.

(** In a wired window a slider change sends the command of the specification
    and leaves the window wired. *)
Lemma wired_slider (w : MainWindow.t) (var : string) (value : Z) :
  wired w ->
  In var (keys RANGES) ->
  Z.abs value < float_max_int ->
  exists w' args,
    MainWindow.slot_slider_value_changed w var value = Ok w' /\
    eq_command_of_spec w' = Ok args /\
    MainWindow.mpv_commands w' = MainWindow.mpv_commands w ++ [args] /\
    wired w'.
Proof.
  intros (vc & vb & vs & vg & Hp) Hvar Hvalue.
  cbn [keys RANGES map fst In] in Hvar.
  destruct Hvar as [<- | [<- | [<- | [<- | []]]]].
  - destruct (float_set_total
                (Param.set_value (float_parameter "contrast" contrast_range) vc)
                value eq_refl Hvalue) as (v & Hset).
    eexists. eexists. split; [ | split; [ | split]].
    + apply (slot_slider_value_changed_Ok w "contrast" value
               (Param.set_value (float_parameter "contrast" contrast_range) vc) v);
        [rewrite Hp; reflexivity | exact Hset | ].
      rewrite Hp. intros q [<- | [<- | [<- | [<- | []]]]]; reflexivity.
    + unfold eq_command_of_spec, label_of. cbn [MainWindow.parameters].
      rewrite Hp. reflexivity.
    + cbn [MainWindow.mpv_commands]. rewrite Hp. reflexivity.
    + exists v, vb, vs, vg. cbn [MainWindow.parameters]. rewrite Hp. reflexivity.
  - destruct (float_set_total
                (Param.set_value (float_parameter "brightness" brightness_range) vb)
                value eq_refl Hvalue) as (v & Hset).
    eexists. eexists. split; [ | split; [ | split]].
    + apply (slot_slider_value_changed_Ok w "brightness" value
               (Param.set_value (float_parameter "brightness" brightness_range) vb) v);
        [rewrite Hp; reflexivity | exact Hset | ].
      rewrite Hp. intros q [<- | [<- | [<- | [<- | []]]]]; reflexivity.
    + unfold eq_command_of_spec, label_of. cbn [MainWindow.parameters].
      rewrite Hp. reflexivity.
    + cbn [MainWindow.mpv_commands]. rewrite Hp. reflexivity.
    + exists vc, v, vs, vg. cbn [MainWindow.parameters]. rewrite Hp. reflexivity.
  - destruct (float_set_total
                (Param.set_value (float_parameter "saturation" saturation_range) vs)
                value eq_refl Hvalue) as (v & Hset).
    eexists. eexists. split; [ | split; [ | split]].
    + apply (slot_slider_value_changed_Ok w "saturation" value
               (Param.set_value (float_parameter "saturation" saturation_range) vs) v);
        [rewrite Hp; reflexivity | exact Hset | ].
      rewrite Hp. intros q [<- | [<- | [<- | [<- | []]]]]; reflexivity.
    + unfold eq_command_of_spec, label_of. cbn [MainWindow.parameters].
      rewrite Hp. reflexivity.
    + cbn [MainWindow.mpv_commands]. rewrite Hp. reflexivity.
    + exists vc, vb, v, vg. cbn [MainWindow.parameters]. rewrite Hp. reflexivity.
  - destruct (float_set_total
                (Param.set_value (float_parameter "gamma" gamma_range) vg)
                value eq_refl Hvalue) as (v & Hset).
    eexists. eexists. split; [ | split; [ | split]].
    + apply (slot_slider_value_changed_Ok w "gamma" value
               (Param.set_value (float_parameter "gamma" gamma_range) vg) v);
        [rewrite Hp; reflexivity | exact Hset | ].
      rewrite Hp. intros q [<- | [<- | [<- | [<- | []]]]]; reflexivity.
    + unfold eq_command_of_spec, label_of. cbn [MainWindow.parameters].
      rewrite Hp. reflexivity.
    + cbn [MainWindow.mpv_commands]. rewrite Hp. reflexivity.
    + exists vc, vb, vs, v. cbn [MainWindow.parameters]. rewrite Hp. reflexivity.
Qed.

Lemma slot_slider_value_changed_parameters
    (w w' : MainWindow.t) (var : string) (value : Z) :
  MainWindow.slot_slider_value_changed w var value = Ok w' ->
  exists p v,
    dict_get var (MainWindow.parameters w) = Ok p /\
    MainWindow.parameters w' =
    dict_set var (Param.set_value p v) (MainWindow.parameters w).
Proof.
  unfold MainWindow.slot_slider_value_changed.
  destruct (dict_get var (MainWindow.parameters w)) as [p | ]; [ | discriminate].
  cbn [bind].
  destruct (Param.set_from_slider_value p value) as [p' | ] eqn:Hset; [ | discriminate].
  cbn [bind]. rewrite <- (set_value_value p) in Hset.
  apply set_from_slider_value_set_value in Hset. destruct Hset as (v & _ & ->).
  destruct (Param.label _); [ | discriminate]. cbn [bind].
  destruct (mapM _ _); [ | discriminate]. cbn [bind].
  intros [= <-]. exists p, v. split; reflexivity.
Qed.

Lemma slot_reset_var_parameters (w w' : MainWindow.t) (var : string) :
  MainWindow.slot_reset_var w var = Ok w' ->
  exists p v,
    dict_get var (MainWindow.parameters w) = Ok p /\
    MainWindow.parameters w' =
    dict_set var (Param.set_value p v) (MainWindow.parameters w).
Proof.
  unfold MainWindow.slot_reset_var.
  destruct (dict_get var (MainWindow.parameters w)) as [p | ]; [ | discriminate].
  cbn [bind].
  destruct (dict_get var RANGES) as [rng | ]; [ | discriminate]. cbn [bind].
  destruct (Param.slider_value _); [ | discriminate]. cbn [bind].
  intros [= <-]. exists p, (Range.default rng). split; reflexivity.
Qed.

(** Overwriting the value of a stored parameter keeps the window wired. *)
Lemma wired_update (w w' : MainWindow.t) (var : string) (p : Param.t float) (v : float) :
  wired w ->
  dict_get var (MainWindow.parameters w) = Ok p ->
  MainWindow.parameters w' =
  dict_set var (Param.set_value p v) (MainWindow.parameters w) ->
  wired w'.
Proof.
  intros (vc & vb & vs & vg & Hp) Hget Hset. rewrite Hp in Hget, Hset.
  unfold wired. rewrite Hset. clear Hset Hp.
  cbn [dict_get dict_set] in *.
  destruct (String.eqb var "contrast");
    [injection Hget as <-; exists v, vb, vs, vg; reflexivity | ].
  destruct (String.eqb var "brightness");
    [injection Hget as <-; exists vc, v, vs, vg; reflexivity | ].
  destruct (String.eqb var "saturation");
    [injection Hget as <-; exists vc, vb, v, vg; reflexivity | ].
  destruct (String.eqb var "gamma");
    [injection Hget as <-; exists vc, vb, vs, v; reflexivity | discriminate].
Qed.

Lemma window_reachable_wired (w : MainWindow.t) : window_reachable w -> wired w.
Proof.
  induction 1 as [w Hinit | w var value w' _ IH Hslot | w var w' _ IH Hslot].
  - apply wired_init, Hinit.
  - apply slot_slider_value_changed_parameters in Hslot.
    destruct Hslot as (p & v & Hget & Hset). eapply wired_update; eassumption.
  - apply slot_reset_var_parameters in Hslot.
    destruct Hslot as (p & v & Hget & Hset). eapply wired_update; eassumption.
Qed.

(** C8: in every state of the window, a slider change (of a parameter of
    [RANGES], to a position that converts to a float) sends the player the
    command [vf set eq=contrast=<v>:brightness=<v>:saturation=<v>:gamma=<v>],
    each [<v>] the [label()] of that parameter after the change, in that
    order, joined by colons. *)
Theorem slider_change_sends_eq_command
    (w : MainWindow.t) (var : string) (value : Z) :
  window_reachable w ->
  In var (keys RANGES) ->
  Z.abs value < float_max_int ->
  exists w' args,
    MainWindow.slot_slider_value_changed w var value = Ok w' /\
    eq_command_of_spec w' = Ok args /\
    MainWindow.mpv_commands w' = MainWindow.mpv_commands w ++ [args].
Proof.
  intros Hreach Hvar Hvalue.
  destruct (wired_slider w var value (window_reachable_wired w Hreach) Hvar Hvalue)
    as (w' & args & Hslot & Hargs & Hcommands & _).
  exists w', args. repeat split; assumption.
Qed.

Lemma slider_change_sends_eq_command_witness :
  exists w,
    MainWindow.__init__ = Ok w /\
    exists w' args,
      MainWindow.slot_slider_value_changed w "gamma" 37 = Ok w' /\
      eq_command_of_spec w' = Ok args /\
      MainWindow.mpv_commands w' = MainWindow.mpv_commands w ++ [args].
Proof.
  eexists. split.
  - vm_compute. reflexivity.
  - apply slider_change_sends_eq_command.
    + apply window_init. vm_compute. reflexivity.
    + cbn. tauto.
    + vm_compute. reflexivity.
Defined.

(** The first command of a session, spelt out. *)
Example first_eq_command :
  (w <- MainWindow.__init__ ;;
   w' <- MainWindow.slot_slider_value_changed w "gamma" 37 ;;
   Ok (MainWindow.mpv_commands w')) =
  Ok [["vf"; "set";
       "eq=contrast=1.00:brightness=0.00:saturation=1.00:gamma=1.01"]]%string.
Proof. vm_compute. reflexivity. Qed.

(** ** Subtraction of binary64 floats: [x - y == 0] exactly when [x == y]

    The floats are those of [SpecFloat], which the primitive operations are
    specified by: [prec = 53], [emax = 1024], smallest exponent [-1074]. *)

Lemma fexp64 (k : Z) : fexp prec emax k = Z.max (k - 53) (-1074).
Proof. reflexivity. Qed.

Lemma digits2_pos_bounds (p : positive) :
  2 ^ (Z.pos (digits2_pos p) - 1) <= Z.pos p < 2 ^ Z.pos (digits2_pos p).
Proof.
  induction p as [p IH | p IH | ]; cbn [digits2_pos].
  - rewrite Pos2Z.inj_succ. replace (Z.succ (Z.pos (digits2_pos p)) - 1) with (Z.pos (digits2_pos p)) by lia.
    rewrite Z.pow_succ_r by lia.
    replace (Z.pos (digits2_pos p)) with (Z.succ (Z.pos (digits2_pos p) - 1)) at 1 by lia.
    rewrite Z.pow_succ_r by lia. lia.
  - rewrite Pos2Z.inj_succ. replace (Z.succ (Z.pos (digits2_pos p)) - 1) with (Z.pos (digits2_pos p)) by lia.
    rewrite Z.pow_succ_r by lia.
    replace (Z.pos (digits2_pos p)) with (Z.succ (Z.pos (digits2_pos p) - 1)) at 1 by lia.
    rewrite Z.pow_succ_r by lia. lia.
  - cbn. lia.
Qed.

Lemma iter_xO (m d : positive) : Z.pos (Pos.iter xO m d) = Z.pos m * 2 ^ Z.pos d.
Proof.
  induction d as [ | d IH] using Pos.peano_ind.
  - cbn. lia.
  - rewrite Pos.iter_succ, Pos2Z.inj_succ, Z.pow_succ_r by lia.
    rewrite Pos2Z.inj_xO, IH. lia.
Qed.

Lemma digits2_iter_xO (m d : positive) :
  Z.pos (digits2_pos (Pos.iter xO m d)) = Z.pos (digits2_pos m) + Z.pos d.
Proof.
  induction d as [ | d IH] using Pos.peano_ind.
  - cbn. lia.
  - rewrite Pos.iter_succ. cbn [digits2_pos]. rewrite Pos2Z.inj_succ, IH. lia.
Qed.

Lemma shr_1_m (r : shr_record) : 0 <= shr_m r -> shr_m (shr_1 r) = shr_m r / 2.
Proof.
  destruct r as [m rb sb]. cbn [shr_m]. intros Hm.
  destruct m as [ | [p | p | ] | p]; cbn [shr_1 shr_m]; try lia; try reflexivity.
  - apply Z.div_unique with (r := 1); lia.
  - apply Z.div_unique with (r := 0); lia.
Qed.

Lemma iter_shr_1_m (n : positive) (r : shr_record) :
  0 <= shr_m r -> shr_m (iter_pos shr_1 n r) = shr_m r / 2 ^ Z.pos n.
Proof.
  revert r. induction n as [n IH | n IH | ]; intros r Hr; cbn [iter_pos].
  - pose proof (Z.pow_pos_nonneg 2 (Z.pos n) ltac:(lia) ltac:(lia)) as Hpow.
    assert (H1 : 0 <= shr_m (shr_1 r)) by (rewrite shr_1_m by lia; apply Z.div_pos; lia).
    assert (H2 : 0 <= shr_m (iter_pos shr_1 n (shr_1 r)))
      by (rewrite IH by lia; apply Z.div_pos; lia).
    rewrite IH, IH, shr_1_m by lia.
    rewrite !Z.div_div by lia. f_equal.
    replace (Z.pos n~1) with (1 + Z.pos n + Z.pos n) by lia.
    rewrite !Z.pow_add_r by lia. change (2 ^ 1) with 2. ring.
  - pose proof (Z.pow_pos_nonneg 2 (Z.pos n) ltac:(lia) ltac:(lia)) as Hpow.
    assert (H2 : 0 <= shr_m (iter_pos shr_1 n r))
      by (rewrite IH by lia; apply Z.div_pos; lia).
    rewrite IH, IH by lia. rewrite Z.div_div by lia. f_equal.
    replace (Z.pos n~0) with (Z.pos n + Z.pos n) by lia.
    rewrite Z.pow_add_r by lia. reflexivity.
  - rewrite shr_1_m by lia. reflexivity.
Qed.

Lemma shr_record_of_loc_m (m : Z) (l : location) : shr_m (shr_record_of_loc m l) = m.
Proof. destruct l as [ | [ | | ]]; reflexivity. Qed.

(** Shifting a positive mantissa to its canonical exponent leaves it positive,
    when the exponent is not below the smallest one. *)
Lemma shr_fexp_pos (p : positive) (e : Z) (l : location) :
  -1074 <= e ->
  0 < shr_m (fst (shr_fexp prec emax (Z.pos p) e l))
  /\ e <= snd (shr_fexp prec emax (Z.pos p) e l).
Proof.
  intros He. unfold shr_fexp, shr. cbn [Zdigits2]. rewrite fexp64.
  pose proof (digits2_pos_bounds p) as [Hlo Hhi].
  set (d := Z.pos (digits2_pos p)) in *.
  destruct (Z.max (d + e - 53) (-1074) - e) as [ | n | n] eqn:En; cbn [fst snd];
    rewrite ?shr_record_of_loc_m; try lia.
  rewrite iter_shr_1_m by (rewrite shr_record_of_loc_m; lia).
  rewrite shr_record_of_loc_m. split; [ | lia].
  assert (Hn : Z.pos n <= d - 1) by lia.
  apply Z.div_str_pos. split; [apply Z.pow_pos_nonneg; lia | ].
  etransitivity; [ | exact Hlo]. apply Z.pow_le_mono_r; lia.
Qed.

Lemma round_nearest_even_pos (m : Z) (l : location) :
  0 < m -> 0 < round_nearest_even m l.
Proof.
  intros Hm. destruct l as [ | [ | | ]]; cbn [round_nearest_even]; try lia.
  destruct (Z.even m); lia.
Qed.

Lemma binary_round_aux_nonzero (s : bool) (p : positive) (e : Z) (l : location) :
  -1074 <= e -> nonzero (binary_round_aux prec emax s (Z.pos p) e l).
Proof.
  intros He. unfold binary_round_aux.
  destruct (shr_fexp_pos p e l He) as [Hm He'].
  destruct (shr_fexp prec emax (Z.pos p) e l) as [r e'] eqn:E1. cbn [fst snd] in *.
  pose proof (round_nearest_even_pos (shr_m r) (loc_of_shr_record r) Hm) as Hr.
  destruct (round_nearest_even (shr_m r) (loc_of_shr_record r)) as [ | q | q] eqn:E2;
    try lia.
  destruct (shr_fexp_pos q e' loc_Exact ltac:(lia)) as [Hm' _].
  destruct (shr_fexp prec emax (Z.pos q) e' loc_Exact) as [r' e''] eqn:E3.
  cbn [fst] in Hm'.
  destruct (shr_m r') as [ | q' | q']; try lia.
  destruct (e'' <=? emax - prec); exact I.
Qed.

Lemma shl_align_exponent (m : positive) (e e' : Z) :
  snd (shl_align m e e') = Z.min e e'.
Proof.
  unfold shl_align. destruct (e' - e) as [ | d | d] eqn:E; cbn [snd]; lia.
Qed.

Lemma shl_align_mantissa (m : positive) (e e' : Z) :
  Z.pos (fst (shl_align m e e')) = Z.pos m * 2 ^ (e - Z.min e e')
  /\ Z.pos (digits2_pos (fst (shl_align m e e')))
     = Z.pos (digits2_pos m) + (e - Z.min e e').
Proof.
  unfold shl_align. destruct (e' - e) as [ | d | d] eqn:E; cbn [fst].
  - replace (e - Z.min e e') with 0 by lia. cbn. lia.
  - replace (e - Z.min e e') with 0 by lia. cbn. lia.
  - replace (e - Z.min e e') with (Z.pos d) by lia.
    split; [apply iter_xO | apply digits2_iter_xO].
Qed.

Lemma binary_normalize_nonzero (z e : Z) :
  z <> 0 -> -1074 <= e -> nonzero (binary_normalize prec emax z e false).
Proof.
  intros Hz He.
  assert (H : forall s m, nonzero (binary_round prec emax s m e)).
  { intros s m. unfold binary_round.
    pose proof (shl_align_exponent m e (fexp prec emax (Z.pos (digits2_pos m) + e))) as Hs.
    destruct (shl_align m e _) as [mz ez]. cbn [snd] in Hs.
    apply binary_round_aux_nonzero. rewrite fexp64 in Hs. lia. }
  destruct z as [ | m | m]; cbn [binary_normalize]; [contradiction | apply H | apply H].
Qed.

Lemma SFeqb_zero (x : spec_float) : nonzero x -> SFeqb x (S754_zero false) = false.
Proof. destruct x as [ | [ | ] | | [ | ] m e]; cbn; intros H; try contradiction; reflexivity. Qed.

Lemma SFeqb_finite (s1 s2 : bool) (m1 m2 : positive) (e1 e2 : Z) :
  SFeqb (S754_finite s1 m1 e1) (S754_finite s2 m2 e2) = true
  <-> s1 = s2 /\ e1 = e2 /\ m1 = m2.
Proof.
  unfold SFeqb, SFcompare. split.
  - destruct s1, s2; try discriminate;
      destruct (Z.compare_spec e1 e2) as [He | He | He]; try discriminate;
      fold (Pos.compare m1 m2);
      destruct (Pos.compare_spec m1 m2) as [Hm | Hm | Hm]; try discriminate;
      intros _; auto.
  - intros (-> & -> & ->). rewrite Z.compare_refl.
    fold (Pos.compare m2 m2). rewrite Pos.compare_refl. destruct s2; reflexivity.
Qed.

Lemma canonical_exponent (m : positive) (e : Z) :
  bounded prec emax m e = true ->
  Z.max (Z.pos (digits2_pos m) + e - 53) (-1074) = e.
Proof.
  unfold bounded, canonical_mantissa. rewrite fexp64.
  intros H. apply andb_prop in H. destruct H as [H _]. apply Z.eqb_eq in H. exact H.
Qed.

(** Two canonical floats with the same aligned mantissa are the same float. *)
Lemma aligned_mantissa_inj (mx my : positive) (ex ey : Z) :
  bounded prec emax mx ex = true ->
  bounded prec emax my ey = true ->
  Z.pos (fst (shl_align mx ex (Z.min ex ey)))
  = Z.pos (fst (shl_align my ey (Z.min ex ey))) ->
  ex = ey /\ mx = my.
Proof.
  intros Hx Hy Heq.
  apply canonical_exponent in Hx. apply canonical_exponent in Hy.
  destruct (shl_align_mantissa mx ex (Z.min ex ey)) as [Vx Dx].
  destruct (shl_align_mantissa my ey (Z.min ex ey)) as [Vy Dy].
  assert (Hd : Z.pos (digits2_pos (fst (shl_align mx ex (Z.min ex ey))))
               = Z.pos (digits2_pos (fst (shl_align my ey (Z.min ex ey)))))
    by (injection Heq as ->; reflexivity).
  rewrite Dx, Dy in Hd.
  replace (Z.min ex (Z.min ex ey)) with (Z.min ex ey) in * by lia.
  replace (Z.min ey (Z.min ex ey)) with (Z.min ex ey) in * by lia.
  assert (He : ex = ey) by lia. subst ey. split; [reflexivity | ].
  rewrite Vx, Vy in Heq. replace (ex - Z.min ex ex) with 0 in Heq by lia.
  cbn in Heq. lia.
Qed.

Lemma SFsub_zero (x y : spec_float) :
  valid_binary x = true ->
  valid_binary y = true ->
  (forall s, ~ (x = S754_infinity s /\ y = S754_infinity s)) ->
  SFeqb (SFsub prec emax x y) (S754_zero false) = SFeqb x y.
Proof.
  intros Vx Vy Hinf.
  destruct x as [sx | sx | | sx mx ex], y as [sy | sy | | sy my ey];
    try reflexivity;
    try (destruct sx; reflexivity);
    try (destruct sy; reflexivity);
    try (destruct sx, sy; reflexivity).
  - destruct sx, sy; try reflexivity; exfalso; eapply Hinf; split; reflexivity.
  - cbn [valid_binary] in Vx, Vy. cbn [SFsub].
    set (a := fst (shl_align mx ex (Z.min ex ey))).
    set (b := fst (shl_align my ey (Z.min ex ey))).
    destruct (Z.eq_dec (cond_Zopp sx (Z.pos a) - cond_Zopp sy (Z.pos b)) 0) as [Hz | Hz].
    + rewrite Hz. cbn [binary_normalize]. symmetry. apply SFeqb_finite.
      assert (Hs : sx = sy /\ Z.pos a = Z.pos b)
        by (destruct sx, sy; cbn [cond_Zopp] in Hz; split; try reflexivity; lia).
      destruct Hs as [-> Hab].
      destruct (aligned_mantissa_inj mx my ex ey Vx Vy Hab) as [-> ->]. auto.
    + rewrite SFeqb_zero.
      * symmetry. destruct (SFeqb _ _) eqn:E; [ | reflexivity].
        apply SFeqb_finite in E. destruct E as (-> & -> & ->).
        exfalso. apply Hz. subst a b. lia.
      * apply binary_normalize_nonzero; [exact Hz | ].
        apply canonical_exponent in Vx. apply canonical_exponent in Vy. lia.
Qed.

Lemma float_sub_zero (x y : float) :
  same_infinity x y = false ->
  PrimFloat.eqb (x - y) 0 = PrimFloat.eqb x y.
Proof.
  intros Hinf. rewrite !FloatAxioms.eqb_spec, FloatAxioms.sub_spec.
  replace (Prim2SF 0%float) with (S754_zero false) by reflexivity.
  apply SFsub_zero; try apply Prim2SF_valid.
  intros s [Hx Hy]. unfold same_infinity, PrimFloat.is_infinity in Hinf.
  rewrite !FloatAxioms.eqb_spec, FloatAxioms.abs_spec, Hx, Hy in Hinf.
  replace (Prim2SF infinity) with (S754_infinity false) in Hinf by reflexivity.
  destruct s; discriminate.
Qed.

(** ** Construction *)

Lemma float_init (var : string) (rng : Range.t float) :
  Param.__init__ var rng =
  if PrimFloat.eqb (Range.max rng - Range.min rng) 0
  then Raise ZeroDivisionError
  else Ok (float_parameter var rng).
Proof.
  unfold Param.__init__.
  replace (of_int SLIDER_MAX) with (Ok 200%float) by (vm_compute; reflexivity).
  cbn [bind truediv sub mul float_Number]. unfold PyFloat.truediv.
  destruct (PrimFloat.eqb _ 0); reflexivity.
Qed.

Lemma exact_init_cases (var : string) (rng : Range.t Q) :
  Param.__init__ var rng =
  if Qeq_bool (Range.max rng) (Range.min rng)
  then Raise ZeroDivisionError
  else Ok (exact_parameter var rng).
Proof.
  unfold Param.__init__. cbn [of_int bind truediv sub mul Fraction_Number].
  unfold Fraction.truediv.
  assert (E : Qeq_bool (Range.max rng - Range.min rng) 0
              = Qeq_bool (Range.max rng) (Range.min rng)).
  { destruct (Qeq_bool (Range.max rng) (Range.min rng)) eqn:E1.
    - apply Qeq_bool_iff in E1. apply Qeq_bool_iff. rewrite E1. ring.
    - destruct (Qeq_bool (_ - _) 0) eqn:E2; [ | reflexivity].
      apply Qeq_bool_iff in E2.
      assert (E3 : (Range.max rng == Range.min rng)%Q) by lra.
      apply Qeq_bool_iff in E3. congruence. }
  rewrite E. clear E.
  destruct (Qeq_bool (Range.max rng) (Range.min rng)); reflexivity.
Qed.

(** C5, as stated, fails over floats when both bounds are the same infinity:
    max == min holds, yet max - min is NaN, not zero, and construction
    succeeds. *)
Lemma construction_float_counterexample :
  eqb (Range.max infinite_range) (Range.min infinite_range) = true /\
  Param.__init__ "var" infinite_range = Ok (float_parameter "var" infinite_range) /\
  Param.scale (float_parameter "var" infinite_range) = nan.
Proof.
  split; [vm_compute; reflexivity | ].
  split; vm_compute; reflexivity.
Qed.

(** C5, amended: constructing a [Parameter] sets value = default,
    range = max - min, scale = SLIDER_MAX / range and offset = min * scale, and
    it fails, with [ZeroDivisionError] and nothing else, exactly when
    max == min: over floats for every range whose bounds are not both the
    same infinity, and over exact rationals for every range. *)
Theorem construction_fails_iff_degenerate :
  (forall (var : string) (rng : Range.t float),
      same_infinity (Range.max rng) (Range.min rng) = false ->
      Param.__init__ var rng =
      if eqb (Range.max rng) (Range.min rng)
      then Raise ZeroDivisionError
      else Ok (Param.mk var (Range.default rng)
                 (Range.max rng - Range.min rng)%float
                 (200 / (Range.max rng - Range.min rng))%float
                 (Range.min rng * (200 / (Range.max rng - Range.min rng)))%float
                 (Range.format rng))) /\
  (forall (var : string) (rng : Range.t Q),
      Param.__init__ var rng =
      if eqb (Range.max rng) (Range.min rng)
      then Raise ZeroDivisionError
      else Ok (Param.mk var (Range.default rng)
                 (Range.max rng - Range.min rng)%Q
                 (inject_Z SLIDER_MAX / (Range.max rng - Range.min rng))%Q
                 (Range.min rng
                  * (inject_Z SLIDER_MAX / (Range.max rng - Range.min rng)))%Q
                 (Range.format rng))).
Proof.
  split.
  - intros var rng Hinf. rewrite float_init.
    rewrite (float_sub_zero _ _ Hinf). reflexivity.
  - intros var rng. apply exact_init_cases.
Qed.

Lemma construction_fails_iff_degenerate_witness :
  Param.__init__ "gamma" gamma_range = Ok gamma_parameter /\
  Param.__init__ "flat" (Range.mk 1.5%float 1.5%float 1.5%float "{0:.2f}")
  = Raise ZeroDivisionError.
Proof.
  split.
  - apply (proj1 construction_fails_iff_degenerate "gamma"%string gamma_range).
    vm_compute. reflexivity.
  - apply (proj1 construction_fails_iff_degenerate "flat"%string
             (Range.mk 1.5%float 1.5%float 1.5%float "{0:.2f}")).
    vm_compute. reflexivity.
Defined.

(** * Binary64 arithmetic is monotone

    Each operation on finite floats returns the float nearest to the exact
    result, so it is monotone; with the order of the floats and [round], this
    bounds the slider position of every value of a range by the positions of
    its ends, and the value of every position by the values of two positions. *)

(** ** Rounding a quotient to the nearest integer, and to the nearest float *)

(** The rounding depends on the ratio only. *)
Lemma round_half_even_ratio (n1 d1 n2 d2 : Z) :
  0 < d1 -> 0 < d2 -> n1 * d2 = n2 * d1 ->
  round_half_even n1 d1 = round_half_even n2 d2.
Proof.
  intros H1 H2 Heq. unfold round_half_even.
  pose proof (Z.div_mod n1 d1 ltac:(lia)) as E1.
  pose proof (Z.mod_pos_bound n1 d1 H1) as B1.
  pose proof (Z.div_mod n2 d2 ltac:(lia)) as E2.
  pose proof (Z.mod_pos_bound n2 d2 H2) as B2.
  set (q1 := n1 / d1) in *. set (q2 := n2 / d2) in *.
  set (r1 := n1 mod d1) in *. set (r2 := n2 mod d2) in *.
  assert (Hb1 : r1 * d2 < d1 * d2) by nia.
  assert (Hb2 : r2 * d1 < d1 * d2) by nia.
  assert (Hd : d1 * d2 * (q1 - q2) = r2 * d1 - r1 * d2) by nia.
  assert (Hq : q1 = q2).
  { destruct (Z.lt_trichotomy q1 q2) as [H | [H | H]]; [exfalso | assumption | exfalso].
    - assert (d1 * d2 * (q1 - q2) <= - (d1 * d2)) by nia. nia.
    - assert (d1 * d2 <= d1 * d2 * (q1 - q2)) by nia. nia. }
  assert (Hr : r1 * d2 = r2 * d1) by nia.
  rewrite Hq.
  destruct (Z.compare_spec (2 * r1) d1);
    destruct (Z.compare_spec (2 * r2) d2); try reflexivity; nia.
Qed.

Lemma round_half_even_mono (n1 d1 n2 d2 : Z) :
  0 < d1 -> 0 < d2 -> n1 * d2 <= n2 * d1 ->
  round_half_even n1 d1 <= round_half_even n2 d2.
Proof.
  intros H1 H2 Hle.
  destruct (Z.eq_dec (n1 * d2) (n2 * d1)) as [Heq | Hne].
  - rewrite (round_half_even_ratio n1 d1 n2 d2) by assumption. lia.
  - pose proof (round_half_even_error n1 d1 H1) as E1.
    pose proof (round_half_even_error n2 d2 H2) as E2.
    set (r1 := round_half_even n1 d1) in *. set (r2 := round_half_even n2 d2) in *.
    destruct (Z_lt_le_dec r2 r1) as [Hlt | ]; [exfalso | assumption].
    assert (2 * r1 * d1 * d2 <= 2 * n1 * d2 + d1 * d2) by nia.
    assert (2 * n2 * d1 <= 2 * r2 * d1 * d2 + d1 * d2) by nia.
    assert (r2 + 1 <= r1) by lia.
    nia.
Qed.

Lemma Zdigits2_nonneg (q : Z) : 0 <= Zdigits2 q.
Proof. destruct q; cbn; lia. Qed.

Lemma Zdigits2_bounds (q : Z) :
  0 < q -> 2 ^ (Zdigits2 q - 1) <= q < 2 ^ Zdigits2 q.
Proof. destruct q as [ | p | p]; try lia. intros _. apply digits2_pos_bounds. Qed.

Lemma Zdigits2_upper (q : Z) : 0 <= q -> q < 2 ^ Zdigits2 q.
Proof.
  intros Hq. destruct (Z.eq_dec q 0) as [-> | Hne]; [cbn; lia | ].
  apply Zdigits2_bounds. lia.
Qed.

Lemma Zdigits2_unique (q k : Z) :
  2 ^ (k - 1) <= q < 2 ^ k -> 0 < q -> Zdigits2 q = k.
Proof.
  intros [Hlo Hhi] Hq. pose proof (Zdigits2_bounds q Hq) as [Dlo Dhi].
  pose proof (Zdigits2_nonneg q) as Hn.
  assert (Hk : 0 <= k).
  { destruct (Z_lt_le_dec k 0) as [Hneg | ]; [ | assumption].
    rewrite (Z.pow_neg_r 2 k) in Hhi by lia. lia. }
  destruct (Z.lt_trichotomy (Zdigits2 q) k) as [H | [H | H]]; [exfalso | assumption | exfalso].
  - assert (2 ^ Zdigits2 q <= 2 ^ (k - 1)) by (apply Z.pow_le_mono_r; lia). lia.
  - assert (2 ^ k <= 2 ^ (Zdigits2 q - 1)) by (apply Z.pow_le_mono_r; lia). lia.
Qed.

Lemma Zdigits2_mono (a b : Z) : 0 <= a <= b -> Zdigits2 a <= Zdigits2 b.
Proof.
  intros [Ha Hab]. destruct (Z.eq_dec a 0) as [-> | Hne]; [apply Zdigits2_nonneg | ].
  pose proof (Zdigits2_bounds a ltac:(lia)) as [Alo Ahi].
  pose proof (Zdigits2_bounds b ltac:(lia)) as [Blo Bhi].
  pose proof (Zdigits2_nonneg b) as Hn.
  destruct (Z_lt_le_dec (Zdigits2 b) (Zdigits2 a)) as [Hlt | ]; [exfalso | assumption].
  assert (2 ^ Zdigits2 b <= 2 ^ (Zdigits2 a - 1)) by (apply Z.pow_le_mono_r; lia). lia.
Qed.

Lemma div_cross_mono (n1 d1 n2 d2 : Z) :
  0 < d1 -> 0 < d2 -> n1 * d2 <= n2 * d1 -> n1 / d1 <= n2 / d2.
Proof.
  intros H1 H2 Hle.
  pose proof (Z.div_mod n1 d1 ltac:(lia)) as E1.
  pose proof (Z.mod_pos_bound n1 d1 H1) as B1.
  pose proof (Z.div_mod n2 d2 ltac:(lia)) as E2.
  pose proof (Z.mod_pos_bound n2 d2 H2) as B2.
  set (q1 := n1 / d1) in *. set (q2 := n2 / d2) in *.
  set (r1 := n1 mod d1) in *. set (r2 := n2 mod d2) in *.
  destruct (Z_lt_le_dec q2 q1) as [Hlt | ]; [exfalso | assumption].
  assert (Hb2 : r2 * d1 < d1 * d2) by nia.
  assert (d1 * d2 <= d1 * d2 * (q1 - q2)) by nia.
  nia.
Qed.

Lemma nearest_mono (N1 D1 N2 D2 : Z) :
  0 <= N1 -> 0 < D1 -> 0 < D2 -> N1 * D2 <= N2 * D1 ->
  nearest N1 D1 <= nearest N2 D2.
Proof.
  intros HN1 HD1 HD2 Hle. unfold nearest, ulp_exponent.
  assert (HN2 : 0 <= N2) by nia.
  assert (Hq1 : 0 <= N1 / D1) by (apply Z.div_pos; lia).
  assert (Hq : N1 / D1 <= N2 / D2) by (apply div_cross_mono; assumption).
  pose proof (Zdigits2_mono _ _ (conj Hq1 Hq)) as Hk.
  pose proof (Zdigits2_nonneg (N1 / D1)) as Hk1.
  set (k1 := Zdigits2 (N1 / D1)) in *. set (k2 := Zdigits2 (N2 / D2)) in *.
  set (F1 := Z.max (k1 - 53) 0). set (F2 := Z.max (k2 - 53) 0).
  assert (HF1 : 0 <= F1) by lia. assert (HF2 : 0 <= F2) by lia.
  pose proof (Z.pow_pos_nonneg 2 F1 ltac:(lia) HF1) as P1.
  pose proof (Z.pow_pos_nonneg 2 F2 ltac:(lia) HF2) as P2.
  destruct (Z.eq_dec F1 F2) as [E | NE].
  - rewrite <- E. apply Z.mul_le_mono_nonneg_r; [lia | ].
    apply round_half_even_mono; nia.
  - assert (HF : F1 < F2) by lia. assert (Hk2 : k2 = F2 + 53) by lia.
    assert (Hlt : k1 <= k2 - 1) by lia.
    transitivity (2 ^ k1); [ | transitivity (2 ^ (k2 - 1))].
    + (* upper bound *)
      assert (HF1k : F1 <= k1) by lia.
      replace (2 ^ k1) with (2 ^ (k1 - F1) * 2 ^ F1)
        by (rewrite <- Z.pow_add_r by lia; f_equal; lia).
      apply Z.mul_le_mono_nonneg_r; [lia | ].
      apply round_half_even_bounds with (lo := 0); [nia | ].
      split; [nia | ].
      replace (2 ^ (k1 - F1) * (D1 * 2 ^ F1)) with (2 ^ k1 * D1)
        by (replace (2 ^ k1) with (2 ^ (k1 - F1) * 2 ^ F1)
              by (rewrite <- Z.pow_add_r by lia; f_equal; lia); ring).
      pose proof (Zdigits2_upper (N1 / D1) Hq1) as Hu. fold k1 in Hu.
      pose proof (Z.div_mod N1 D1 ltac:(lia)) as E1.
      pose proof (Z.mod_pos_bound N1 D1 HD1) as B1. nia.
    + apply Z.pow_le_mono_r; lia.
    + (* lower bound *)
      assert (Hq2 : 0 < N2 / D2).
      { destruct (Z.eq_dec (N2 / D2) 0) as [E0 | ].
        - unfold k2 in Hk2. rewrite E0 in Hk2. cbn in Hk2. lia.
        - lia. }
      pose proof (Zdigits2_bounds (N2 / D2) Hq2) as [Hlo _]. fold k2 in Hlo.
      replace (2 ^ (k2 - 1)) with (2 ^ 52 * 2 ^ F2) in *
        by (rewrite <- Z.pow_add_r by lia; f_equal; lia).
      apply Z.mul_le_mono_nonneg_r; [lia | ].
      apply round_half_even_bounds with (hi := N2 + 1); [nia | ].
      pose proof (Z.div_mod N2 D2 ltac:(lia)) as E2.
      pose proof (Z.mod_pos_bound N2 D2 HD2) as B2.
      split; nia.
Qed.

(** ** What [binary_round_aux] computes *)

Lemma shr_1_of_loc (q : Z) (l : location) :
  0 <= q ->
  shr_1 (shr_record_of_loc q l)
  = Build_shr_record (q / 2) (Z.odd q)
      (match l with loc_Exact => false | _ => true end).
Proof.
  intros Hq.
  assert (Hdiv : forall p, Z.pos p~1 / 2 = Z.pos p /\ Z.pos p~0 / 2 = Z.pos p).
  { intros p. split; symmetry.
    - apply Z.div_unique with (r := 1); lia.
    - apply Z.div_unique with (r := 0); lia. }
  destruct q as [ | [p | p | ] | p]; try lia;
    destruct l as [ | [ | | ]]; cbn [shr_record_of_loc shr_1 orb Z.odd];
    rewrite ?(proj1 (Hdiv _)), ?(proj2 (Hdiv _)); reflexivity.
Qed.

Lemma shr_1_rec (n d : Z) : 0 <= n -> 0 < d -> shr_1 (register n d) = register n (2 * d).
Proof.
  intros Hn Hd. unfold register.
  assert (Hq : 0 <= n / d) by (apply Z.div_pos; lia).
  rewrite shr_1_of_loc by exact Hq.
  assert (Ediv : n / (2 * d) = n / d / 2)
    by (rewrite Z.div_div by lia; f_equal; lia).
  assert (Emod : n mod (2 * d) = n mod d + d * ((n / d) mod 2))
    by (rewrite (Z.mul_comm 2 d); apply Z.rem_mul_r; lia).
  pose proof (Z.mod_pos_bound n d Hd) as Br.
  pose proof (Z.mod_pos_bound (n / d) 2 ltac:(lia)) as Bq.
  rewrite Ediv. unfold loc at 2. rewrite Emod.
  rewrite Zodd_mod. unfold loc.
  destruct (Z.eqb_spec ((n / d) mod 2) 1) as [Hodd | Heven].
  - (* odd integer part: the fractional part is at least 1/2 *)
    rewrite Hodd.
    destruct (Z.eqb_spec (n mod d) 0) as [Hr | Hr].
    + rewrite Hr. replace (0 + d * 1) with d by lia.
      destruct (Z.eqb_spec d 0); [lia | ].
      replace (2 * d ?= 2 * d) with Eq by (symmetry; apply Z.compare_refl).
      reflexivity.
    + destruct (Z.eqb_spec (n mod d + d * 1) 0); [lia | ].
      replace (2 * (n mod d + d * 1) ?= 2 * d) with Gt
        by (symmetry; apply Z.compare_gt_iff; lia).
      destruct (2 * (n mod d) ?= d); reflexivity.
  - assert (Hzero : (n / d) mod 2 = 0) by lia. rewrite Hzero.
    replace (n mod d + d * 0) with (n mod d) by lia.
    destruct (Z.eqb_spec (n mod d) 0) as [Hr | Hr]; [reflexivity | ].
    replace (2 * (n mod d) ?= 2 * d) with Lt
      by (symmetry; apply Z.compare_lt_iff; lia).
    destruct (2 * (n mod d) ?= d); reflexivity.
Qed.

Lemma iter_shr_1_rec (k : positive) (n d : Z) :
  0 <= n -> 0 < d -> iter_pos shr_1 k (register n d) = register n (d * 2 ^ Z.pos k).
Proof.
  intros Hn. revert d. induction k as [k IH | k IH | ]; intros d Hd; cbn [iter_pos].
  - pose proof (Z.pow_pos_nonneg 2 (Z.pos k) ltac:(lia) ltac:(lia)) as Hp.
    rewrite shr_1_rec, IH, IH by nia. f_equal.
    replace (Z.pos k~1) with (1 + Z.pos k + Z.pos k) by lia.
    rewrite !Z.pow_add_r by lia. change (2 ^ 1) with 2. ring.
  - pose proof (Z.pow_pos_nonneg 2 (Z.pos k) ltac:(lia) ltac:(lia)) as Hp.
    rewrite IH, IH by nia. f_equal.
    replace (Z.pos k~0) with (Z.pos k + Z.pos k) by lia.
    rewrite Z.pow_add_r by lia. ring.
  - rewrite shr_1_rec by lia. f_equal. change (2 ^ 1) with 2. ring.
Qed.

Lemma round_rec (n d : Z) :
  0 < d ->
  round_nearest_even (shr_m (register n d)) (loc_of_shr_record (register n d))
  = round_half_even n d.
Proof.
  intros Hd. unfold register, loc, round_half_even.
  destruct (Z.eqb_spec (n mod d) 0) as [Hr | Hr].
  - rewrite Hr. cbn [shr_record_of_loc shr_m loc_of_shr_record round_nearest_even].
    replace (2 * 0 ?= d) with Lt by (symmetry; apply Z.compare_lt_iff; lia).
    reflexivity.
  - destruct (2 * (n mod d) ?= d); reflexivity.
Qed.

Lemma shr_fexp_rec (n d e : Z) :
  0 <= n -> 0 < d ->
  e <= fexp prec emax (Zdigits2 (n / d) + e) ->
  shr_fexp prec emax (n / d) e (loc n d)
  = (register n (d * 2 ^ (fexp prec emax (Zdigits2 (n / d) + e) - e)),
     fexp prec emax (Zdigits2 (n / d) + e)).
Proof.
  intros Hn Hd He. unfold shr_fexp. fold (register n d). unfold shr.
  set (E := fexp prec emax (Zdigits2 (n / d) + e)) in *.
  destruct (E - e) as [ | p | p] eqn:Ep; try lia.
  - rewrite Z.mul_1_r. f_equal. lia.
  - rewrite iter_shr_1_rec by assumption. f_equal. lia.
Qed.

Lemma rounded_mantissa_bounds (n d e : Z) :
  0 <= n -> 0 < d -> e <= rounded_exponent n d e ->
  0 <= rounded_mantissa n d e <= 2 ^ 53
  /\ (-1074 < rounded_exponent n d e -> 2 ^ 52 <= rounded_mantissa n d e).
Proof.
  intros Hn Hd He. unfold rounded_mantissa. unfold rounded_exponent in *.
  rewrite fexp64 in *.
  set (m := n / d) in *. set (dm := Zdigits2 m) in *.
  set (E := Z.max (dm + e - 53) (-1074)) in *.
  assert (Hm : 0 <= m) by (apply Z.div_pos; lia).
  pose proof (Zdigits2_upper m Hm) as Hup. fold dm in Hup.
  pose proof (Zdigits2_nonneg m) as Hdm. fold dm in Hdm.
  pose proof (Z.div_mod n d ltac:(lia)) as Edm.
  pose proof (Z.mod_pos_bound n d Hd) as Bdm. fold m in Edm.
  pose proof (Z.pow_pos_nonneg 2 (E - e) ltac:(lia) ltac:(lia)) as Hp.
  split.
  - apply round_half_even_bounds; [nia | ]. split; [nia | ].
    assert (Hpow : 2 ^ dm <= 2 ^ 53 * 2 ^ (E - e)).
    { rewrite <- Z.pow_add_r by lia. apply Z.pow_le_mono_r; lia. }
    nia.
  - intros HE.
    assert (HEe : E - e = dm - 53) by lia.
    assert (Hmpos : 0 < m).
    { destruct (Z.eq_dec m 0) as [E0 | ]; [ | lia].
      unfold dm in HEe. rewrite E0 in HEe. cbn in HEe. lia. }
    pose proof (Zdigits2_bounds m Hmpos) as [Hlo _]. fold dm in Hlo.
    apply (round_half_even_bounds n (d * 2 ^ (E - e)) (2 ^ 52) (n + 1)); [nia | ].
    assert (Hpow : 2 ^ 52 * 2 ^ (E - e) = 2 ^ (dm - 1)).
    { rewrite <- Z.pow_add_r by lia. f_equal. lia. }
    split; nia.
Qed.

(** What [binary_round_aux] returns, when its exponent is not above the
    canonical one. *)
Lemma binary_round_aux_rec (s : bool) (n d e : Z) :
  0 <= n -> 0 < d -> e <= rounded_exponent n d e ->
  binary_round_aux prec emax s (n / d) e (loc n d)
  = let m1 := rounded_mantissa n d e in
    let E := rounded_exponent n d e in
    if m1 =? 0 then S754_zero s
    else if m1 <? 2 ^ 53
         then if E <=? 971 then S754_finite s (Z.to_pos m1) E else S754_infinity s
         else if E + 1 <=? 971 then S754_finite s (Z.to_pos (2 ^ 52)) (E + 1)
              else S754_infinity s.
Proof.
  intros Hn Hd He.
  destruct (rounded_mantissa_bounds n d e Hn Hd He) as [[Hlo Hhi] Hnorm].
  unfold binary_round_aux. fold (rounded_exponent n d e) in *.
  unfold rounded_exponent in He. rewrite shr_fexp_rec by assumption.
  fold (rounded_exponent n d e) in *.
  pose proof (Z.pow_pos_nonneg 2 (rounded_exponent n d e - e) ltac:(lia) ltac:(lia)) as Hp.
  rewrite round_rec by nia. fold (rounded_mantissa n d e).
  set (m1 := rounded_mantissa n d e) in *. set (E := rounded_exponent n d e) in *.
  assert (HE : -1074 <= E) by (unfold E, rounded_exponent; rewrite fexp64; lia).
  cbv zeta. unfold shr_fexp, shr. rewrite fexp64.
  destruct (Z.eqb_spec m1 0) as [E0 | Hne].
  - rewrite E0. cbn [Zdigits2].
    destruct (Z.max (0 + E - 53) (-1074) - E) as [ | p | p] eqn:Es; try lia; reflexivity.
  - destruct (Z.ltb_spec m1 (2 ^ 53)) as [Hlt | Hge].
    + assert (Hd1 : Zdigits2 m1 <= 53).
      { destruct (Z_lt_le_dec 53 (Zdigits2 m1)) as [Hbig | ]; [exfalso | assumption].
        pose proof (Zdigits2_bounds m1 ltac:(lia)) as [Dlo _].
        assert (2 ^ 53 <= 2 ^ (Zdigits2 m1 - 1)) by (apply Z.pow_le_mono_r; lia). lia. }
      destruct (Z.max (Zdigits2 m1 + E - 53) (-1074) - E) as [ | p | p] eqn:Es; try lia;
        cbn [shr_record_of_loc shr_m];
        (destruct m1 as [ | q | q]; [lia | | lia]); reflexivity.
    + assert (Em : m1 = 2 ^ 53) by lia. rewrite Em.
      change (Zdigits2 (2 ^ 53)) with 54.
      replace (Z.max (54 + E - 53) (-1074) - E) with 1 by lia.
      cbn [iter_pos]. change (2 ^ 53) with (Z.pos (2 ^ 53)%positive).
      reflexivity.
Qed.

(** ** The ordinal of a rounded float *)

Lemma top_split : top = 2 ^ 53 * 2 ^ 2045.
Proof. reflexivity. Qed.

Lemma ord_binary_round_aux (s : bool) (n d e : Z) :
  0 <= n -> 0 < d -> e <= rounded_exponent n d e ->
  ord (binary_round_aux prec emax s (n / d) e (loc n d))
  = cond_Zopp s (clamp (rounded_mantissa n d e
                        * 2 ^ (rounded_exponent n d e + 1074))).
Proof.
  intros Hn Hd He. rewrite binary_round_aux_rec by assumption. cbv zeta.
  destruct (rounded_mantissa_bounds n d e Hn Hd He) as [[Hlo Hhi] Hnorm].
  set (m1 := rounded_mantissa n d e) in *. set (E := rounded_exponent n d e) in *.
  assert (HE : -1074 <= E) by (unfold E, rounded_exponent; rewrite fexp64; lia).
  pose proof (Z.pow_pos_nonneg 2 (E + 1074) ltac:(lia) ltac:(lia)) as Hp.
  unfold clamp. rewrite top_split.
  set (T := 2 ^ 2045). assert (HT : 0 < T) by (apply Z.pow_pos_nonneg; lia).
  assert (Hsmall : E <= 971 -> 2 ^ (E + 1074) <= T)
    by (intros; apply Z.pow_le_mono_r; lia).
  assert (Hbig : 971 < E -> 2 * T <= 2 ^ (E + 1074)).
  { intros. change (2 * T) with (2 ^ 2046). apply Z.pow_le_mono_r; lia. }
  assert (Hhalf : 2 ^ 53 = 2 * 2 ^ 52) by reflexivity.
  destruct (Z.eqb_spec m1 0) as [E0 | Hne].
  - rewrite E0. cbn [ord]. rewrite Z.mul_0_l, Z.min_l by nia. destruct s; reflexivity.
  - destruct (Z.ltb_spec m1 (2 ^ 53)) as [Hlt | Hge].
    + destruct (Z.leb_spec E 971) as [Hle | Hgt]; cbn [ord]; f_equal.
      * rewrite Z2Pos.id by lia. rewrite Z.min_l by nia. reflexivity.
      * rewrite Z.min_r; [reflexivity | ].
        specialize (Hnorm ltac:(lia)). specialize (Hbig Hgt). nia.
    + assert (Em : m1 = 2 ^ 53) by lia.
      destruct (Z.leb_spec (E + 1) 971) as [Hle | Hgt]; cbn [ord]; f_equal.
      * rewrite Z2Pos.id by (apply Z.pow_pos_nonneg; lia).
        replace (E + 1 + 1074) with (1 + (E + 1074)) by lia.
        rewrite Z.pow_add_r by lia. change (2 ^ 1) with 2.
        assert (2 * 2 ^ (E + 1074) <= T).
        { replace (2 * 2 ^ (E + 1074)) with (2 ^ (E + 1075))
            by (replace (E + 1075) with (1 + (E + 1074)) by lia;
                rewrite Z.pow_add_r by lia; reflexivity).
          apply Z.pow_le_mono_r; lia. }
        rewrite Z.min_l by nia. nia.
      * rewrite Z.min_r; [reflexivity | ].
        assert (T <= 2 ^ (E + 1074)) by (apply Z.pow_le_mono_r; lia). nia.
Qed.

Lemma Zdigits2_shift_up (a b t : Z) :
  0 < b -> 0 <= t -> 0 < a / b ->
  Zdigits2 (a * 2 ^ t / b) = Zdigits2 (a / b) + t.
Proof.
  intros Hb Ht Hq.
  pose proof (Zdigits2_bounds (a / b) Hq) as [Hlo Hhi].
  set (k := Zdigits2 (a / b)) in *.
  assert (Hk : 0 < k).
  { destruct (Z_lt_le_dec 0 k) as [ | Hle]; [assumption | ].
    assert (2 ^ k <= 2 ^ 0) by (apply Z.pow_le_mono_r; lia).
    change (2 ^ 0) with 1 in *. lia. }
  pose proof (Z.pow_pos_nonneg 2 t ltac:(lia) Ht) as Hp.
  pose proof (Z.div_mod a b ltac:(lia)) as Ea.
  pose proof (Z.mod_pos_bound a b Hb) as Ba.
  set (q := a / b) in *. set (r := a mod b) in *.
  assert (Elo : 2 ^ (k + t - 1) = 2 ^ (k - 1) * 2 ^ t).
  { rewrite <- Z.pow_add_r by lia. f_equal. lia. }
  assert (Ehi : 2 ^ (k + t) = 2 ^ k * 2 ^ t) by (apply Z.pow_add_r; lia).
  assert (Hq1 : q * 2 ^ t <= a * 2 ^ t / b).
  { apply Z.div_le_lower_bound; [lia | nia]. }
  assert (Hq2 : a * 2 ^ t / b < (q + 1) * 2 ^ t).
  { apply Z.div_lt_upper_bound; [lia | nia]. }
  apply Zdigits2_unique; [rewrite Elo, Ehi; nia | nia].
Qed.

Lemma Zdigits2_shift_down (q s : Z) :
  0 <= q -> 0 <= s ->
  Zdigits2 (q / 2 ^ s) = Z.max (Zdigits2 q - s) 0.
Proof.
  intros Hq Hs.
  pose proof (Z.pow_pos_nonneg 2 s ltac:(lia) Hs) as Hp.
  destruct (Z.eq_dec q 0) as [E0 | Hne].
  { subst q. rewrite Z.div_0_l by lia. cbn. lia. }
  pose proof (Zdigits2_bounds q ltac:(lia)) as [Hlo Hhi].
  set (k := Zdigits2 q) in *.
  assert (Hk : 0 < k).
  { destruct (Z_lt_le_dec 0 k) as [ | Hle]; [assumption | ].
    assert (2 ^ k <= 2 ^ 0) by (apply Z.pow_le_mono_r; lia).
    change (2 ^ 0) with 1 in *. lia. }
  destruct (Z_lt_le_dec s k) as [Hlt | Hge].
  - rewrite Z.max_l by lia.
    assert (Elo : 2 ^ (k - 1) = 2 ^ (k - s - 1) * 2 ^ s).
    { rewrite <- Z.pow_add_r by lia. f_equal. lia. }
    assert (Ehi : 2 ^ k = 2 ^ (k - s) * 2 ^ s).
    { rewrite <- Z.pow_add_r by lia. f_equal. lia. }
    pose proof (Z.pow_pos_nonneg 2 (k - s - 1) ltac:(lia) ltac:(lia)) as Hp1.
    assert (H1 : 2 ^ (k - s - 1) <= q / 2 ^ s).
    { apply Z.div_le_lower_bound; [lia | nia]. }
    assert (H2 : q / 2 ^ s < 2 ^ (k - s)).
    { apply Z.div_lt_upper_bound; [lia | nia]. }
    apply Zdigits2_unique; lia.
  - rewrite Z.max_r by lia.
    assert (2 ^ k <= 2 ^ s) by (apply Z.pow_le_mono_r; lia).
    rewrite Z.div_small by lia. reflexivity.
Qed.

Lemma nearest_rounded (n d e : Z) :
  0 <= n -> 0 < d -> e <= rounded_exponent n d e ->
  nearest (scaled_num n e) (scaled_den d e)
  = rounded_mantissa n d e * 2 ^ (rounded_exponent n d e + 1074).
Proof.
  intros Hn Hd He. unfold nearest, rounded_mantissa, scaled_num, scaled_den.
  unfold rounded_exponent in *. rewrite fexp64 in *.
  set (q := n / d) in *. set (k := Zdigits2 q) in *.
  assert (Hq : 0 <= q) by (apply Z.div_pos; lia).
  pose proof (Zdigits2_nonneg q) as Hk. fold k in Hk.
  set (E := Z.max (k + e - 53) (-1074)) in *.
  assert (EF : ulp_exponent (n * 2 ^ Z.max (e + 1074) 0
                             / (d * 2 ^ Z.max (- (e + 1074)) 0)) = E + 1074).
  { unfold ulp_exponent.
    destruct (Z_lt_le_dec (e + 1074) 0) as [Hneg | Hpos].
    - rewrite (Z.max_r (e + 1074)), (Z.max_l (- (e + 1074))) by lia.
      change (2 ^ 0) with 1. rewrite Z.mul_1_r.
      rewrite <- Z.div_div by (try apply Z.pow_pos_nonneg; lia). fold q.
      rewrite Zdigits2_shift_down by lia. fold k. lia.
    - rewrite (Z.max_l (e + 1074)), (Z.max_r (- (e + 1074))) by lia.
      change (2 ^ 0) with 1. rewrite Z.mul_1_r.
      destruct (Z.eq_dec q 0) as [E0 | Hne].
      + assert (Ek : k = 0) by (unfold k; rewrite E0; reflexivity).
        assert (Ee : e + 1074 = 0) by lia.
        rewrite Ee. change (2 ^ 0) with 1. rewrite Z.mul_1_r. fold q.
        rewrite E0. cbn. lia.
      + rewrite Zdigits2_shift_up by (fold q; lia). fold q k. lia. }
  rewrite EF. f_equal.
  pose proof (Z.pow_pos_nonneg 2 (E - e) ltac:(lia) ltac:(lia)) as Hp1.
  pose proof (Z.pow_pos_nonneg 2 (E + 1074) ltac:(lia) ltac:(lia)) as Hp2.
  destruct (Z_lt_le_dec (e + 1074) 0) as [Hneg | Hpos].
  - rewrite (Z.max_r (e + 1074)), (Z.max_l (- (e + 1074))) by lia.
    change (2 ^ 0) with 1. rewrite Z.mul_1_r.
    f_equal. rewrite <- Z.mul_assoc, <- Z.pow_add_r by lia. do 2 f_equal. lia.
  - rewrite (Z.max_l (e + 1074)), (Z.max_r (- (e + 1074))) by lia.
    change (2 ^ 0) with 1. rewrite Z.mul_1_r.
    pose proof (Z.pow_pos_nonneg 2 (e + 1074) ltac:(lia) ltac:(lia)) as Hp3.
    apply round_half_even_ratio; [nia | nia | ].
    replace (E + 1074) with ((E - e) + (e + 1074)) by lia.
    rewrite (Z.pow_add_r 2 (E - e) (e + 1074)) by lia. ring.
Qed.

(** The float that [binary_round_aux] returns, as an ordinal. *)
Lemma ord_binary_round_aux_nearest (s : bool) (n d e : Z) :
  0 <= n -> 0 < d -> e <= rounded_exponent n d e ->
  ord (binary_round_aux prec emax s (n / d) e (loc n d))
  = cond_Zopp s (clamp (nearest (scaled_num n e) (scaled_den d e))).
Proof.
  intros Hn Hd He. rewrite nearest_rounded by assumption.
  apply ord_binary_round_aux; assumption.
Qed.

Lemma top_pos : 0 < top.
Proof. reflexivity. Qed.

Lemma nearest_ratio (N1 D1 N2 D2 : Z) :
  0 <= N1 -> 0 < D1 -> 0 < D2 -> N1 * D2 = N2 * D1 ->
  nearest N1 D1 = nearest N2 D2.
Proof.
  intros HN HD1 HD2 E. assert (HN2 : 0 <= N2) by nia.
  apply Z.le_antisymm; apply nearest_mono; lia.
Qed.

Lemma nearest_0 (D : Z) : 0 < D -> nearest 0 D = 0.
Proof.
  intros HD. unfold nearest. rewrite Z.div_0_l by lia.
  change (ulp_exponent 0) with 0. change (2 ^ 0) with 1.
  rewrite !Z.mul_1_r.
  pose proof (round_half_even_bounds 0 D 0 0 HD ltac:(lia)). lia.
Qed.

Lemma nearest_nonneg (N D : Z) : 0 <= N -> 0 < D -> 0 <= nearest N D.
Proof.
  intros HN HD. rewrite <- (nearest_0 D HD). apply nearest_mono; lia.
Qed.

Lemma to_nearest_0 (D : Z) : 0 < D -> to_nearest 0 D = 0.
Proof.
  intros HD. unfold to_nearest, clamp. cbn [Z.ltb Z.compare].
  rewrite nearest_0 by assumption. reflexivity.
Qed.

Lemma to_nearest_mono (N1 D1 N2 D2 : Z) :
  0 < D1 -> 0 < D2 -> N1 * D2 <= N2 * D1 ->
  to_nearest N1 D1 <= to_nearest N2 D2.
Proof.
  intros HD1 HD2 Hle. unfold to_nearest, clamp. pose proof top_pos as Ht.
  destruct (Z.ltb_spec N1 0) as [Hn1 | Hn1]; destruct (Z.ltb_spec N2 0) as [Hn2 | Hn2].
  - assert (nearest (- N2) D2 <= nearest (- N1) D1) by (apply nearest_mono; nia). lia.
  - pose proof (nearest_nonneg (- N1) D1 ltac:(lia) HD1).
    pose proof (nearest_nonneg N2 D2 Hn2 HD2). lia.
  - nia.
  - assert (nearest N1 D1 <= nearest N2 D2) by (apply nearest_mono; nia). lia.
Qed.

Lemma to_nearest_ratio (N1 D1 N2 D2 : Z) :
  0 < D1 -> 0 < D2 -> N1 * D2 = N2 * D1 ->
  to_nearest N1 D1 = to_nearest N2 D2.
Proof. intros HD1 HD2 E. apply Z.le_antisymm; apply to_nearest_mono; lia. Qed.

Lemma to_nearest_signed (s : bool) (N D : Z) :
  0 <= N -> 0 < D ->
  cond_Zopp s (clamp (nearest N D)) = to_nearest (cond_Zopp s N) D.
Proof.
  intros HN HD. unfold to_nearest. destruct s; cbn [cond_Zopp].
  - destruct (Z.ltb_spec (- N) 0) as [Hn | Hn].
    + rewrite Z.opp_involutive. reflexivity.
    + assert (E : N = 0) by lia. subst N. cbn [Z.opp].
      rewrite nearest_0 by assumption. reflexivity.
  - destruct (Z.ltb_spec N 0); [lia | reflexivity].
Qed.

(** What [binary_round_aux] returns. *)
Lemma ord_round (s : bool) (n d e : Z) :
  0 <= n -> 0 < d -> e <= rounded_exponent n d e ->
  is_number (binary_round_aux prec emax s (n / d) e (loc n d)) = true
  /\ ord (binary_round_aux prec emax s (n / d) e (loc n d))
     = to_nearest (cond_Zopp s (scaled_num n e)) (scaled_den d e).
Proof.
  intros Hn Hd He. split.
  - rewrite binary_round_aux_rec by assumption. cbv zeta.
    repeat match goal with |- context [if ?b then _ else _] => destruct b end;
      reflexivity.
  - rewrite ord_binary_round_aux_nearest by assumption.
    apply to_nearest_signed.
    + unfold scaled_num. apply Z.mul_nonneg_nonneg; [lia | ].
      apply Z.pow_nonneg. lia.
    + unfold scaled_den. apply Z.mul_pos_pos; [lia | ].
      apply Z.pow_pos_nonneg; lia.
Qed.

Lemma ord_round_exact (s : bool) (m : positive) (e : Z) :
  e <= rounded_exponent (Z.pos m) 1 e ->
  is_number (binary_round_aux prec emax s (Z.pos m) e loc_Exact) = true
  /\ ord (binary_round_aux prec emax s (Z.pos m) e loc_Exact)
     = to_nearest (cond_Zopp s (scaled_num (Z.pos m) e)) (scaled_den 1 e).
Proof.
  intros He.
  pose proof (ord_round s (Z.pos m) 1 e ltac:(lia) ltac:(lia) He) as H.
  unfold loc in H. rewrite Z.mod_1_r, Z.div_1_r in H. exact H.
Qed.

(** ** Valid floats *)

(** A valid finite float: its mantissa has at most 53 bits, exactly 53 above
    the least exponent. *)
Lemma bounded_facts (m : positive) (e : Z) :
  bounded prec emax m e = true ->
  -1074 <= e <= 971
  /\ Z.pos m < 2 ^ 53
  /\ (-1074 < e -> 2 ^ 52 <= Z.pos m)
  /\ Z.max (Z.pos (digits2_pos m) + e - 53) (-1074) = e.
Proof.
  intros Hb. pose proof (canonical_exponent m e Hb) as Hc.
  unfold bounded in Hb. apply andb_prop in Hb. destruct Hb as [_ Hb].
  apply Z.leb_le in Hb. change (emax - prec) with 971 in Hb.
  pose proof (digits2_pos_bounds m) as [Hlo Hhi].
  set (k := Z.pos (digits2_pos m)) in *.
  assert (Hk : 0 < k) by (unfold k; lia).
  split; [lia | ]. split; [ | split; [ | exact Hc]].
  - assert (2 ^ k <= 2 ^ 53) by (apply Z.pow_le_mono_r; lia). lia.
  - intros He. assert (Ek : k = 53) by lia. rewrite Ek in Hlo. exact Hlo.
Qed.

Lemma ord_finite_bounds (s : bool) (m : positive) (e : Z) :
  bounded prec emax m e = true ->
  0 < Z.pos m * 2 ^ (e + 1074) < top.
Proof.
  intros Hb. destruct (bounded_facts m e Hb) as (He & Hm & _ & _).
  pose proof (Z.pow_pos_nonneg 2 (e + 1074) ltac:(lia) ltac:(lia)) as Hp.
  assert (Hle : 2 ^ (e + 1074) <= 2 ^ 2045) by (apply Z.pow_le_mono_r; lia).
  rewrite top_split. split; [lia | ].
  set (T := 2 ^ 2045) in *. nia.
Qed.

Lemma ord_bounds (x : spec_float) :
  valid_binary x = true -> is_finite x = true -> - top < ord x < top.
Proof.
  intros Hv Hf. pose proof top_pos.
  destruct x as [s | s | | s m e]; try discriminate; cbn [ord]; try lia.
  pose proof (ord_finite_bounds s m e Hv). destruct s; cbn [cond_Zopp]; lia.
Qed.

(** A float is the float nearest to itself. *)
Lemma nearest_representable (m : positive) (e : Z) :
  bounded prec emax m e = true ->
  nearest (Z.pos m * 2 ^ (e + 1074)) 1 = Z.pos m * 2 ^ (e + 1074).
Proof.
  intros Hb. destruct (bounded_facts m e Hb) as (He & Hm & _ & Hc).
  unfold nearest, ulp_exponent.
  pose proof (Zdigits2_shift_up (Z.pos m) 1 (e + 1074) ltac:(lia) ltac:(lia)) as Hd.
  rewrite !Z.div_1_r in *. rewrite Hd by lia.
  change (Zdigits2 (Z.pos m)) with (Z.pos (digits2_pos m)).
  replace (Z.max (Z.pos (digits2_pos m) + (e + 1074) - 53) 0) with (e + 1074) by lia.
  rewrite Z.mul_1_l. f_equal.
  pose proof (Z.pow_pos_nonneg 2 (e + 1074) ltac:(lia) ltac:(lia)) as Hp.
  pose proof (round_half_even_bounds (Z.pos m * 2 ^ (e + 1074)) (2 ^ (e + 1074))
                (Z.pos m) (Z.pos m) Hp ltac:(lia)). lia.
Qed.

Lemma to_nearest_representable (x : spec_float) :
  valid_binary x = true -> is_finite x = true ->
  to_nearest (ord x) 1 = ord x /\ to_nearest (- ord x) 1 = - ord x.
Proof.
  intros Hv Hf.
  destruct x as [s | s | | s m e]; try discriminate; cbn [ord].
  - split; apply to_nearest_0; lia.
  - pose proof (ord_finite_bounds s m e Hv) as Hb.
    pose proof (nearest_representable m e Hv) as Hn.
    unfold to_nearest, clamp.
    destruct s; cbn [cond_Zopp]; rewrite ?Z.opp_involutive; split;
      match goal with
      | |- context [?a <? 0] => destruct (Z.ltb_spec a 0); try lia
      end; rewrite ?Z.opp_involutive, Hn; lia.
Qed.

(** ** Multiplication *)

Lemma digits2_mul (mx my : positive) :
  Z.pos (digits2_pos mx) + Z.pos (digits2_pos my) - 1
  <= Z.pos (digits2_pos (mx * my)).
Proof.
  pose proof (digits2_pos_bounds mx) as [Hx _].
  pose proof (digits2_pos_bounds my) as [Hy _].
  pose proof (digits2_pos_bounds (mx * my)) as [_ Hxy].
  set (kx := Z.pos (digits2_pos mx)) in *. set (ky := Z.pos (digits2_pos my)) in *.
  set (k := Z.pos (digits2_pos (mx * my))) in *.
  assert (Hkx : 0 < kx) by (unfold kx; lia). assert (Hky : 0 < ky) by (unfold ky; lia).
  destruct (Z_lt_le_dec k (kx + ky - 1)) as [Hlt | ]; [exfalso | assumption].
  assert (Hp : 2 ^ k <= 2 ^ (kx - 1 + (ky - 1))) by (apply Z.pow_le_mono_r; unfold k; lia).
  rewrite Z.pow_add_r in Hp by lia.
  pose proof (Z.pow_pos_nonneg 2 (kx - 1) ltac:(lia) ltac:(lia)).
  pose proof (Z.pow_pos_nonneg 2 (ky - 1) ltac:(lia) ltac:(lia)).
  rewrite Pos2Z.inj_mul in Hxy. nia.
Qed.

Lemma pow2_split (t : Z) :
  2 ^ Z.max t 0 = 2 ^ Z.max (- t) 0 * 2 ^ t \/ t < 0.
Proof.
  destruct (Z_lt_le_dec t 0) as [ | Ht]; [right; assumption | left].
  rewrite (Z.max_l t), (Z.max_r (- t)) by lia. change (2 ^ 0) with 1. lia.
Qed.

Lemma ord_SFmul (x y : spec_float) :
  valid_binary x = true -> valid_binary y = true ->
  is_finite x = true -> is_finite y = true ->
  is_number (SFmul prec emax x y) = true
  /\ ord (SFmul prec emax x y) = to_nearest (ord x * ord y) (2 ^ 1074).
Proof.
  intros Hvx Hvy Hfx Hfy.
  assert (H0 : to_nearest 0 (2 ^ 1074) = 0) by (apply to_nearest_0; reflexivity).
  destruct x as [sx | sx | | sx mx ex]; try discriminate;
    destruct y as [sy | sy | | sy my ey]; try discriminate;
    cbn [SFmul ord]; rewrite ?Z.mul_0_l, ?Z.mul_0_r;
    try (split; [reflexivity | symmetry; exact H0]).
  cbn [valid_binary] in Hvx, Hvy.
  destruct (bounded_facts mx ex Hvx) as (Hex & Hmx & _ & Hcx).
  destruct (bounded_facts my ey Hvy) as (Hey & Hmy & _ & Hcy).
  pose proof (digits2_mul mx my) as Hd.
  assert (He : ex + ey <= rounded_exponent (Z.pos (mx * my)) 1 (ex + ey)).
  { unfold rounded_exponent. rewrite fexp64, Z.div_1_r.
    change (Zdigits2 (Z.pos (mx * my))) with (Z.pos (digits2_pos (mx * my))). lia. }
  destruct (ord_round_exact (xorb sx sy) (mx * my) (ex + ey) He) as [Hnum Hord].
  split; [exact Hnum | ]. rewrite Hord.
  unfold scaled_num, scaled_den.
  set (t := ex + ey + 1074).
  assert (Hpd : 0 < 2 ^ Z.max (- t) 0) by (apply Z.pow_pos_nonneg; lia).
  apply to_nearest_ratio; [lia | reflexivity | ].
  assert (Epow : 2 ^ Z.max t 0 * 2 ^ 1074
                 = 2 ^ (ex + 1074) * 2 ^ (ey + 1074) * 2 ^ Z.max (- t) 0).
  { rewrite <- !Z.pow_add_r by lia. f_equal. unfold t. lia. }
  rewrite Pos2Z.inj_mul.
  destruct sx, sy; cbn [xorb cond_Zopp]; nia.
Qed.

(** ** Addition and subtraction *)

Lemma ord_binary_round (s : bool) (m : positive) (e : Z) :
  -1074 <= e ->
  is_number (binary_round prec emax s m e) = true
  /\ ord (binary_round prec emax s m e)
     = to_nearest (cond_Zopp s (Z.pos m * 2 ^ (e + 1074))) 1.
Proof.
  intros He. unfold binary_round.
  set (E := fexp prec emax (Z.pos (digits2_pos m) + e)).
  pose proof (shl_align_exponent m e E) as Hs.
  pose proof (shl_align_mantissa m e E) as [Hm Hdig].
  destruct (shl_align m e E) as [mz ez]. cbn [fst snd] in *.
  assert (HE : -1074 <= E) by (unfold E; rewrite fexp64; lia).
  assert (Hr : ez <= rounded_exponent (Z.pos mz) 1 ez).
  { unfold rounded_exponent. rewrite Z.div_1_r.
    change (Zdigits2 (Z.pos mz)) with (Z.pos (digits2_pos mz)).
    rewrite Hdig.
    replace (Z.pos (digits2_pos m) + (e - Z.min e E) + ez)
      with (Z.pos (digits2_pos m) + e) by lia.
    fold E. lia. }
  destruct (ord_round_exact s mz ez Hr) as [Hnum Hord].
  split; [exact Hnum | ]. rewrite Hord. unfold scaled_num, scaled_den.
  rewrite (Z.max_l (ez + 1074)), (Z.max_r (- (ez + 1074))) by lia.
  f_equal. f_equal. rewrite Hm, <- Z.mul_assoc, <- Z.pow_add_r by lia.
  do 2 f_equal. lia.
Qed.

Lemma ord_binary_normalize (z e : Z) (szero : bool) :
  -1074 <= e ->
  is_number (binary_normalize prec emax z e szero) = true
  /\ ord (binary_normalize prec emax z e szero)
     = to_nearest (z * 2 ^ (e + 1074)) 1.
Proof.
  intros He. destruct z as [ | m | m]; cbn [binary_normalize].
  - split; [reflexivity | ]. cbn [ord]. rewrite Z.mul_0_l.
    symmetry. apply to_nearest_0. lia.
  - apply ord_binary_round. exact He.
  - destruct (ord_binary_round true m e He) as [Hnum Hord].
    split; [exact Hnum | ]. rewrite Hord. cbn [cond_Zopp]. f_equal. lia.
Qed.

Lemma ord_aligned (s : bool) (m : positive) (e ez : Z) :
  -1074 <= ez -> ez <= e ->
  cond_Zopp s (Z.pos (fst (shl_align m e ez))) * 2 ^ (ez + 1074)
  = cond_Zopp s (Z.pos m * 2 ^ (e + 1074)).
Proof.
  intros Hz He. destruct (shl_align_mantissa m e ez) as [Hm _].
  rewrite Hm, Z.min_r by lia.
  replace (e + 1074) with ((e - ez) + (ez + 1074)) by lia.
  rewrite (Z.pow_add_r 2 (e - ez) (ez + 1074)) by lia.
  destruct s; cbn [cond_Zopp]; ring.
Qed.

Lemma ord_SFsub (x y : spec_float) :
  valid_binary x = true -> valid_binary y = true ->
  is_finite x = true -> is_finite y = true ->
  is_number (SFsub prec emax x y) = true
  /\ ord (SFsub prec emax x y) = to_nearest (ord x - ord y) 1.
Proof.
  intros Hvx Hvy Hfx Hfy.
  pose proof (to_nearest_representable x Hvx Hfx) as [Hx _].
  pose proof (to_nearest_representable y Hvy Hfy) as [_ Hy].
  assert (H0 : to_nearest 0 1 = 0) by (apply to_nearest_0; lia).
  destruct x as [sx | sx | | sx mx ex]; try discriminate;
    destruct y as [sy | sy | | sy my ey]; try discriminate.
  - split; [destruct sx, sy; reflexivity | ].
    transitivity 0; [destruct sx, sy; reflexivity | symmetry; exact H0].
  - split; [reflexivity | ]. cbn [SFsub]. cbn [ord] in *.
    rewrite Z.sub_0_l, Hy. destruct sy; cbn [negb cond_Zopp]; lia.
  - split; [reflexivity | ]. cbn [SFsub]. cbn [ord] in *.
    rewrite Z.sub_0_r, Hx. reflexivity.
  - cbn [SFsub]. cbv zeta. cbn [valid_binary] in Hvx, Hvy.
    destruct (bounded_facts mx ex Hvx) as (Hex & _).
    destruct (bounded_facts my ey Hvy) as (Hey & _).
    set (ez := Z.min ex ey).
    destruct (ord_binary_normalize
                (cond_Zopp sx (Z.pos (fst (shl_align mx ex ez)))
                 - cond_Zopp sy (Z.pos (fst (shl_align my ey ez)))) ez false
                ltac:(lia)) as [Hnum Hord].
    split; [exact Hnum | ]. rewrite Hord. f_equal.
    rewrite Z.mul_sub_distr_r, !ord_aligned by lia. reflexivity.
Qed.

Lemma ord_SFadd (x y : spec_float) :
  valid_binary x = true -> valid_binary y = true ->
  is_finite x = true -> is_finite y = true ->
  is_number (SFadd prec emax x y) = true
  /\ ord (SFadd prec emax x y) = to_nearest (ord x + ord y) 1.
Proof.
  intros Hvx Hvy Hfx Hfy.
  pose proof (to_nearest_representable x Hvx Hfx) as [Hx _].
  pose proof (to_nearest_representable y Hvy Hfy) as [Hy _].
  assert (H0 : to_nearest 0 1 = 0) by (apply to_nearest_0; lia).
  destruct x as [sx | sx | | sx mx ex]; try discriminate;
    destruct y as [sy | sy | | sy my ey]; try discriminate.
  - split; [destruct sx, sy; reflexivity | ].
    transitivity 0; [destruct sx, sy; reflexivity | symmetry; exact H0].
  - split; [reflexivity | ]. cbn [SFadd]. cbn [ord] in *.
    rewrite Z.add_0_l, Hy. reflexivity.
  - split; [reflexivity | ]. cbn [SFadd]. cbn [ord] in *.
    rewrite Z.add_0_r, Hx. reflexivity.
  - cbn [SFadd]. cbv zeta. cbn [valid_binary] in Hvx, Hvy.
    destruct (bounded_facts mx ex Hvx) as (Hex & _).
    destruct (bounded_facts my ey Hvy) as (Hey & _).
    set (ez := Z.min ex ey).
    destruct (ord_binary_normalize
                (cond_Zopp sx (Z.pos (fst (shl_align mx ex ez)))
                 + cond_Zopp sy (Z.pos (fst (shl_align my ey ez)))) ez false
                ltac:(lia)) as [Hnum Hord].
    split; [exact Hnum | ]. rewrite Hord. f_equal.
    rewrite Z.mul_add_distr_r, !ord_aligned by lia. reflexivity.
Qed.

(** ** The order of the floats is the order of their ordinals *)

Lemma compare_magnitude (m1 m2 : positive) (e1 e2 : Z) :
  bounded prec emax m1 e1 = true -> bounded prec emax m2 e2 = true ->
  (Z.pos m1 * 2 ^ (e1 + 1074) ?= Z.pos m2 * 2 ^ (e2 + 1074))
  = match e1 ?= e2 with
    | Lt => Lt
    | Gt => Gt
    | Eq => Pos.compare_cont Eq m1 m2
    end.
Proof.
  intros H1 H2.
  destruct (bounded_facts m1 e1 H1) as (He1 & Hm1 & Hn1 & _).
  destruct (bounded_facts m2 e2 H2) as (He2 & Hm2 & Hn2 & _).
  pose proof (Z.pow_pos_nonneg 2 (e1 + 1074) ltac:(lia) ltac:(lia)) as Hp1.
  pose proof (Z.pow_pos_nonneg 2 (e2 + 1074) ltac:(lia) ltac:(lia)) as Hp2.
  assert (Hhalf : 2 ^ 53 = 2 * 2 ^ 52) by reflexivity.
  destruct (Z.compare_spec e1 e2) as [E | Hlt | Hgt].
  - subst e2. change (Pos.compare_cont Eq m1 m2) with (m1 ?= m2)%positive.
    destruct (Pos.compare_spec m1 m2) as [E | Hlt | Hgt].
    + subst m2. apply Z.compare_refl.
    + apply Z.compare_lt_iff. assert (Z.pos m1 < Z.pos m2) by lia. nia.
    + apply Z.compare_gt_iff. assert (Z.pos m2 < Z.pos m1) by lia. nia.
  - apply Z.compare_lt_iff.
    assert (Hs : 2 * 2 ^ (e1 + 1074) <= 2 ^ (e2 + 1074)).
    { replace (2 * 2 ^ (e1 + 1074)) with (2 ^ (e1 + 1075))
        by (replace (e1 + 1075) with (1 + (e1 + 1074)) by lia;
            rewrite Z.pow_add_r by lia; reflexivity).
      apply Z.pow_le_mono_r; lia. }
    specialize (Hn2 ltac:(lia)). nia.
  - apply Z.compare_gt_iff.
    assert (Hs : 2 * 2 ^ (e2 + 1074) <= 2 ^ (e1 + 1074)).
    { replace (2 * 2 ^ (e2 + 1074)) with (2 ^ (e2 + 1075))
        by (replace (e2 + 1075) with (1 + (e2 + 1074)) by lia;
            rewrite Z.pow_add_r by lia; reflexivity).
      apply Z.pow_le_mono_r; lia. }
    specialize (Hn1 ltac:(lia)). nia.
Qed.

Lemma SFcompare_ord (x y : spec_float) :
  valid_binary x = true -> valid_binary y = true ->
  is_number x = true -> is_number y = true ->
  SFcompare x y = Some (ord x ?= ord y).
Proof.
  intros Hvx Hvy Hnx Hny. pose proof top_pos as Ht.
  destruct x as [sx | sx | | sx mx ex]; try discriminate;
    destruct y as [sy | sy | | sy my ey]; try discriminate;
    cbn [SFcompare ord valid_binary] in *;
    try pose proof (ord_finite_bounds sx mx ex Hvx) as Hbx;
    try pose proof (ord_finite_bounds sy my ey Hvy) as Hby;
    try (f_equal; symmetry;
         repeat match goal with
                | s : bool |- _ => destruct s
                end; cbn [cond_Zopp];
         first [ apply Z.compare_eq_iff; lia
               | apply Z.compare_lt_iff; lia
               | apply Z.compare_gt_iff; lia ]).
  pose proof (compare_magnitude mx my ex ey Hvx Hvy) as Hc.
  f_equal. destruct sx, sy; cbn [cond_Zopp]; symmetry.
  - rewrite Z.compare_opp, Z.compare_antisym, Hc.
    destruct (ex ?= ey); reflexivity.
  - apply Z.compare_lt_iff. lia.
  - apply Z.compare_gt_iff. lia.
  - exact Hc.
Qed.

Lemma SFleb_ord (x y : spec_float) :
  valid_binary x = true -> valid_binary y = true ->
  SFleb x y = true ->
  is_number x = true /\ is_number y = true /\ ord x <= ord y.
Proof.
  intros Hvx Hvy Hle.
  assert (Hnx : is_number x = true) by (destruct x; [reflexivity .. | discriminate | reflexivity]).
  assert (Hny : is_number y = true)
    by (destruct y; try reflexivity; destruct x; discriminate).
  split; [exact Hnx | ]. split; [exact Hny | ].
  unfold SFleb in Hle. rewrite (SFcompare_ord x y Hvx Hvy Hnx Hny) in Hle.
  destruct (Z.compare_spec (ord x) (ord y)); [lia | lia | discriminate].
Qed.

Lemma ord_SFleb (x y : spec_float) :
  valid_binary x = true -> valid_binary y = true ->
  is_number x = true -> is_number y = true ->
  SFleb x y = (ord x <=? ord y).
Proof.
  intros Hvx Hvy Hnx Hny. unfold SFleb. rewrite SFcompare_ord by assumption.
  unfold Z.leb. destruct (ord x ?= ord y); reflexivity.
Qed.

Lemma ord_SFltb (x y : spec_float) :
  valid_binary x = true -> valid_binary y = true ->
  is_number x = true -> is_number y = true ->
  SFltb x y = (ord x <? ord y).
Proof.
  intros Hvx Hvy Hnx Hny. unfold SFltb. rewrite SFcompare_ord by assumption.
  unfold Z.ltb. destruct (ord x ?= ord y); reflexivity.
Qed.

(** A number strictly between the infinities is finite. *)
Lemma is_finite_ord (x : spec_float) :
  is_number x = true -> - top < ord x < top -> is_finite x = true.
Proof.
  intros Hn Hb. destruct x as [s | s | | s m e]; try reflexivity; try discriminate.
  cbn [ord] in Hb. destruct s; cbn [cond_Zopp] in Hb; lia.
Qed.

(** ** The floats that rounding returns are valid *)

Lemma bounded_intro (m : positive) (e : Z) :
  -1074 <= e <= 971 -> Z.pos m < 2 ^ 53 -> (-1074 < e -> 2 ^ 52 <= Z.pos m) ->
  bounded prec emax m e = true.
Proof.
  intros He Hm Hn. unfold bounded, canonical_mantissa. rewrite fexp64.
  apply andb_true_intro. split; [ | apply Z.leb_le; change (emax - prec) with 971; lia].
  apply Z.eqb_eq.
  pose proof (digits2_pos_bounds m) as [Hlo Hhi].
  set (k := Z.pos (digits2_pos m)) in *.
  assert (Hk : 0 < k) by (unfold k; lia).
  assert (Hk53 : k <= 53).
  { destruct (Z_lt_le_dec 53 k) as [Hlt | ]; [exfalso | assumption].
    assert (2 ^ 53 <= 2 ^ (k - 1)) by (apply Z.pow_le_mono_r; lia). lia. }
  destruct (Z_lt_le_dec (-1074) e) as [Hgt | Hle]; [ | lia].
  specialize (Hn Hgt).
  assert (53 <= k); [ | lia].
  destruct (Z_lt_le_dec k 53) as [Hlt | ]; [exfalso | assumption].
  assert (2 ^ k <= 2 ^ 52) by (apply Z.pow_le_mono_r; lia). lia.
Qed.

Lemma valid_round (s : bool) (n d e : Z) :
  0 <= n -> 0 < d -> e <= rounded_exponent n d e ->
  valid_binary (binary_round_aux prec emax s (n / d) e (loc n d)) = true.
Proof.
  intros Hn Hd He. rewrite binary_round_aux_rec by assumption. cbv zeta.
  destruct (rounded_mantissa_bounds n d e Hn Hd He) as [[Hlo Hhi] Hnorm].
  set (m1 := rounded_mantissa n d e) in *. set (E := rounded_exponent n d e) in *.
  assert (HE : -1074 <= E) by (unfold E, rounded_exponent; rewrite fexp64; lia).
  destruct (Z.eqb_spec m1 0) as [E0 | Hne]; [reflexivity | ].
  destruct (Z.ltb_spec m1 (2 ^ 53)) as [Hlt | Hge].
  - destruct (Z.leb_spec E 971) as [Hle | Hgt]; [ | reflexivity].
    cbn [valid_binary]. apply bounded_intro; rewrite ?Z2Pos.id by lia; lia.
  - destruct (Z.leb_spec (E + 1) 971) as [Hle | Hgt]; [ | reflexivity].
    cbn [valid_binary]. apply bounded_intro; rewrite ?Z2Pos.id by reflexivity;
      [lia | reflexivity | intros _; reflexivity].
Qed.

Lemma valid_binary_normalize (z e : Z) (szero : bool) :
  -1074 <= e -> valid_binary (binary_normalize prec emax z e szero) = true.
Proof.
  intros He.
  assert (H : forall s m, valid_binary (binary_round prec emax s m e) = true).
  { intros s m. unfold binary_round.
    set (E := fexp prec emax (Z.pos (digits2_pos m) + e)).
    pose proof (shl_align_exponent m e E) as Hs.
    pose proof (shl_align_mantissa m e E) as [Hm Hdig].
    destruct (shl_align m e E) as [mz ez]. cbn [fst snd] in *.
    assert (Hr : ez <= rounded_exponent (Z.pos mz) 1 ez).
    { unfold rounded_exponent. rewrite Z.div_1_r.
      change (Zdigits2 (Z.pos mz)) with (Z.pos (digits2_pos mz)).
      rewrite Hdig.
      replace (Z.pos (digits2_pos m) + (e - Z.min e E) + ez)
        with (Z.pos (digits2_pos m) + e) by lia.
      fold E. lia. }
    pose proof (valid_round s (Z.pos mz) 1 ez ltac:(lia) ltac:(lia) Hr) as Hv.
    unfold loc in Hv. rewrite Z.mod_1_r, Z.div_1_r in Hv. exact Hv. }
  destruct z as [ | m | m]; cbn [binary_normalize]; [reflexivity | apply H | apply H].
Qed.

(** ** Division *)

Lemma new_location_loc (n d : Z) :
  0 < d -> new_location d (n mod d) = loc n d.
Proof.
  intros Hd. pose proof (Z.mod_pos_bound n d Hd) as Hr.
  set (r := n mod d) in *. unfold new_location, loc. fold r.
  destruct (Z.even d) eqn:Ev.
  - reflexivity.
  - unfold new_location_odd. destruct (r =? 0); [reflexivity | ]. f_equal.
    assert (Hodd : Z.odd d = true) by (rewrite <- Z.negb_even, Ev; reflexivity).
    apply Z.odd_spec in Hodd. destruct Hodd as [k Hk].
    destruct (Z.compare_spec (2 * r + 1) d); destruct (Z.compare_spec (2 * r) d);
      try reflexivity; lia.
Qed.

Lemma SFdiv_core_binary_loc (mx my : positive) (ex ey : Z) :
  let e' := Z.min (fexp prec emax (Z.pos (digits2_pos mx) + ex
                                   - (Z.pos (digits2_pos my) + ey))) (ex - ey) in
  let n := Z.pos mx * 2 ^ (ex - ey - e') in
  SFdiv_core_binary prec emax (Z.pos mx) ex (Z.pos my) ey
  = (n / Z.pos my, e', loc n (Z.pos my)).
Proof.
  cbv zeta. unfold SFdiv_core_binary.
  change (Zdigits2 (Z.pos mx)) with (Z.pos (digits2_pos mx)).
  change (Zdigits2 (Z.pos my)) with (Z.pos (digits2_pos my)).
  set (e' := Z.min _ (ex - ey)).
  assert (Hs : 0 <= ex - ey - e') by lia.
  set (s := ex - ey - e') in *.
  assert (Em : match s with
               | 0 => Z.pos mx
               | Z.pos _ => Z.shiftl (Z.pos mx) s
               | Z.neg _ => 0
               end = Z.pos mx * 2 ^ s).
  { destruct s as [ | p | p] eqn:Es; [cbn; lia | | lia].
    rewrite Z.shiftl_mul_pow2 by lia. reflexivity. }
  rewrite Em. set (n := Z.pos mx * 2 ^ s).
  rewrite <- (new_location_loc n (Z.pos my)) by lia.
  unfold Z.div, Z.modulo. destruct (Z.div_eucl n (Z.pos my)) as [q r]. reflexivity.
Qed.

Lemma ord_SFdiv (x : spec_float) (my : positive) (ey : Z) :
  valid_binary x = true -> bounded prec emax my ey = true ->
  is_finite x = true ->
  is_number (SFdiv prec emax x (S754_finite false my ey)) = true
  /\ ord (SFdiv prec emax x (S754_finite false my ey))
     = to_nearest (ord x * 2 ^ 1074) (Z.pos my * 2 ^ (ey + 1074)).
Proof.
  intros Hvx Hvy Hfx.
  destruct (bounded_facts my ey Hvy) as (Hey & Hmy & _ & _).
  pose proof (Z.pow_pos_nonneg 2 (ey + 1074) ltac:(lia) ltac:(lia)) as Hpy.
  destruct x as [sx | sx | | sx mx ex]; try discriminate.
  - split; [reflexivity | ]. cbn [SFdiv ord]. rewrite Z.mul_0_l.
    symmetry. apply to_nearest_0. lia.
  - cbn [valid_binary] in Hvx.
    destruct (bounded_facts mx ex Hvx) as (Hex & Hmx & _ & _).
    cbn [SFdiv]. rewrite SFdiv_core_binary_loc. cbv zeta.
    set (dx := Z.pos (digits2_pos mx)). set (dy := Z.pos (digits2_pos my)).
    set (e' := Z.min (fexp prec emax (dx + ex - (dy + ey))) (ex - ey)).
    set (s := ex - ey - e'). assert (Hs : 0 <= s) by (unfold s; lia).
    set (n := Z.pos mx * 2 ^ s).
    pose proof (Z.pow_pos_nonneg 2 s ltac:(lia) Hs) as Hps.
    assert (Hn : 0 < n) by (unfold n; lia).
    assert (Hr : e' <= rounded_exponent n (Z.pos my) e').
    { unfold rounded_exponent. rewrite fexp64.
      assert (Hdig : dx + s - dy <= Zdigits2 (n / Z.pos my)).
      { pose proof (Zdigits2_nonneg (n / Z.pos my)) as H0.
        destruct (Z_lt_le_dec (dx + s - dy) 1) as [ | Hge]; [lia | ].
        pose proof (digits2_pos_bounds mx) as [Hxlo _]. fold dx in Hxlo.
        pose proof (digits2_pos_bounds my) as [_ Hyhi]. fold dy in Hyhi.
        assert (Hdx : 0 < dx) by (unfold dx; lia).
        assert (Hdy : 0 < dy) by (unfold dy; lia).
        assert (Hq : 2 ^ (dx + s - dy - 1) <= n / Z.pos my).
        { apply Z.div_le_lower_bound; [lia | ].
          assert (Epow : 2 ^ (dx - 1) * 2 ^ s = 2 ^ dy * 2 ^ (dx + s - dy - 1)).
          { rewrite <- !Z.pow_add_r by lia. f_equal. lia. }
          pose proof (Z.pow_pos_nonneg 2 (dx + s - dy - 1) ltac:(lia) ltac:(lia)).
          unfold n. nia. }
        pose proof (Z.pow_pos_nonneg 2 (dx + s - dy - 1) ltac:(lia) ltac:(lia)) as Hp.
        pose proof (Zdigits2_upper (n / Z.pos my) ltac:(lia)) as Hup.
        destruct (Z_lt_le_dec (Zdigits2 (n / Z.pos my)) (dx + s - dy)) as [Hlt | ];
          [exfalso | assumption].
        assert (2 ^ Zdigits2 (n / Z.pos my) <= 2 ^ (dx + s - dy - 1))
          by (apply Z.pow_le_mono_r; lia).
        lia. }
      assert (Ee : e' = Z.min (Z.max (dx + ex - (dy + ey) - 53) (-1074)) (ex - ey))
        by reflexivity.
      assert (Es : s = ex - ey - e') by reflexivity.
      lia. }
    destruct (ord_round (xorb sx false) n (Z.pos my) e' ltac:(lia) ltac:(lia) Hr)
      as [Hnum Hord].
    split; [exact Hnum | ]. rewrite Hord. rewrite xorb_false_r.
    unfold scaled_num, scaled_den. cbn [ord].
    set (t := e' + 1074).
    assert (Hp1 : 0 < 2 ^ Z.max t 0) by (apply Z.pow_pos_nonneg; lia).
    assert (Hp2 : 0 < 2 ^ Z.max (- t) 0) by (apply Z.pow_pos_nonneg; lia).
    apply to_nearest_ratio; [lia | lia | ].
    assert (Epow : 2 ^ s * 2 ^ Z.max t 0 * 2 ^ (ey + 1074)
                   = 2 ^ (ex + 1074) * 2 ^ 1074 * 2 ^ Z.max (- t) 0).
    { rewrite <- !Z.pow_add_r by lia. f_equal. unfold s, t. lia. }
    unfold n. destruct sx; cbn [cond_Zopp]; nia.
Qed.

(** ** The primitive operations *)

Lemma finite_between (lo hi v : float) :
  finite lo = true -> finite hi = true ->
  is_number (Prim2SF v) = true ->
  ordinal lo <= ordinal v <= ordinal hi ->
  finite v = true.
Proof.
  unfold finite, ordinal. intros Hlo Hhi Hn Hb.
  pose proof (ord_bounds _ (Prim2SF_valid lo) Hlo).
  pose proof (ord_bounds _ (Prim2SF_valid hi) Hhi).
  apply is_finite_ord; [exact Hn | lia].
Qed.

Lemma leb_ordinal (x y : float) :
  PrimFloat.leb x y = true ->
  is_number (Prim2SF x) = true /\ is_number (Prim2SF y) = true
  /\ ordinal x <= ordinal y.
Proof.
  rewrite leb_spec. apply SFleb_ord; apply Prim2SF_valid.
Qed.

Lemma mul_ordinal (x y : float) :
  finite x = true -> finite y = true ->
  is_number (Prim2SF (x * y)) = true
  /\ ordinal (x * y) = to_nearest (ordinal x * ordinal y) (2 ^ 1074).
Proof.
  intros Hx Hy. unfold ordinal. rewrite mul_spec.
  apply ord_SFmul; try apply Prim2SF_valid; assumption.
Qed.

Lemma sub_ordinal (x y : float) :
  finite x = true -> finite y = true ->
  is_number (Prim2SF (x - y)) = true
  /\ ordinal (x - y) = to_nearest (ordinal x - ordinal y) 1.
Proof.
  intros Hx Hy. unfold ordinal. rewrite FloatAxioms.sub_spec.
  apply ord_SFsub; try apply Prim2SF_valid; assumption.
Qed.

Lemma add_ordinal (x y : float) :
  finite x = true -> finite y = true ->
  is_number (Prim2SF (x + y)) = true
  /\ ordinal (x + y) = to_nearest (ordinal x + ordinal y) 1.
Proof.
  intros Hx Hy. unfold ordinal. rewrite add_spec.
  apply ord_SFadd; try apply Prim2SF_valid; assumption.
Qed.

(** Multiplication by a float that is not negative is monotone, and so is
    the subtraction of a float. *)
Lemma mul_mono (x y c : float) :
  finite x = true -> finite y = true -> finite c = true ->
  0 <= ordinal c -> ordinal x <= ordinal y ->
  ordinal (x * c) <= ordinal (y * c).
Proof.
  intros Hx Hy Hc Hpos Hle.
  destruct (mul_ordinal x c Hx Hc) as [_ ->].
  destruct (mul_ordinal y c Hy Hc) as [_ ->].
  apply to_nearest_mono; [reflexivity | reflexivity | ].
  apply Z.mul_le_mono_nonneg_r; [lia | ].
  apply Z.mul_le_mono_nonneg_r; assumption.
Qed.

Lemma sub_mono (x y c : float) :
  finite x = true -> finite y = true -> finite c = true ->
  ordinal x <= ordinal y ->
  ordinal (x - c) <= ordinal (y - c).
Proof.
  intros Hx Hy Hc Hle.
  destruct (sub_ordinal x c Hx Hc) as [_ ->].
  destruct (sub_ordinal y c Hy Hc) as [_ ->].
  apply to_nearest_mono; lia.
Qed.

Lemma add_mono (x y c : float) :
  finite x = true -> finite y = true -> finite c = true ->
  ordinal x <= ordinal y ->
  ordinal (x + c) <= ordinal (y + c).
Proof.
  intros Hx Hy Hc Hle.
  destruct (add_ordinal x c Hx Hc) as [_ ->].
  destruct (add_ordinal y c Hy Hc) as [_ ->].
  apply to_nearest_mono; lia.
Qed.

(** [round] of a finite float, from its ordinal. *)
Lemma round_ordinal (x : float) :
  finite x = true ->
  PyFloat.round x = Ok (round_half_even (ordinal x) (2 ^ 1074)).
Proof.
  unfold finite, ordinal, PyFloat.round. intros Hf.
  pose proof (Prim2SF_valid x) as Hv.
  destruct (Prim2SF x) as [s | s | | s m e]; try discriminate.
  - reflexivity.
  - f_equal. cbn [valid_binary] in Hv.
    destruct (bounded_facts m e Hv) as (He & _).
    unfold PyFloat.float_num, PyFloat.float_den. cbn [ord].
    assert (Hd : 0 < 2 ^ Z.max (- e) 0) by (apply Z.pow_pos_nonneg; lia).
    apply round_half_even_ratio; [exact Hd | reflexivity | ].
    assert (Epow : 2 ^ Z.max e 0 * 2 ^ 1074 = 2 ^ (e + 1074) * 2 ^ Z.max (- e) 0).
    { rewrite <- !Z.pow_add_r by lia. f_equal. lia. }
    destruct s; cbn [cond_Zopp]; nia.
Qed.

Lemma round_mono (x y : float) :
  finite x = true -> finite y = true -> ordinal x <= ordinal y ->
  exists n m, PyFloat.round x = Ok n /\ PyFloat.round y = Ok m /\ n <= m.
Proof.
  intros Hx Hy Hle. do 2 eexists.
  split; [apply round_ordinal, Hx | ]. split; [apply round_ordinal, Hy | ].
  apply round_half_even_mono; [reflexivity | reflexivity | ].
  apply Z.mul_le_mono_nonneg_r; [lia | assumption].
Qed.

(** ** The positions of the values of a range *)

(** The slider position of a value between two floats lies between their
    slider positions. *)
Lemma position_between (lo hi scale offset : float) :
  finite lo = true -> finite hi = true ->
  finite scale = true -> 0 <= ordinal scale -> finite offset = true ->
  finite (lo * scale) = true -> finite (hi * scale) = true ->
  finite (lo * scale - offset) = true -> finite (hi * scale - offset) = true ->
  forall v : float,
    PrimFloat.leb lo v = true -> PrimFloat.leb v hi = true ->
    exists nlo n nhi,
      PyFloat.round (lo * scale - offset) = Ok nlo
      /\ PyFloat.round (v * scale - offset) = Ok n
      /\ PyFloat.round (hi * scale - offset) = Ok nhi
      /\ nlo <= n <= nhi.
Proof.
  intros Hlo Hhi Hs Hpos Ho Hlos Hhis Hloo Hhio v Hle1 Hle2.
  destruct (leb_ordinal lo v Hle1) as (_ & Hnv & Hov1).
  destruct (leb_ordinal v hi Hle2) as (_ & _ & Hov2).
  assert (Hv : finite v = true) by (apply (finite_between lo hi); auto).
  assert (Hvs : finite (v * scale) = true).
  { apply (finite_between (lo * scale) (hi * scale)); auto.
    - apply mul_ordinal; assumption.
    - split; apply mul_mono; assumption. }
  assert (Hvo : finite (v * scale - offset) = true).
  { apply (finite_between (lo * scale - offset) (hi * scale - offset)); auto.
    - apply sub_ordinal; assumption.
    - split; apply sub_mono; try assumption; apply mul_mono; assumption. }
  exists (round_half_even (ordinal (lo * scale - offset)) (2 ^ 1074)),
         (round_half_even (ordinal (v * scale - offset)) (2 ^ 1074)),
         (round_half_even (ordinal (hi * scale - offset)) (2 ^ 1074)).
  split; [apply round_ordinal; assumption | ].
  split; [apply round_ordinal; assumption | ].
  split; [apply round_ordinal; assumption | ].
  split; (apply round_half_even_mono; [reflexivity | reflexivity | ];
          apply Z.mul_le_mono_nonneg_r; [lia | ];
          apply sub_mono; try assumption; apply mul_mono; assumption).
Qed.

Lemma regular_position (rng : Range.t float) :
  regular rng = true ->
  forall (var : string) (v : float),
    within rng v = true ->
    exists n, position_of var rng v = Ok n /\ 0 <= n <= SLIDER_MAX.
Proof.
  unfold regular. cbv zeta. intros Hreg var v Hv.
  repeat (apply andb_prop in Hreg; destruct Hreg as [Hreg ?]).
  apply negb_true_iff in Hreg.
  unfold within in Hv. apply andb_prop in Hv. destruct Hv as [Hlo Hhi].
  cbn [leb float_Number] in Hlo, Hhi.
  unfold position_of. rewrite float_init, Hreg. cbn [bind].
  destruct (position_between (Range.min rng) (Range.max rng)
              (Param.scale (float_parameter "" rng))
              (Param.offset (float_parameter "" rng)))
    with (v := v) as (nlo & n & nhi & Elo & En & Ehi & Hn);
    try assumption; [apply Z.leb_le; assumption | ].
  exists n. split; [exact En | ].
  match goal with
  | E1 : result_eqb Z.eqb _ 0 = true, E2 : result_eqb Z.eqb _ SLIDER_MAX = true |- _ =>
      apply result_eqb_Z in E1, E2; rewrite Elo in E1; rewrite Ehi in E2;
      injection E1 as ->; injection E2 as ->
  end.
  exact Hn.
Qed.

Lemma configured_regular (var : string) (rng : Range.t float) :
  In (var, rng) RANGES -> regular rng = true.
Proof. intros Hin. configured Hin; vm_compute; reflexivity. Qed.

(** ** Comparison, division and the conversion of integers *)

Lemma finite_number (x : float) : finite x = true -> is_number (Prim2SF x) = true.
Proof. unfold finite. destruct (Prim2SF x); (reflexivity || discriminate). Qed.

Lemma ltb_ordinal (x y : float) :
  finite x = true -> finite y = true ->
  PrimFloat.ltb x y = (ordinal x <? ordinal y).
Proof.
  intros Hx Hy. rewrite ltb_spec.
  apply ord_SFltb; try apply Prim2SF_valid; apply finite_number; assumption.
Qed.

Lemma div_ordinal (x c : float) :
  finite x = true -> finite c = true -> 0 < ordinal c ->
  is_number (Prim2SF (x / c)) = true
  /\ ordinal (x / c) = to_nearest (ordinal x * 2 ^ 1074) (ordinal c).
Proof.
  unfold finite, ordinal. intros Hx Hc Hpos. rewrite div_spec.
  pose proof (Prim2SF_valid c) as Hvc.
  destruct (Prim2SF c) as [s | s | | s m e]; try discriminate; cbn [ord] in Hpos.
  destruct s; cbn [cond_Zopp] in Hpos.
  - pose proof (Z.pow_nonneg 2 (e + 1074) ltac:(lia)). lia.
  - apply ord_SFdiv; [apply Prim2SF_valid | exact Hvc | exact Hx].
Qed.

Lemma div_mono (x y c : float) :
  finite x = true -> finite y = true -> finite c = true ->
  0 < ordinal c -> ordinal x <= ordinal y ->
  ordinal (x / c) <= ordinal (y / c).
Proof.
  intros Hx Hy Hc Hpos Hle.
  destruct (div_ordinal x c Hx Hc Hpos) as [_ ->].
  destruct (div_ordinal y c Hy Hc Hpos) as [_ ->].
  apply to_nearest_mono; [assumption | assumption | ].
  apply Z.mul_le_mono_nonneg_r; [lia | ].
  apply Z.mul_le_mono_nonneg_r; [lia | assumption].
Qed.

(** [int -> float] *)
Lemma of_int_ordinal (n : Z) :
  Z.abs n < float_max_int ->
  exists f, PyFloat.of_int n = Ok f
            /\ is_number (Prim2SF f) = true
            /\ ordinal f = to_nearest (n * 2 ^ 1074) 1.
Proof.
  intros Hn. unfold PyFloat.of_int. fold float_max_int.
  destruct (Z.ltb_spec (Z.abs n) float_max_int) as [_ | Hge]; [ | lia].
  eexists. split; [reflexivity | ]. unfold ordinal.
  rewrite Prim2SF_SF2Prim by (apply valid_binary_normalize; lia).
  apply (ord_binary_normalize n 0 false). lia.
Qed.

Lemma of_int_Ok (n : Z) (f : float) :
  PyFloat.of_int n = Ok f -> Z.abs n < float_max_int.
Proof.
  unfold PyFloat.of_int. fold float_max_int.
  destruct (Z.ltb_spec (Z.abs n) float_max_int); [trivial | discriminate].
Qed.

(** ** The values of the positions off the slider *)

(** The value set from a position between two positions lies between their
    values. *)
Lemma value_between (scale offset : float) (plo phi : Z) :
  finite scale = true -> 0 < ordinal scale -> finite offset = true ->
  finite_at scale offset plo = true -> finite_at scale offset phi = true ->
  forall position, plo <= position <= phi ->
    exists xlo x xhi,
      PyFloat.of_int plo = Ok xlo /\ PyFloat.of_int position = Ok x
      /\ PyFloat.of_int phi = Ok xhi
      /\ finite ((x + offset) / scale) = true
      /\ ordinal ((xlo + offset) / scale) <= ordinal ((x + offset) / scale)
         <= ordinal ((xhi + offset) / scale).
Proof.
  intros Hs Hpos Ho Hlo Hhi position Hp.
  apply result_holds_Ok in Hlo, Hhi.
  destruct Hlo as (xlo & Elo & Hlo). destruct Hhi as (xhi & Ehi & Hhi).
  apply andb_prop in Hlo, Hhi.
  destruct Hlo as [Hlo Hlo3]. destruct Hhi as [Hhi Hhi3].
  apply andb_prop in Hlo, Hhi.
  destruct Hlo as [Hlo1 Hlo2]. destruct Hhi as [Hhi1 Hhi2].
  pose proof (of_int_Ok _ _ Elo) as Blo. pose proof (of_int_Ok _ _ Ehi) as Bhi.
  destruct (of_int_ordinal plo Blo) as (xlo' & Elo' & _ & Olo).
  destruct (of_int_ordinal phi Bhi) as (xhi' & Ehi' & _ & Ohi).
  rewrite Elo in Elo'. injection Elo' as <-.
  rewrite Ehi in Ehi'. injection Ehi' as <-.
  destruct (of_int_ordinal position ltac:(lia)) as (x & Ex & Nx & Ox).
  assert (Hx1 : ordinal xlo <= ordinal x <= ordinal xhi).
  { rewrite Olo, Ox, Ohi. split; apply to_nearest_mono; lia. }
  assert (Fx : finite x = true) by (apply (finite_between xlo xhi); auto).
  assert (Hx2 : ordinal (xlo + offset) <= ordinal (x + offset)
                <= ordinal (xhi + offset))
    by (split; apply add_mono; try assumption; lia).
  assert (Fx2 : finite (x + offset) = true).
  { apply (finite_between (xlo + offset) (xhi + offset)); auto.
    apply add_ordinal; assumption. }
  assert (Hx3 : ordinal ((xlo + offset) / scale) <= ordinal ((x + offset) / scale)
                <= ordinal ((xhi + offset) / scale))
    by (split; apply div_mono; try assumption; lia).
  exists xlo, x, xhi. repeat (split; [assumption | ]). split; [ | exact Hx3].
  apply (finite_between ((xlo + offset) / scale) ((xhi + offset) / scale)); auto.
  apply div_ordinal; assumption.
Qed.

Lemma float_value_at (var : string) (rng : Range.t float) (position : Z) (x : float) :
  PrimFloat.eqb (Range.max rng - Range.min rng) 0 = false ->
  PrimFloat.eqb (Param.scale (float_parameter "" rng)) 0 = false ->
  PyFloat.of_int position = Ok x ->
  value_at var rng position
  = Ok ((x + Param.offset (float_parameter "" rng))
        / Param.scale (float_parameter "" rng))%float.
Proof.
  intros Hw Hs Hx. unfold value_at. rewrite float_init, Hw. cbn [bind].
  unfold Param.set_from_slider_value.
  cbn [of_int add truediv float_Number]. rewrite Hx. cbn [bind].
  unfold PyFloat.truediv.
  change (Param.scale (float_parameter var rng))
    with (Param.scale (float_parameter "" rng)).
  change (Param.offset (float_parameter var rng))
    with (Param.offset (float_parameter "" rng)).
  rewrite Hs. reflexivity.
Qed.

Lemma off_range_outside (rng : Range.t float) :
  off_range rng = true ->
  forall (var : string) (position : Z),
    Z.abs position < float_max_int ->
    position < 0 \/ SLIDER_MAX < position ->
    exists v, value_at var rng position = Ok v
              /\ strictly_outside rng position v = true.
Proof.
  unfold off_range. cbv zeta. intros Hreg var position Hconv Hp.
  repeat (apply andb_prop in Hreg; destruct Hreg as [Hreg ?]).
  apply negb_true_iff in Hreg.
  set (s := Param.scale (float_parameter "" rng)) in *.
  set (o := Param.offset (float_parameter "" rng)) in *.
  match goal with H : negb (PrimFloat.eqb s 0) = true |- _ =>
    apply negb_true_iff in H; rename H into Hs end.
  match goal with H : (0 <? ordinal s) = true |- _ =>
    apply Z.ltb_lt in H; rename H into Hpos end.
  match goal with H : result_holds (value_at "" rng (- 1)) _ = true |- _ =>
    apply result_holds_Ok in H; destruct H as (vlo & Evlo & Hvlo) end.
  match goal with H : result_holds (value_at "" rng (SLIDER_MAX + 1)) _ = true |- _ =>
    apply result_holds_Ok in H; destruct H as (vhi & Evhi & Hvhi) end.
  unfold strictly_outside in *.
  destruct Hp as [Hneg | Hbig].
  - destruct (value_between s o (1 - float_max_int) (- 1)) with (position := position)
      as (xlo & x & xhi & Elo & Ex & Ehi & Fv & _ & Hv); try assumption; [lia | ].
    exists ((x + o) / s)%float.
    split; [apply float_value_at; assumption | ].
    rewrite (float_value_at "" rng (- 1) xhi Hreg Hs Ehi) in Evlo.
    injection Evlo as <-.
    destruct (Z.ltb_spec position 0) as [_ | ]; [ | lia].
    change (- 1 <? 0) with true in Hvlo. cbn [ltb float_Number] in *.
    assert (Fhi : finite ((xhi + o) / s) = true).
    { match goal with H : finite_at s o (- 1) = true |- _ =>
        unfold finite_at in H; rewrite Ehi in H; cbn [result_holds] in H;
        apply andb_prop in H; destruct H as [_ H]; exact H end. }
    rewrite ltb_ordinal in * by assumption.
    apply Z.ltb_lt in Hvlo. apply Z.ltb_lt.
    exact (Z.le_lt_trans _ _ _ Hv Hvlo).
  - destruct (value_between s o (SLIDER_MAX + 1) (float_max_int - 1))
      with (position := position)
      as (xlo & x & xhi & Elo & Ex & Ehi & Fv & Hv & _); try assumption; [lia | ].
    exists ((x + o) / s)%float.
    split; [apply float_value_at; assumption | ].
    rewrite (float_value_at "" rng (SLIDER_MAX + 1) xlo Hreg Hs Elo) in Evhi.
    injection Evhi as <-.
    destruct (Z.ltb_spec position 0) as [ | _]; [unfold SLIDER_MAX in *; lia | ].
    change (SLIDER_MAX + 1 <? 0) with false in Hvhi. cbn [ltb float_Number] in *.
    assert (Flo : finite ((xlo + o) / s) = true).
    { match goal with H : finite_at s o (SLIDER_MAX + 1) = true |- _ =>
        unfold finite_at in H; rewrite Elo in H; cbn [result_holds] in H;
        apply andb_prop in H; destruct H as [_ H]; exact H end. }
    rewrite ltb_ordinal in * by assumption.
    apply Z.ltb_lt in Hvhi. apply Z.ltb_lt.
    exact (Z.lt_le_trans _ _ _ Hvhi Hv).
Qed.

Lemma configured_off_range (var : string) (rng : Range.t float) :
  In (var, rng) RANGES -> off_range rng = true.
Proof. intros Hin. configured Hin; vm_compute; reflexivity. Qed.

(** * The slider position of a value in the range, and the values off it *)

(** C6, as stated, fails over floats: on the range (1e17, 1e17 + 16) the value
    max lies in [min, max] and its slider position is 256. *)
Lemma slider_value_float_counterexample :
  ltb (Range.min farther_range) (Range.max farther_range) = true /\
  within farther_range (Range.max farther_range) = true /\
  position_of "var" farther_range (Range.max farther_range) = Ok 256 /\
  SLIDER_MAX < 256.
Proof.
  split; [vm_compute; reflexivity | ].
  split; [vm_compute; reflexivity | ].
  split; [vm_compute; reflexivity | reflexivity].
Qed.

(** C6, amended: [slider_value()] returns round(value * scale - offset),
    unclamped (the value 3.0 of contrast has position 300).  The result lies in
    [0, SLIDER_MAX] whenever the value lies in [min, max]: over exact
    rationals for every range with min < max, and over floats for each of the
    four configured ranges, whatever float in [min, max] the value is. *)
Theorem slider_value_on_slider :
  (forall (F : Type) (N : Number F) (p : Param.t F),
      Param.slider_value p
      = round (sub (mul (Param.value p) (Param.scale p)) (Param.offset p))) /\
  (forall (var : string) (rng : Range.t Q) (v : Q),
      ltb (Range.min rng) (Range.max rng) = true ->
      within rng v = true ->
      exists n, position_of var rng v = Ok n /\ 0 <= n <= SLIDER_MAX) /\
  (forall (var : string) (rng : Range.t float) (v : float),
      In (var, rng) RANGES ->
      within rng v = true ->
      exists n, position_of var rng v = Ok n /\ 0 <= n <= SLIDER_MAX) /\
  position_of "contrast" contrast_range 3.0%float = Ok 300.
Proof.
  split; [reflexivity | ].
  split; [intros var rng v Hlt Hv; apply exact_position_of; assumption | ].
  split; [ | vm_compute; reflexivity].
  intros var rng v Hin Hv.
  apply regular_position; [eapply configured_regular; eassumption | exact Hv].
Qed.

Lemma slider_value_on_slider_witness :
  (exists n, position_of "gamma" exact_gamma_range (22 # 7) = Ok n
             /\ 0 <= n <= SLIDER_MAX) /\
  (exists n, position_of "gamma" gamma_range 4.9874999999999998%float = Ok n
             /\ 0 <= n <= SLIDER_MAX).
Proof.
  split.
  - apply (proj1 (proj2 slider_value_on_slider)); reflexivity.
  - apply (proj1 (proj2 (proj2 slider_value_on_slider)) "gamma"%string gamma_range);
      [cbn; tauto | vm_compute; reflexivity].
Defined.

(** C7, as stated, fails over floats: on the range (1e15, 1e15 + 1) the
    position -1 yields min itself and the position 201 yields max itself, and
    an integer beyond the floats is not accepted. *)
Lemma off_slider_float_counterexample :
  ltb (Range.min far_range) (Range.max far_range) = true /\
  value_at "var" far_range (- 1) = Ok (Range.min far_range) /\
  value_at "var" far_range (SLIDER_MAX + 1) = Ok (Range.max far_range) /\
  value_at "contrast" contrast_range (2 ^ 1024) = Raise OverflowError.
Proof.
  split; [vm_compute; reflexivity | ].
  split; [vm_compute; reflexivity | ].
  split; vm_compute; reflexivity.
Qed.

Lemma set_from_slider_value_overflow (p : Param.t float) (position : Z) :
  float_max_int <= Z.abs position ->
  Param.set_from_slider_value p position = Raise OverflowError.
Proof.
  intros Hp. unfold Param.set_from_slider_value.
  cbn [of_int float_Number]. unfold PyFloat.of_int. fold float_max_int.
  destruct (Z.ltb_spec (Z.abs position) float_max_int); [lia | reflexivity].
Qed.

(** C7, amended: [set_from_slider_value] performs no clamping: it converts the
    position to the number type, and sets value = (position + offset) / scale.
    Over exact rationals, for every range with min < max and every integer
    position, the value is strictly below min when position < 0 and strictly
    above max when position > SLIDER_MAX.  Over floats the same holds for each
    of the four configured ranges and every position that converts to a
    float, of magnitude below 2^1024 - 2^970; a position of larger magnitude
    is not accepted, it raises [OverflowError]. *)
Theorem off_slider_positions :
  (forall (F : Type) (N : Number F) (p : Param.t F) (position : Z),
      Param.set_from_slider_value p position
      = (x <- of_int position ;;
         v <- truediv (add x (Param.offset p)) (Param.scale p) ;;
         Ok (Param.set_value p v))) /\
  (forall (var : string) (rng : Range.t Q) (position : Z),
      ltb (Range.min rng) (Range.max rng) = true ->
      position < 0 \/ SLIDER_MAX < position ->
      exists v, value_at var rng position = Ok v
                /\ strictly_outside rng position v = true) /\
  (forall (var : string) (rng : Range.t float) (position : Z),
      In (var, rng) RANGES ->
      Z.abs position < float_max_int ->
      position < 0 \/ SLIDER_MAX < position ->
      exists v, value_at var rng position = Ok v
                /\ strictly_outside rng position v = true) /\
  (forall (p : Param.t float) (position : Z),
      float_max_int <= Z.abs position ->
      Param.set_from_slider_value p position = Raise OverflowError).
Proof.
  split; [reflexivity | ]. split; [ | split].
  - intros var rng position Hlt Hp.
    destruct (exact_value_outside var rng Hlt position) as (v & Hv & Hlo & Hhi).
    exists v. split; [exact Hv | ]. unfold strictly_outside.
    destruct (Z.ltb_spec position 0) as [Hneg | Hnonneg].
    + apply Hlo, Hneg.
    + apply Hhi. lia.
  - intros var rng position Hin Hconv Hp.
    apply off_range_outside; [eapply configured_off_range; eassumption | | ];
      assumption.
  - apply set_from_slider_value_overflow.
Qed.

Lemma off_slider_positions_witness :
  (exists v, value_at "gamma" exact_gamma_range 201 = Ok v
             /\ strictly_outside exact_gamma_range 201 v = true) /\
  (exists v, value_at "gamma" gamma_range (2 ^ 64) = Ok v
             /\ strictly_outside gamma_range (2 ^ 64) v = true) /\
  Param.set_from_slider_value gamma_parameter (- 2 ^ 1024) = Raise OverflowError.
Proof.
  split; [ | split].
  - apply (proj1 (proj2 off_slider_positions));
      [reflexivity | right; unfold SLIDER_MAX; lia].
  - apply (proj1 (proj2 (proj2 off_slider_positions)) "gamma"%string gamma_range);
      [cbn; tauto | vm_compute; reflexivity | right; vm_compute; reflexivity].
  - apply (proj2 (proj2 (proj2 off_slider_positions))). vm_compute. congruence.
Defined.

(** * Further properties of the scaler *)

(** ** Every float of a configured range has its position on the slider *)

(** X1: for each of the four configured ranges, whatever float in [min, max]
    the value of the [Parameter] is, [slider_value()] returns an integer in
    [0, SLIDER_MAX]. *)
Theorem float_position_on_slider
    (var : string) (rng : Range.t float) (v : float) :
  In (var, rng) RANGES ->
  within rng v = true ->
  exists n, position_of var rng v = Ok n /\ 0 <= n <= SLIDER_MAX.
Proof.
  intros Hin Hv.
  apply regular_position; [eapply configured_regular; eassumption | exact Hv].
Qed.

Lemma float_position_on_slider_witness :
  exists n, position_of "gamma" gamma_range 2.5%float = Ok n /\ 0 <= n <= SLIDER_MAX.
Proof.
  apply (float_position_on_slider "gamma"%string gamma_range 2.5%float);
    [cbn; tauto | vm_compute; reflexivity].
Defined.

(** ** Every position off the slider has its value off the range *)

(** X2: for each of the four configured ranges and every integer position
    that converts to a float (of magnitude below 2^1024 - 2^970),
    [set_from_slider_value] sets a value strictly below min when the
    position is below 0 and strictly above max when it is above SLIDER_MAX;
    an integer of larger magnitude raises [OverflowError], whatever the
    [Parameter]. *)
Theorem float_off_slider_value :
  (forall (var : string) (rng : Range.t float) (position : Z),
      In (var, rng) RANGES ->
      Z.abs position < float_max_int ->
      position < 0 \/ SLIDER_MAX < position ->
      exists v, value_at var rng position = Ok v
                /\ strictly_outside rng position v = true) /\
  (forall (p : Param.t float) (position : Z),
      float_max_int <= Z.abs position ->
      Param.set_from_slider_value p position = Raise OverflowError).
Proof.
  split.
  - intros var rng position Hin Hconv Hp.
    apply off_range_outside; [eapply configured_off_range; eassumption | | ];
      assumption.
  - apply set_from_slider_value_overflow.
Qed.

Lemma float_off_slider_value_witness :
  (exists v, value_at "gamma" gamma_range (- 1000000) = Ok v
             /\ strictly_outside gamma_range (- 1000000) v = true) /\
  Param.set_from_slider_value gamma_parameter (2 ^ 1024) = Raise OverflowError.
Proof.
  split.
  - apply (proj1 float_off_slider_value "gamma"%string gamma_range);
      [cbn; tauto | vm_compute; reflexivity | left; lia].
  - apply (proj2 float_off_slider_value). vm_compute. congruence.
Defined.

(** ** Which operands give a finite result *)

Lemma SFmul_finite (x y : spec_float) :
  is_finite (SFmul prec emax x y) = true ->
  is_finite x = true /\ is_finite y = true.
Proof.
  destruct x as [sx | sx | | sx mx ex]; destruct y as [sy | sy | | sy my ey];
    cbn [SFmul is_finite]; intros H; try discriminate; split; reflexivity.
Qed.

Lemma SFsub_finite (x y : spec_float) :
  is_finite (SFsub prec emax x y) = true ->
  is_finite x = true /\ is_finite y = true.
Proof.
  destruct x as [sx | sx | | sx mx ex]; destruct y as [sy | sy | | sy my ey];
    cbn [SFsub is_finite]; intros H; try discriminate; try (split; reflexivity);
    destruct sx, sy; discriminate.
Qed.

Lemma mul_finite (x y : float) :
  finite (x * y) = true -> finite x = true /\ finite y = true.
Proof. unfold finite. rewrite mul_spec. apply SFmul_finite. Qed.

Lemma sub_finite (x y : float) :
  finite (x - y) = true -> finite x = true /\ finite y = true.
Proof. unfold finite. rewrite FloatAxioms.sub_spec. apply SFsub_finite. Qed.

Lemma round_Ok_finite (x : float) (n : Z) :
  PyFloat.round x = Ok n -> finite x = true.
Proof.
  unfold PyFloat.round, finite.
  destruct (Prim2SF x); (discriminate || reflexivity).
Qed.

Lemma leb_zero_ordinal (x : float) :
  PrimFloat.leb 0 x = true -> 0 <= ordinal x.
Proof. intros H. apply leb_ordinal in H. destruct H as (_ & _ & H). exact H. Qed.

(** ** The slider position grows with the value *)

(** X3: [slider_value()] is monotone in the value, for any [Parameter] over
    floats whose scale is not negative: when the positions of two values are
    returned, the position of every value between them is returned as well
    and lies between those two. *)
Theorem slider_value_between_floats (p : Param.t float) (lo hi v : float) (nlo nhi : Z) :
  PrimFloat.leb 0 (Param.scale p) = true ->
  PrimFloat.leb lo v = true -> PrimFloat.leb v hi = true ->
  Param.slider_value (Param.set_value p lo) = Ok nlo ->
  Param.slider_value (Param.set_value p hi) = Ok nhi ->
  exists n, Param.slider_value (Param.set_value p v) = Ok n /\ nlo <= n <= nhi.
Proof.
  intros Hs Hlo Hhi. unfold Param.slider_value.
  cbn [Param.value Param.scale Param.offset Param.set_value round sub mul float_Number].
  intros H1 H2.
  pose proof (round_Ok_finite _ _ H1) as F1. pose proof (round_Ok_finite _ _ H2) as F2.
  destruct (sub_finite _ _ F1) as [Fm1 Fo]. destruct (sub_finite _ _ F2) as [Fm2 _].
  destruct (mul_finite _ _ Fm1) as [Fv1 Fs]. destruct (mul_finite _ _ Fm2) as [Fv2 _].
  destruct (position_between lo hi (Param.scale p) (Param.offset p))
    with (v := v) as (nlo' & n & nhi' & E1 & En & E2 & Hn); try assumption.
  - apply leb_zero_ordinal, Hs.
  - exists n. split; [exact En | ]. congruence.
Qed.

Lemma slider_value_between_floats_witness :
  exists n, Param.slider_value (Param.set_value gamma_parameter 2.5%float) = Ok n
            /\ 0 <= n <= 200.
Proof.
  apply (slider_value_between_floats gamma_parameter 0.1%float 5.0%float 2.5%float);
    vm_compute; reflexivity.
Defined.

(** ** Division of a number by a finite positive float *)

Lemma ord_range (x : spec_float) :
  valid_binary x = true -> - top <= ord x <= top.
Proof.
  intros Hv. pose proof top_pos.
  destruct x as [s | s | | s m e]; cbn [ord]; try lia.
  - destruct s; cbn [cond_Zopp]; lia.
  - pose proof (ord_bounds (S754_finite s m e) Hv eq_refl) as Hb.
    cbn [ord] in Hb. lia.
Qed.

Lemma ordinal_range (x : float) : - top <= ordinal x <= top.
Proof. apply ord_range, Prim2SF_valid. Qed.

Lemma div_infinite (x c : float) :
  is_number (Prim2SF x) = true -> finite x = false ->
  finite c = true -> 0 < ordinal c ->
  is_number (Prim2SF (x / c)) = true
  /\ ordinal (x / c) = ordinal x
  /\ (ordinal x = top \/ ordinal x = - top).
Proof.
  unfold finite, ordinal. rewrite div_spec. intros Hn Hx Hc Hpos.
  destruct (Prim2SF x) as [sx | sx | | sx mx ex]; try discriminate.
  destruct (Prim2SF c) as [sc | sc | | sc mc ec]; try discriminate.
  cbn [ord] in Hpos. unfold SF64div. cbn [SFdiv ord is_number].
  destruct sc; cbn [cond_Zopp] in Hpos.
  - pose proof (Z.pow_nonneg 2 (ec + 1074) ltac:(lia)). lia.
  - rewrite xorb_false_r. split; [reflexivity | ]. split; [reflexivity | ].
    destruct sx; cbn [cond_Zopp]; [right | left]; reflexivity.
Qed.

Lemma div_mono_number (a b c : float) :
  is_number (Prim2SF a) = true -> is_number (Prim2SF b) = true ->
  ordinal a <= ordinal b ->
  finite c = true -> 0 < ordinal c ->
  is_number (Prim2SF (a / c)) = true
  /\ is_number (Prim2SF (b / c)) = true
  /\ ordinal (a / c) <= ordinal (b / c).
Proof.
  intros Ha Hb Hle Hc Hpos. pose proof top_pos as Ht.
  pose proof (ordinal_range (a / c)) as Ra. pose proof (ordinal_range (b / c)) as Rb.
  destruct (finite a) eqn:Fa; destruct (finite b) eqn:Fb.
  - split; [apply div_ordinal; assumption | ].
    split; [apply div_ordinal; assumption | ].
    apply div_mono; assumption.
  - destruct (div_infinite b c Hb Fb Hc Hpos) as (Nb & Eb & Ib).
    split; [apply div_ordinal; assumption | ]. split; [exact Nb | ].
    pose proof (ord_bounds _ (Prim2SF_valid a) Fa) as Ba. fold (ordinal a) in Ba.
    lia.
  - destruct (div_infinite a c Ha Fa Hc Hpos) as (Na & Ea & Ia).
    split; [exact Na | ]. split; [apply div_ordinal; assumption | ].
    pose proof (ord_bounds _ (Prim2SF_valid b) Fb) as Bb. fold (ordinal b) in Bb.
    lia.
  - destruct (div_infinite a c Ha Fa Hc Hpos) as (Na & Ea & Ia).
    destruct (div_infinite b c Hb Fb Hc Hpos) as (Nb & Eb & Ib).
    split; [exact Na | ]. split; [exact Nb | ]. lia.
Qed.

(** ** Integers that convert to a float convert to a finite one *)

Lemma of_int_finite (n : Z) :
  Z.abs n < float_max_int ->
  exists x, PyFloat.of_int n = Ok x /\ finite x = true
            /\ ordinal x = to_nearest (n * 2 ^ 1074) 1.
Proof.
  intros Hn. destruct (of_int_ordinal n Hn) as (x & Ex & Nx & Ox).
  exists x. split; [exact Ex | ]. split; [ | exact Ox].
  destruct (of_int_ordinal (1 - float_max_int) ltac:(vm_compute; reflexivity))
    as (lo & Elo & _ & Olo).
  destruct (of_int_ordinal (float_max_int - 1) ltac:(vm_compute; reflexivity))
    as (hi & Ehi & _ & Ohi).
  apply (finite_between lo hi).
  - vm_compute in Elo. injection Elo as <-. vm_compute. reflexivity.
  - vm_compute in Ehi. injection Ehi as <-. vm_compute. reflexivity.
  - exact Nx.
  - rewrite Olo, Ox, Ohi. split; apply to_nearest_mono; lia.
Qed.

(** ** The value grows with the slider position *)

Lemma float_set_from_Ok (p p' : Param.t float) (position : Z) :
  Param.set_from_slider_value p position = Ok p' ->
  exists x, PyFloat.of_int position = Ok x
            /\ PrimFloat.eqb (Param.scale p) 0 = false
            /\ p' = Param.set_value p ((x + Param.offset p) / Param.scale p)%float.
Proof.
  unfold Param.set_from_slider_value. cbn [of_int add truediv float_Number].
  destruct (PyFloat.of_int position) as [x | e]; [ | discriminate].
  cbn [bind]. unfold PyFloat.truediv.
  destruct (PrimFloat.eqb (Param.scale p) 0); [discriminate | ].
  cbn [bind]. intros H. injection H as <-. exists x. repeat split.
Qed.

Lemma ltb_zero_ordinal (x : float) :
  finite x = true -> PrimFloat.ltb 0 x = true -> 0 < ordinal x.
Proof.
  intros Hx H. rewrite ltb_ordinal in H by (reflexivity || assumption).
  apply Z.ltb_lt in H. exact H.
Qed.

(** X4: [set_from_slider_value] is monotone in the position, for any
    [Parameter] over floats with a finite positive scale and a finite offset:
    when it succeeds at two positions it succeeds at every position between
    them, with a value between (Python's [<=]) the values of those two. *)
Theorem set_from_slider_value_between_floats
    (p plo phi : Param.t float) (lo hi position : Z) :
  finite (Param.scale p) = true -> PrimFloat.ltb 0 (Param.scale p) = true ->
  finite (Param.offset p) = true ->
  lo <= position <= hi ->
  Param.set_from_slider_value p lo = Ok plo ->
  Param.set_from_slider_value p hi = Ok phi ->
  exists p', Param.set_from_slider_value p position = Ok p'
             /\ PrimFloat.leb (Param.value plo) (Param.value p') = true
             /\ PrimFloat.leb (Param.value p') (Param.value phi) = true.
Proof.
  intros Fs Hs Fo Hp Hlo Hhi.
  pose proof (ltb_zero_ordinal _ Fs Hs) as Hpos.
  apply float_set_from_Ok in Hlo, Hhi.
  destruct Hlo as (xlo & Elo & Hz & ->). destruct Hhi as (xhi & Ehi & _ & ->).
  pose proof (of_int_Ok _ _ Elo) as Blo. pose proof (of_int_Ok _ _ Ehi) as Bhi.
  destruct (of_int_finite lo Blo) as (xlo' & Elo' & Flo & Olo).
  destruct (of_int_finite hi Bhi) as (xhi' & Ehi' & Fhi & Ohi).
  rewrite Elo in Elo'. injection Elo' as <-.
  rewrite Ehi in Ehi'. injection Ehi' as <-.
  destruct (of_int_finite position ltac:(lia)) as (x & Ex & Fx & Ox).
  exists (Param.set_value p ((x + Param.offset p) / Param.scale p)%float).
  split.
  { unfold Param.set_from_slider_value. cbn [of_int add truediv float_Number].
    rewrite Ex. cbn [bind]. unfold PyFloat.truediv. rewrite Hz. reflexivity. }
  cbn [Param.value Param.set_value].
  set (o := Param.offset p) in *. set (s := Param.scale p) in *.
  assert (H1 : ordinal xlo <= ordinal x)
    by (rewrite Olo, Ox; apply to_nearest_mono; lia).
  assert (H2 : ordinal x <= ordinal xhi)
    by (rewrite Ox, Ohi; apply to_nearest_mono; lia).
  destruct (add_ordinal xlo o Flo Fo) as [Nlo _].
  destruct (add_ordinal x o Fx Fo) as [Nx _].
  destruct (add_ordinal xhi o Fhi Fo) as [Nhi _].
  destruct (div_mono_number (xlo + o) (x + o) s Nlo Nx
              (add_mono xlo x o Flo Fx Fo H1) Fs Hpos) as (D1 & D2 & L1).
  destruct (div_mono_number (x + o) (xhi + o) s Nx Nhi
              (add_mono x xhi o Fx Fhi Fo H2) Fs Hpos) as (_ & D3 & L2).
  rewrite !leb_spec, !ord_SFleb by (try apply Prim2SF_valid; assumption).
  split; apply Z.leb_le; assumption.
Qed.

Lemma set_from_slider_value_between_floats_witness :
  exists p', Param.set_from_slider_value gamma_parameter 100 = Ok p'
             /\ PrimFloat.leb (-0.022499999999999999)%float (Param.value p') = true
             /\ PrimFloat.leb (Param.value p') 7.4499999999999993%float = true.
Proof.
  apply (set_from_slider_value_between_floats gamma_parameter
           (Param.set_value gamma_parameter (-0.022499999999999999)%float)
           (Param.set_value gamma_parameter 7.4499999999999993%float) (- 5) 300 100);
    try (vm_compute; reflexivity); lia.
Defined.

(** ** Exact rationals: the affine map and its round trip *)

(** X5: over exact rationals, for every range with min < max, the value that
    [set_from_slider_value] sets is affine in the position: min plus
    (max - min) / SLIDER_MAX for each step, whatever integer the position
    is. *)
Theorem exact_value_affine (var : string) (rng : Range.t Q) (position : Z) :
  ltb (Range.min rng) (Range.max rng) = true ->
  exists v v',
    value_at var rng position = Ok v /\
    value_at var rng (position + 1) = Ok v' /\
    (v == Range.min rng
          + inject_Z position * ((Range.max rng - Range.min rng) / inject_Z SLIDER_MAX))%Q /\
    (v' - v == (Range.max rng - Range.min rng) / inject_Z SLIDER_MAX)%Q.
Proof.
  intros Hlt.
  destruct (exact_value_at var rng Hlt position) as (v & Hv & Ev).
  destruct (exact_value_at var rng Hlt (position + 1)) as (v' & Hv' & Ev').
  exists v, v'. split; [exact Hv | ]. split; [exact Hv' | ].
  rewrite Ev', Ev. rewrite inject_Z_plus.
  unfold SLIDER_MAX. change (inject_Z 200) with 200%Q. change (inject_Z 1) with 1%Q.
  split; field.
Qed.

Lemma exact_value_affine_witness :
  exists v v',
    value_at "gamma" exact_gamma_range 37 = Ok v /\
    value_at "gamma" exact_gamma_range (37 + 1) = Ok v' /\
    (v == Range.min exact_gamma_range
          + inject_Z 37 * ((Range.max exact_gamma_range - Range.min exact_gamma_range)
                           / inject_Z SLIDER_MAX))%Q /\
    (v' - v == (Range.max exact_gamma_range - Range.min exact_gamma_range)
               / inject_Z SLIDER_MAX)%Q.
Proof. apply (exact_value_affine "gamma" exact_gamma_range 37). reflexivity. Defined.

(** X6: over exact rationals, for every range with min < max and every
    value, in the range or not, [set_from_slider_value(slider_value())]
    moves the value by at most half a slider step,
    (max - min) / (2 * SLIDER_MAX). *)
Theorem exact_value_round_trip (var : string) (rng : Range.t Q) (v : Q) :
  ltb (Range.min rng) (Range.max rng) = true ->
  exists n v',
    position_of var rng v = Ok n /\
    value_at var rng n = Ok v' /\
    (Qabs (v' - v)
     <= (Range.max rng - Range.min rng) / inject_Z (2 * SLIDER_MAX))%Q.
Proof.
  intros Hlt. pose proof (exact_width_pos rng Hlt) as Hw.
  unfold position_of. rewrite (exact_init var rng Hlt). cbn [bind].
  rewrite exact_slider_value.
  destruct (exact_round_error
              (Param.value (Param.set_value (exact_parameter var rng) v)
               * Param.scale (Param.set_value (exact_parameter var rng) v)
               - Param.offset (Param.set_value (exact_parameter var rng) v)))
    as (n & Hn & Herr).
  destruct (exact_value_at var rng Hlt n) as (v' & Hv' & Ev').
  exists n, v'. split; [exact Hn | ]. split; [exact Hv' | ].
  cbn [Param.value Param.set_value Param.offset Param.scale exact_parameter] in Herr.
  unfold SLIDER_MAX in *. change (inject_Z (2 * 200)) with 400%Q.
  change (inject_Z 200) with 200%Q in *.
  set (m := Range.min rng) in *. set (w := (Range.max rng - m)%Q) in *.
  assert (E : (v' - v == (inject_Z n - (v * (200 / w) - m * (200 / w))) * (w / 200))%Q).
  { rewrite Ev'. field. apply Qpos_nonzero, Hw. }
  rewrite E, Qabs_Qmult. clear E.
  assert (Hpos : (0 <= w / 200)%Q) by (apply Qle_shift_div_l; lra).
  rewrite (Qabs_pos (w / 200)) by exact Hpos.
  assert (E : (w / 400 == (1 # 2) * (w / 200))%Q) by (field; discriminate).
  rewrite E. apply Qmult_le_compat_r; assumption.
Qed.

Lemma exact_value_round_trip_witness :
  exists n v',
    position_of "gamma" exact_gamma_range (22 # 7) = Ok n /\
    value_at "gamma" exact_gamma_range n = Ok v' /\
    (Qabs (v' - (22 # 7))
     <= (Range.max exact_gamma_range - Range.min exact_gamma_range)
        / inject_Z (2 * SLIDER_MAX))%Q.
Proof. apply (exact_value_round_trip "gamma" exact_gamma_range (22 # 7)). reflexivity. Defined.

(** ** Dictionaries *)

Lemma dict_get_set_same {V : Type} (k : string) (v : V) (d : dict V) :
  dict_get k (dict_set k v d) = Ok v.
Proof.
  induction d as [ | [k' v'] d IH]; cbn [dict_set dict_get].
  - rewrite String.eqb_refl. reflexivity.
  - destruct (String.eqb k k') eqn:E; cbn [dict_get]; rewrite E; [reflexivity | exact IH].
Qed.

Lemma dict_get_set_other {V : Type} (k k' : string) (v : V) (d : dict V) :
  k' <> k -> dict_get k' (dict_set k v d) = dict_get k' d.
Proof.
  intros Hk. apply String.eqb_neq in Hk.
  induction d as [ | [k0 v0] d IH]; cbn [dict_set dict_get].
  - rewrite Hk. reflexivity.
  - destruct (String.eqb k k0) eqn:E; cbn [dict_get].
    + apply String.eqb_eq in E. subst k0. rewrite Hk. reflexivity.
    + destruct (String.eqb k' k0); [reflexivity | exact IH].
Qed.

(** ** What the slots find in the window *)

Lemma wired_get (w : MainWindow.t) (var : string) (rng : Range.t float) :
  wired w -> In (var, rng) RANGES ->
  dict_get var RANGES = Ok rng
  /\ exists v, dict_get var (MainWindow.parameters w)
               = Ok (Param.set_value (float_parameter var rng) v).
Proof.
  intros (vc & vb & vs & vg & Hp) Hin. rewrite Hp.
  configured Hin; (split; [reflexivity | ]); eexists; reflexivity.
Qed.

Lemma wired_missing (w : MainWindow.t) (var : string) :
  wired w -> ~ In var (keys RANGES) ->
  dict_get var (MainWindow.parameters w) = Raise KeyError.
Proof.
  intros (vc & vb & vs & vg & Hp) Hvar. rewrite Hp.
  cbn [keys RANGES map fst In] in Hvar. cbn [dict_get].
  repeat match goal with
         | |- context [String.eqb var ?k] =>
             destruct (String.eqb_spec var k) as [-> | _]; [exfalso; tauto | ]
         end.
  reflexivity.
Qed.

Lemma slot_slider_value_changed_inv
    (w w' : MainWindow.t) (var : string) (value : Z) :
  MainWindow.slot_slider_value_changed w var value = Ok w' ->
  exists p p' text args,
    dict_get var (MainWindow.parameters w) = Ok p
    /\ Param.set_from_slider_value p value = Ok p'
    /\ Param.label p' = Ok text
    /\ w' = MainWindow.mk (dict_set var p' (MainWindow.parameters w))
                          (MainWindow.sliders w)
                          (dict_set var text (MainWindow.labels w))
                          (MainWindow.mpv_commands w ++ [args]).
Proof.
  unfold MainWindow.slot_slider_value_changed.
  destruct (dict_get var (MainWindow.parameters w)) as [p | ] eqn:Hget; [ | discriminate].
  cbn [bind].
  destruct (Param.set_from_slider_value p value) as [p' | ] eqn:Hset; [ | discriminate].
  cbn [bind].
  destruct (Param.label p') as [text | ] eqn:Hlabel; [ | discriminate]. cbn [bind].
  destruct (mapM _ _) as [items | ]; [ | discriminate]. cbn [bind].
  intros [= <-]. exists p, p', text. eexists.
  split; [reflexivity | ]. split; [exact Hset | ]. split; [exact Hlabel | ].
  reflexivity.
Qed.

(** ** What the slots change *)

(** X7: in every state of the window, a slot called for a name that is no
    key of [RANGES] raises [KeyError]: the lookup of [var] fails before
    anything is changed or sent. *)
Theorem slot_unknown_parameter (w : MainWindow.t) (var : string) (value : Z) :
  window_reachable w ->
  ~ In var (keys RANGES) ->
  MainWindow.slot_slider_value_changed w var value = Raise KeyError
  /\ MainWindow.slot_reset_var w var = Raise KeyError.
Proof.
  intros Hreach Hvar.
  pose proof (wired_missing w var (window_reachable_wired w Hreach) Hvar) as Hget.
  unfold MainWindow.slot_slider_value_changed, MainWindow.slot_reset_var.
  rewrite Hget. split; reflexivity.
Qed.

Lemma slot_unknown_parameter_witness :
  exists w,
    MainWindow.__init__ = Ok w
    /\ MainWindow.slot_slider_value_changed w "hue" 100 = Raise KeyError
    /\ MainWindow.slot_reset_var w "hue" = Raise KeyError.
Proof.
  eexists. split; [vm_compute; reflexivity | ].
  apply (slot_unknown_parameter _ "hue"%string 100).
  - apply window_init. vm_compute. reflexivity.
  - cbn. intros [H | [H | [H | [H | []]]]]; discriminate.
Defined.

(** A slider change in a wired window. *)
Lemma wired_slider_change
    (w : MainWindow.t) (var : string) (rng : Range.t float) (value : Z) :
  wired w ->
  In (var, rng) RANGES ->
  Z.abs value < float_max_int ->
  exists w' v args,
    MainWindow.slot_slider_value_changed w var value = Ok w'
    /\ wired w'
    /\ value_at var rng value = Ok v
    /\ (exists p', dict_get var (MainWindow.parameters w') = Ok p'
                   /\ Param.value p' = v)
    /\ dict_get var (MainWindow.labels w') = Ok (format_f 2 v)
    /\ MainWindow.sliders w' = MainWindow.sliders w
    /\ eq_command_of_spec w' = Ok args
    /\ MainWindow.mpv_commands w' = MainWindow.mpv_commands w ++ [args]
    /\ forall var', var' <> var ->
         dict_get var' (MainWindow.parameters w')
         = dict_get var' (MainWindow.parameters w)
         /\ dict_get var' (MainWindow.labels w')
            = dict_get var' (MainWindow.labels w).
Proof.
  intros Hw Hin Hvalue.
  destruct (wired_get w var rng Hw Hin) as (_ & v0 & Hget).
  assert (Hvar : In var (keys RANGES))
    by (apply (in_map fst) in Hin; exact Hin).
  destruct (wired_slider w var value Hw Hvar Hvalue)
    as (w' & args & Hslot & Hargs & Hcommands & Hw').
  exists w'.
  destruct (slot_slider_value_changed_inv w w' var value Hslot)
    as (p & p' & text & args' & Hget' & Hset & Hlabel & E).
  rewrite Hget in Hget'. injection Hget' as <-.
  apply float_set_from_Ok in Hset. destruct Hset as (x & Ex & Hscale & ->).
  cbn [Param.offset Param.scale Param.set_value] in *.
  exists ((x + Param.offset (float_parameter var rng))
          / Param.scale (float_parameter var rng))%float, args.
  split; [exact Hslot | ]. split; [exact Hw' | ].
  split.
  { apply float_value_at; try assumption.
    configured Hin; reflexivity. }
  split.
  { rewrite E. cbn [MainWindow.parameters].
    eexists; split; [apply dict_get_set_same | reflexivity]. }
  split.
  { rewrite E. cbn [MainWindow.labels]. rewrite dict_get_set_same. f_equal.
    rewrite label_2f in Hlabel by (configured Hin; reflexivity).
    injection Hlabel as <-. reflexivity. }
  split; [rewrite E; reflexivity | ].
  split; [exact Hargs | ]. split; [exact Hcommands | ].
  intros var' Hne. rewrite E. cbn [MainWindow.parameters MainWindow.labels].
  split; apply dict_get_set_other; exact Hne.
Qed.

(** X8: in every state of the window, [slot_slider_value_changed(var, value)]
    sets the value of parameter [var] to the value of the position, sets the
    label of [var] to that value with two decimals, moves no slider, and
    leaves every other parameter and label as they were. *)
Theorem slider_change_frame
    (w : MainWindow.t) (var : string) (rng : Range.t float) (value : Z) :
  window_reachable w ->
  In (var, rng) RANGES ->
  Z.abs value < float_max_int ->
  exists w' v,
    MainWindow.slot_slider_value_changed w var value = Ok w'
    /\ value_at var rng value = Ok v
    /\ (exists p', dict_get var (MainWindow.parameters w') = Ok p'
                   /\ Param.value p' = v)
    /\ dict_get var (MainWindow.labels w') = Ok (format_f 2 v)
    /\ MainWindow.sliders w' = MainWindow.sliders w
    /\ forall var', var' <> var ->
         dict_get var' (MainWindow.parameters w')
         = dict_get var' (MainWindow.parameters w)
         /\ dict_get var' (MainWindow.labels w')
            = dict_get var' (MainWindow.labels w).
Proof.
  intros Hreach Hin Hvalue.
  destruct (wired_slider_change w var rng value
              (window_reachable_wired w Hreach) Hin Hvalue)
    as (w' & v & args & Hslot & _ & Hv & Hp & Hl & Hs & _ & _ & Hother).
  exists w', v. repeat (split; [assumption | ]). exact Hother.
Qed.

Lemma slider_change_frame_witness :
  exists w,
    MainWindow.__init__ = Ok w
    /\ exists w' v,
      MainWindow.slot_slider_value_changed w "gamma" 37 = Ok w'
      /\ value_at "gamma" gamma_range 37 = Ok v
      /\ (exists p', dict_get "gamma" (MainWindow.parameters w') = Ok p'
                     /\ Param.value p' = v)
      /\ dict_get "gamma" (MainWindow.labels w') = Ok (format_f 2 v)
      /\ MainWindow.sliders w' = MainWindow.sliders w
      /\ forall var', var' <> "gamma"%string ->
           dict_get var' (MainWindow.parameters w')
           = dict_get var' (MainWindow.parameters w)
           /\ dict_get var' (MainWindow.labels w')
              = dict_get var' (MainWindow.labels w).
Proof.
  eexists. split; [vm_compute; reflexivity | ].
  apply (slider_change_frame _ "gamma"%string gamma_range 37).
  - apply window_init. vm_compute. reflexivity.
  - cbn. tauto.
  - vm_compute. reflexivity.
Defined.

(** The body of [slot_reset_var] in a wired window. *)
Lemma wired_reset (w : MainWindow.t) (var : string) (rng : Range.t float) :
  wired w ->
  In (var, rng) RANGES ->
  exists w' n,
    MainWindow.slot_reset_var w var = Ok w'
    /\ wired w'
    /\ position_of var rng (Range.default rng) = Ok n
    /\ 0 <= n <= SLIDER_MAX
    /\ (exists p', dict_get var (MainWindow.parameters w') = Ok p'
                   /\ Param.value p' = Range.default rng)
    /\ dict_get var (MainWindow.sliders w') = Ok n
    /\ MainWindow.labels w' = MainWindow.labels w
    /\ MainWindow.mpv_commands w' = MainWindow.mpv_commands w
    /\ forall var', var' <> var ->
         dict_get var' (MainWindow.parameters w')
         = dict_get var' (MainWindow.parameters w)
         /\ dict_get var' (MainWindow.sliders w')
            = dict_get var' (MainWindow.sliders w).
Proof.
  intros Hw Hin.
  destruct (wired_get w var rng Hw Hin) as (Hrng & v0 & Hget).
  destruct (configured_default_position var rng Hin var) as (n & Hn & Hb).
  assert (Hpos : Param.slider_value
                   (Param.set_value (Param.set_value (float_parameter var rng) v0)
                      (Range.default rng)) = Ok n).
  { revert Hn. unfold position_of. rewrite float_init.
    replace (PrimFloat.eqb (Range.max rng - Range.min rng) 0) with false
      by (configured Hin; reflexivity).
    cbn [bind]. exact (fun H => H). }
  assert (Hslot : MainWindow.slot_reset_var w var
                  = Ok (MainWindow.mk
                          (dict_set var
                             (Param.set_value
                                (Param.set_value (float_parameter var rng) v0)
                                (Range.default rng))
                             (MainWindow.parameters w))
                          (dict_set var n (MainWindow.sliders w))
                          (MainWindow.labels w) (MainWindow.mpv_commands w))).
  { unfold MainWindow.slot_reset_var. rewrite Hget, Hrng. cbn [bind].
    rewrite Hpos. reflexivity. }
  eexists. exists n. split; [exact Hslot | ].
  split; [eapply wired_update; [exact Hw | exact Hget | reflexivity] | ].
  cbn [MainWindow.parameters MainWindow.labels MainWindow.sliders
       MainWindow.mpv_commands].
  split; [exact Hn | ]. split; [exact Hb | ].
  split; [eexists; split; [apply dict_get_set_same | reflexivity] | ].
  split; [apply dict_get_set_same | ].
  split; [reflexivity | ]. split; [reflexivity | ].
  intros var' Hne. split; apply dict_get_set_other; exact Hne.
Qed.

(** X9: in every state of the window, a click on the reset button of [var]
    hands the slider of [var] the position of the default, which is on the
    slider.  When the slider held that position already, the value of [var]
    is the default, no label is rewritten and the player is sent nothing.
    When it held another one, the slider change that the reset sets off runs
    [slot_slider_value_changed]: the value of [var] ends as the value of that
    position, not the default itself, its label is rewritten and the player
    is sent the filter command.  The other parameters, sliders and labels
    stay as they were. *)
Theorem reset_effect
    (w : MainWindow.t) (var : string) (rng : Range.t float) (current : Z) :
  window_reachable w ->
  In (var, rng) RANGES ->
  exists w' n,
    reset_clicked w var current = Ok w'
    /\ position_of var rng (Range.default rng) = Ok n
    /\ 0 <= n <= SLIDER_MAX
    /\ dict_get var (MainWindow.sliders w') = Ok n
    /\ (forall var', var' <> var ->
          dict_get var' (MainWindow.parameters w')
          = dict_get var' (MainWindow.parameters w)
          /\ dict_get var' (MainWindow.sliders w')
             = dict_get var' (MainWindow.sliders w)
          /\ dict_get var' (MainWindow.labels w')
             = dict_get var' (MainWindow.labels w))
    /\ if n =? current
       then (exists p', dict_get var (MainWindow.parameters w') = Ok p'
                        /\ Param.value p' = Range.default rng)
            /\ MainWindow.labels w' = MainWindow.labels w
            /\ MainWindow.mpv_commands w' = MainWindow.mpv_commands w
       else exists v args,
            value_at var rng n = Ok v
            /\ (exists p', dict_get var (MainWindow.parameters w') = Ok p'
                           /\ Param.value p' = v)
            /\ dict_get var (MainWindow.labels w') = Ok (format_f 2 v)
            /\ eq_command_of_spec w' = Ok args
            /\ MainWindow.mpv_commands w' = MainWindow.mpv_commands w ++ [args].
Proof.
  intros Hreach Hin.
  pose proof (window_reachable_wired w Hreach) as Hw.
  destruct (wired_reset w var rng Hw Hin)
    as (w1 & n & Hslot & Hw1 & Hn & Hb & Hp1 & Hs1 & Hl1 & Hc1 & Hother1).
  assert (Hclamp : Z.max 0 (Z.min SLIDER_MAX n) = n) by lia.
  unfold reset_clicked. rewrite Hslot. cbn [bind]. rewrite Hs1. cbn [bind].
  cbv zeta. rewrite Hclamp.
  destruct (n =? current) eqn:Ecur.
  - exists w1, n. rewrite Ecur. split; [reflexivity | ]. split; [exact Hn | ].
    split; [exact Hb | ]. split; [exact Hs1 | ].
    split; [ | split; [exact Hp1 | split; [exact Hl1 | exact Hc1]]].
    intros var' Hne. destruct (Hother1 var' Hne) as [H1 H2].
    rewrite Hl1. repeat split; assumption.
  - assert (Hconv : Z.abs n < float_max_int)
      by (unfold SLIDER_MAX in Hb; apply Z.lt_le_trans with (m := 201);
          [lia | vm_compute; congruence]).
    destruct (wired_slider_change w1 var rng n Hw1 Hin Hconv)
      as (w2 & v & args & Hslot2 & _ & Hv & Hp2 & Hl2 & Hs2 & Hargs & Hc2 & Hother2).
    exists w2, n. rewrite Ecur. split; [exact Hslot2 | ]. split; [exact Hn | ].
    split; [exact Hb | ]. split; [rewrite Hs2; exact Hs1 | ].
    split.
    + intros var' Hne. destruct (Hother1 var' Hne) as [H1 H2].
      destruct (Hother2 var' Hne) as [H3 H4].
      rewrite Hs2, H3, H4, Hl1. repeat split; assumption.
    + exists v, args. rewrite Hc2, Hc1. repeat (split; [assumption | ]).
      reflexivity.
Qed.

Lemma reset_effect_witness :
  exists w1,
    (w <- MainWindow.__init__ ;;
     MainWindow.slot_slider_value_changed w "gamma" 150) = Ok w1
    /\ exists w' n,
      reset_clicked w1 "gamma" 150 = Ok w'
      /\ position_of "gamma" gamma_range (Range.default gamma_range) = Ok n
      /\ 0 <= n <= SLIDER_MAX
      /\ dict_get "gamma" (MainWindow.sliders w') = Ok n
      /\ (forall var', var' <> "gamma"%string ->
            dict_get var' (MainWindow.parameters w')
            = dict_get var' (MainWindow.parameters w1)
            /\ dict_get var' (MainWindow.sliders w')
               = dict_get var' (MainWindow.sliders w1)
            /\ dict_get var' (MainWindow.labels w')
               = dict_get var' (MainWindow.labels w1))
      /\ if n =? 150
         then (exists p', dict_get "gamma" (MainWindow.parameters w') = Ok p'
                          /\ Param.value p' = Range.default gamma_range)
              /\ MainWindow.labels w' = MainWindow.labels w1
              /\ MainWindow.mpv_commands w' = MainWindow.mpv_commands w1
         else exists v args,
              value_at "gamma" gamma_range n = Ok v
              /\ (exists p', dict_get "gamma" (MainWindow.parameters w') = Ok p'
                             /\ Param.value p' = v)
              /\ dict_get "gamma" (MainWindow.labels w') = Ok (format_f 2 v)
              /\ eq_command_of_spec w' = Ok args
              /\ MainWindow.mpv_commands w' = MainWindow.mpv_commands w1 ++ [args].
Proof.
  eexists. split; [vm_compute; reflexivity | ].
  apply (reset_effect _ "gamma"%string gamma_range 150).
  - eapply window_slider with (var := "gamma"%string) (value := 150).
    + apply window_init. vm_compute. reflexivity.
    + vm_compute. reflexivity.
  - cbn. tauto.
Defined.

(** The reset of a moved gamma slider, spelt out: the value ends one grid
    point above the default, and the label and the command say 1.01. *)
Example reset_of_moved_gamma :
  (w <- MainWindow.__init__ ;;
   w1 <- MainWindow.slot_slider_value_changed w "gamma" 150 ;;
   w' <- reset_clicked w1 "gamma" 150 ;;
   p <- dict_get "gamma" (MainWindow.parameters w') ;;
   text <- dict_get "gamma" (MainWindow.labels w') ;;
   Ok (Param.value p, text, MainWindow.mpv_commands w'))
  = Ok (1.0065000000000002%float, "1.01"%string,
        [["vf"; "set";
          "eq=contrast=1.00:brightness=0.00:saturation=1.00:gamma=3.78"];
         ["vf"; "set";
          "eq=contrast=1.00:brightness=0.00:saturation=1.00:gamma=1.01"]]%string).
Proof. vm_compute. reflexivity. Qed.

(** ** The playback position *)

Lemma int_of_float_ordinal (x : float) :
  finite x = true -> int_of_float x = Ok (ordinal x ÷ 2 ^ 1074).
Proof.
  unfold finite, ordinal, int_of_float. intros Hf.
  pose proof (Prim2SF_valid x) as Hv.
  destruct (Prim2SF x) as [s | s | | s m e]; try discriminate.
  - reflexivity.
  - f_equal. cbn [valid_binary] in Hv.
    destruct (bounded_facts m e Hv) as (He & _).
    unfold PyFloat.float_num, PyFloat.float_den. cbn [ord].
    set (K := 2 ^ (Z.min e 0 + 1074)).
    assert (HK : 0 < K) by (apply Z.pow_pos_nonneg; lia).
    assert (Hd : 0 < 2 ^ Z.max (- e) 0) by (apply Z.pow_pos_nonneg; lia).
    assert (En : cond_Zopp s (Z.pos m * 2 ^ (e + 1074))
                 = cond_Zopp s (Z.pos m * 2 ^ Z.max e 0) * K).
    { unfold K. replace (e + 1074) with (Z.max e 0 + (Z.min e 0 + 1074)) by lia.
      rewrite Z.pow_add_r by lia. destruct s; cbn [cond_Zopp]; ring. }
    assert (Ed : 2 ^ 1074 = 2 ^ Z.max (- e) 0 * K).
    { unfold K. rewrite <- Z.pow_add_r by lia. f_equal. lia. }
    rewrite En, Ed. symmetry. apply Z.quot_mul_cancel_r; lia.
Qed.

Lemma int_of_float_between (lo hi x : float) :
  finite lo = true -> finite hi = true ->
  is_number (Prim2SF x) = true ->
  ordinal lo <= ordinal x <= ordinal hi ->
  exists nlo n nhi,
    int_of_float lo = Ok nlo /\ int_of_float x = Ok n /\ int_of_float hi = Ok nhi
    /\ nlo <= n <= nhi.
Proof.
  intros Hlo Hhi Hn Hb.
  pose proof (finite_between lo hi x Hlo Hhi Hn Hb) as Hx.
  do 3 eexists. repeat (split; [apply int_of_float_ordinal; assumption | ]).
  split; apply Z.quot_le_mono; (reflexivity || lia).
Qed.

(** An integer below [2^53] is a float. *)
Lemma nearest_integer (k : Z) :
  0 <= k < 2 ^ 53 -> nearest (k * 2 ^ 1074) 1 = k * 2 ^ 1074.
Proof.
  intros [Hk0 Hk]. destruct (Z.eq_dec k 0) as [-> | Hne].
  { apply nearest_0. lia. }
  assert (Hpos : 0 < k) by lia.
  unfold nearest, ulp_exponent.
  pose proof (Zdigits2_shift_up k 1 1074 ltac:(lia) ltac:(lia)) as Hd.
  rewrite !Z.div_1_r in *. rewrite Hd by lia.
  pose proof (Zdigits2_bounds k Hpos) as [Hlo Hhi].
  set (d := Zdigits2 k) in *.
  assert (Hd1 : 0 < d).
  { destruct (Z_lt_le_dec 0 d) as [ | Hle]; [assumption | ].
    assert (2 ^ d <= 2 ^ 0) by (apply Z.pow_le_mono_r; lia).
    change (2 ^ 0) with 1 in *. lia. }
  assert (Hd53 : d <= 53).
  { destruct (Z_lt_le_dec 53 d) as [Hlt | ]; [exfalso | assumption].
    assert (2 ^ 53 <= 2 ^ (d - 1)) by (apply Z.pow_le_mono_r; lia). lia. }
  rewrite Z.max_l by lia. rewrite Z.mul_1_l.
  set (F := d + 1074 - 53).
  assert (E : k * 2 ^ 1074 = k * 2 ^ (1074 - F) * 2 ^ F).
  { rewrite <- Z.mul_assoc, <- Z.pow_add_r by (unfold F; lia).
    do 2 f_equal. unfold F. lia. }
  rewrite E at 1. rewrite round_half_even_exact by (apply Z.pow_pos_nonneg; unfold F; lia).
  symmetry. exact E.
Qed.

Lemma to_nearest_integer (k : Z) :
  0 <= k < 2 ^ 53 -> to_nearest (k * 2 ^ 1074) 1 = k * 2 ^ 1074.
Proof.
  intros Hk. unfold to_nearest, clamp.
  assert (Hp : 0 < 2 ^ 1074) by reflexivity.
  destruct (Z.ltb_spec (k * 2 ^ 1074) 0) as [Hneg | _]; [nia | ].
  rewrite nearest_integer by exact Hk.
  apply Z.min_l. rewrite top_split.
  assert (E : 2 ^ 2045 = 2 ^ 971 * 2 ^ 1074) by reflexivity.
  rewrite E. nia.
Qed.

(** The float product [x * 10], against the exact product. *)
Lemma times_ten_ordinal (x : float) :
  finite x = true ->
  finite (x * 10) = true ->
  ordinal (x * 10) = to_nearest (10 * ordinal x) 1.
Proof.
  intros Fx _. destruct (mul_ordinal x 10 Fx eq_refl) as [_ ->].
  apply to_nearest_ratio; [reflexivity | reflexivity | ].
  change (ordinal 10) with (10 * 2 ^ 1074). ring.
Qed.

Lemma times_ten_between (x : float) (k : Z) :
  finite x = true -> finite (x * 10) = true -> 0 <= k < 2 ^ 53 ->
  (k * 2 ^ 1074 <= 10 * ordinal x -> k * 2 ^ 1074 <= ordinal (x * 10))
  /\ (10 * ordinal x <= k * 2 ^ 1074 -> ordinal (x * 10) <= k * 2 ^ 1074).
Proof.
  intros Fx Fx10 Hk. rewrite (times_ten_ordinal x Fx Fx10).
  rewrite <- (to_nearest_integer k Hk) at 2 4.
  split; intros H; apply to_nearest_mono; lia.
Qed.

(** The exact value of a finite float is its ordinal over [2^1074]. *)
Lemma to_Q_ordinal (x : float) (q : Q) :
  PyFloat.to_Q x = Some q ->
  (Qnum q * 2 ^ 1074 = ordinal x * Z.pos (Qden q))%Z.
Proof.
  unfold PyFloat.to_Q, ordinal. pose proof (Prim2SF_valid x) as Hv.
  destruct (Prim2SF x) as [s | s | | s m e]; try discriminate.
  - intros [= <-]. reflexivity.
  - intros [= <-]. cbn [Qnum Qden ord valid_binary] in *.
    destruct (bounded_facts m e Hv) as (He & _).
    unfold PyFloat.float_num, PyFloat.float_den.
    assert (Hd : 0 < 2 ^ Z.max (- e) 0) by (apply Z.pow_pos_nonneg; lia).
    rewrite Z2Pos.id by exact Hd.
    assert (Epow : 2 ^ Z.max e 0 * 2 ^ 1074 = 2 ^ (e + 1074) * 2 ^ Z.max (- e) 0).
    { rewrite <- !Z.pow_add_r by lia. f_equal. lia. }
    destruct s; cbn [cond_Zopp]; nia.
Qed.

Lemma to_Q_finite (x : float) : finite x = true -> exists q, PyFloat.to_Q x = Some q.
Proof.
  unfold finite, PyFloat.to_Q.
  destruct (Prim2SF x); try discriminate; intros _; eexists; reflexivity.
Qed.

(** [int(x * 10)] is the exact product truncated, give or take the rounding
    of the float product. *)
Lemma int_times_ten (x : float) :
  finite x = true -> 0 <= ordinal x <= 100 * 2 ^ 1074 ->
  exists n, int_of_float (x * 10) = Ok n
            /\ 0 <= n <= 1000
            /\ (n - 1) * 2 ^ 1074 < 10 * ordinal x < (n + 1) * 2 ^ 1074.
Proof.
  intros Fx Hx.
  assert (F0 : finite (0 * 10) = true) by reflexivity.
  assert (F100 : finite (100 * 10) = true) by reflexivity.
  assert (O0 : ordinal 0 = 0) by reflexivity.
  assert (O100 : ordinal 100 = 100 * 2 ^ 1074) by reflexivity.
  assert (Hb : ordinal (0 * 10) <= ordinal (x * 10) <= ordinal (100 * 10)).
  { split; apply mul_mono; try reflexivity; try assumption;
      rewrite ?O0, ?O100; try lia; vm_compute; congruence. }
  assert (Fx10 : finite (x * 10) = true).
  { apply (finite_between (0 * 10) (100 * 10)); try assumption.
    apply mul_ordinal; [exact Fx | reflexivity]. }
  exists (ordinal (x * 10) ÷ 2 ^ 1074).
  split; [apply int_of_float_ordinal, Fx10 | ].
  set (T := 2 ^ 1074) in *. assert (HT : 0 < T) by reflexivity.
  set (X := ordinal x) in *. set (P := ordinal (x * 10)) in *.
  change (ordinal (0 * 10)) with 0 in Hb.
  change (ordinal (100 * 10)) with (1000 * T) in Hb.
  rewrite Z.quot_div_nonneg by lia.
  pose proof (Z.div_mod (10 * X) T ltac:(lia)) as Edm.
  pose proof (Z.mod_pos_bound (10 * X) T HT) as Bdm.
  set (kf := 10 * X / T) in *. set (r := (10 * X) mod T) in *.
  assert (Hkf : 0 <= kf <= 1000) by nia.
  assert (H53 : 1001 < 2 ^ 53) by reflexivity.
  destruct (times_ten_between x kf Fx Fx10 ltac:(lia)) as [Lf Uf].
  destruct (times_ten_between x (kf + 1) Fx Fx10 ltac:(lia)) as [_ Uc].
  fold X P T in Lf, Uf, Uc.
  specialize (Lf ltac:(nia)). specialize (Uc ltac:(nia)).
  pose proof (Z.div_mod P T ltac:(lia)) as Epm.
  pose proof (Z.mod_pos_bound P T HT) as Bpm.
  set (n := P / T) in *. set (rp := P mod T) in *.
  assert (Hn : kf <= n <= kf + 1) by nia.
  split; [nia | ].
  split; [ | nia].
  destruct (Z.eq_dec n kf) as [-> | Hne]; [nia | ].
  assert (En : n = kf + 1) by lia.
  destruct (Z.eq_dec r 0) as [E0 | Hr]; [ | nia].
  specialize (Uf ltac:(nia)). nia.
Qed.

(** X10: for a percentage from 0 to 100, [pos_change] hands the position
    slider the integer [int(percent * 10)]: it lies from 0 to 1000 and within
    one of ten times the percentage (the product truncated, give or take the
    rounding of the float product).  A percentage of zero is falsy, and the
    slider is then left alone. *)
Theorem pos_change_percent (x : float) :
  PrimFloat.leb 0 x = true -> PrimFloat.leb x 100 = true ->
  if PrimFloat.eqb x 0 then pos_change (Some x) = Ok None
  else exists n q,
      pos_change (Some x) = Ok (Some n)
      /\ int_of_float (x * 10) = Ok n
      /\ 0 <= n <= 1000
      /\ PyFloat.to_Q x = Some q
      /\ (inject_Z n - 1 < 10 * q < inject_Z n + 1)%Q.
Proof.
  intros Hlo Hhi. unfold pos_change.
  destruct (PrimFloat.eqb x 0); [reflexivity | ].
  change (PyFloat.of_int 10) with (Ok 10%float). cbn [bind].
  destruct (leb_ordinal _ _ Hlo) as (_ & Nx & Olo).
  destruct (leb_ordinal _ _ Hhi) as (_ & _ & Ohi).
  change (ordinal 0) with 0 in Olo.
  change (ordinal 100) with (100 * 2 ^ 1074) in Ohi.
  assert (Fx : finite x = true).
  { apply (finite_between 0 100); [reflexivity | reflexivity | exact Nx | ].
    change (ordinal 0) with 0. change (ordinal 100) with (100 * 2 ^ 1074). lia. }
  destruct (int_times_ten x Fx (conj Olo Ohi)) as (n & En & Hn & Hq).
  destruct (to_Q_finite x Fx) as (q & Eq).
  exists n, q. rewrite En. cbn [bind].
  repeat (split; [reflexivity || assumption | ]).
  pose proof (to_Q_ordinal x q Eq) as Hord.
  set (T := 2 ^ 1074) in *. assert (HT : 0 < T) by reflexivity.
  destruct q as [a d]. cbn [Qnum Qden] in Hord.
  unfold Qlt, Qminus, Qplus, Qopp, Qmult, inject_Z. cbn [Qnum Qden].
  rewrite ?Pos.mul_1_l, ?Z.mul_1_r, ?Pos2Z.inj_mul.
  split; nia.
Qed.

Lemma pos_change_percent_witness :
  exists n q,
    pos_change (Some 42.195%float) = Ok (Some n)
    /\ int_of_float (42.195 * 10) = Ok n
    /\ 0 <= n <= 1000
    /\ PyFloat.to_Q 42.195%float = Some q
    /\ (inject_Z n - 1 < 10 * q < inject_Z n + 1)%Q.
Proof.
  apply (pos_change_percent 42.195%float); reflexivity.
Defined.

Lemma pos_change_Some (x : float) (n : Z) :
  pos_change (Some x) = Ok (Some n) ->
  PrimFloat.eqb x 0 = false /\ int_of_float (x * 10) = Ok n.
Proof.
  unfold pos_change. destruct (PrimFloat.eqb x 0); [discriminate | ].
  change (PyFloat.of_int 10) with (Ok 10%float). cbn [bind].
  destruct (int_of_float (x * 10)) as [m | e]; [ | discriminate].
  cbn [bind]. intros [= <-]. split; reflexivity.
Qed.

Lemma int_of_float_Ok_finite (x : float) (n : Z) :
  int_of_float x = Ok n -> finite x = true.
Proof.
  unfold int_of_float, finite.
  destruct (Prim2SF x); (discriminate || reflexivity).
Qed.

(** X11: [pos_change] is monotone in the percentage: when it moves the slider
    for two percentages, it moves it for every percentage between them that
    is not zero, to a position between those two. *)
Theorem pos_change_between (lo hi x : float) (nlo nhi : Z) :
  PrimFloat.leb lo x = true -> PrimFloat.leb x hi = true ->
  PrimFloat.eqb x 0 = false ->
  pos_change (Some lo) = Ok (Some nlo) ->
  pos_change (Some hi) = Ok (Some nhi) ->
  exists n, pos_change (Some x) = Ok (Some n) /\ nlo <= n <= nhi.
Proof.
  intros Hlo Hhi Hx Elo Ehi.
  apply pos_change_Some in Elo, Ehi.
  destruct Elo as [_ Elo]. destruct Ehi as [_ Ehi].
  pose proof (int_of_float_Ok_finite _ _ Elo) as Flo10.
  pose proof (int_of_float_Ok_finite _ _ Ehi) as Fhi10.
  destruct (mul_finite _ _ Flo10) as [Flo F10].
  destruct (mul_finite _ _ Fhi10) as [Fhi _].
  destruct (leb_ordinal _ _ Hlo) as (_ & Nx & Olo).
  destruct (leb_ordinal _ _ Hhi) as (_ & _ & Ohi).
  assert (Fx : finite x = true) by (apply (finite_between lo hi); auto).
  destruct (int_of_float_between (lo * 10) (hi * 10) (x * 10))
    as (nlo' & n & nhi' & Elo' & En & Ehi' & Hn); try assumption.
  - apply mul_ordinal; assumption.
  - split; apply mul_mono; try assumption; vm_compute; congruence.
  - exists n. unfold pos_change. rewrite Hx.
    change (PyFloat.of_int 10) with (Ok 10%float). cbn [bind].
    rewrite En. cbn [bind]. split; [reflexivity | ]. congruence.
Qed.

Lemma pos_change_between_witness :
  exists n, pos_change (Some 42.195%float) = Ok (Some n) /\ 125 <= n <= 999.
Proof.
  apply (pos_change_between 12.5%float 99.99%float 42.195%float);
    vm_compute; reflexivity.
Defined.

(** ** The window as built, and the range of its values *)

(** The window that the loop of [__init__] leaves. *)
Lemma init_widgets_done :
  exists w,
    MainWindow.__init__ = Ok w
    /\ keys (MainWindow.parameters w) = keys RANGES
    /\ MainWindow.mpv_commands w = []
    /\ forall var rng,
         In (var, rng) RANGES ->
         exists p n text,
           Param.__init__ var rng = Ok p
           /\ dict_get var (MainWindow.parameters w) = Ok p
           /\ Param.slider_value p = Ok n
           /\ dict_get var (MainWindow.sliders w) = Ok n
           /\ 0 <= n <= SLIDER_MAX
           /\ Param.label p = Ok text
           /\ dict_get var (MainWindow.labels w) = Ok text.
Proof.
  eexists. split; [vm_compute; reflexivity | ].
  split; [reflexivity | ]. split; [reflexivity | ].
  intros var rng Hin.
  configured Hin; do 3 eexists;
    (split; [vm_compute; reflexivity | ]);
    (split; [reflexivity | ]);
    (split; [vm_compute; reflexivity | ]);
    (split; [reflexivity | ]);
    (split; [vm_compute; split; congruence | ]);
    split; vm_compute; reflexivity.
Qed.

(** X12: [MainWindow.__init__(options)] succeeds whatever [options.Filename]
    is.  The window holds the parameters of [RANGES] in their order, each
    built by [Parameter(var, rng)]; each slider is handed the
    [slider_value()] of its parameter, which is on the slider, and each label
    its [label()]; no slot runs, so that the player is sent no command;
    and [mpv.play] is called, with the file, exactly when [options.Filename]
    is a string that is not empty. *)
Theorem init_window (Filename : option string) :
  exists w played,
    init_with_options Filename = Ok (w, played)
    /\ (forall f, played = Some f <-> Filename = Some f /\ f <> ""%string)
    /\ keys (MainWindow.parameters w) = keys RANGES
    /\ MainWindow.mpv_commands w = []
    /\ forall var rng,
         In (var, rng) RANGES ->
         exists p n text,
           Param.__init__ var rng = Ok p
           /\ dict_get var (MainWindow.parameters w) = Ok p
           /\ Param.slider_value p = Ok n
           /\ dict_get var (MainWindow.sliders w) = Ok n
           /\ 0 <= n <= SLIDER_MAX
           /\ Param.label p = Ok text
           /\ dict_get var (MainWindow.labels w) = Ok text.
Proof.
  destruct init_widgets_done as (w & Hinit & Hkeys & Hcommands & Hall).
  unfold init_with_options. rewrite Hinit. cbn [bind].
  destruct Filename as [f | ].
  - destruct (String.eqb_spec f "") as [-> | Hne].
    + exists w, None. split; [reflexivity | ].
      split; [ | repeat split; assumption].
      intros f'. split; [discriminate | ]. intros [[= <-] Hf]. contradiction.
    + exists w, (Some f). split; [reflexivity | ].
      split; [ | repeat split; assumption].
      intros f'. split.
      * intros [= <-]. split; [reflexivity | exact Hne].
      * intros [[= <-] _]. reflexivity.
  - exists w, None. split; [reflexivity | ].
    split; [ | repeat split; assumption].
    intros f'. split; [discriminate | ]. intros [H _]. discriminate.
Qed.

Lemma init_window_witness :
  exists w,
    init_with_options (Some "film.mkv"%string) = Ok (w, Some "film.mkv"%string)
    /\ MainWindow.mpv_commands w = []
    /\ exists p n text,
         Param.__init__ "gamma" gamma_range = Ok p
         /\ dict_get "gamma" (MainWindow.parameters w) = Ok p
         /\ Param.slider_value p = Ok n
         /\ dict_get "gamma" (MainWindow.sliders w) = Ok n
         /\ 0 <= n <= SLIDER_MAX
         /\ Param.label p = Ok text
         /\ dict_get "gamma" (MainWindow.labels w) = Ok text.
Proof.
  destruct (init_window (Some "film.mkv"%string))
    as (w & played & Hinit & Hplayed & _ & Hcommands & Hall).
  exists w.
  assert (E : played = Some "film.mkv"%string)
    by (apply Hplayed; split; [reflexivity | discriminate]).
  rewrite E in Hinit. split; [exact Hinit | ]. split; [exact Hcommands | ].
  apply (Hall "gamma"%string gamma_range). cbn. tauto.
Defined.

Lemma slider_reachable_window (w : MainWindow.t) :
  slider_reachable w -> window_reachable w.
Proof.
  induction 1 as [w Hinit | w var value w' _ IH _ Hslot | w var w' _ IH Hslot].
  - apply window_init, Hinit.
  - eapply window_slider; eassumption.
  - eapply window_reset; eassumption.
Qed.

Lemma wired_get_inv (w : MainWindow.t) (var : string) (p : Param.t float) :
  wired w -> dict_get var (MainWindow.parameters w) = Ok p ->
  exists rng v, In (var, rng) RANGES
                /\ p = Param.set_value (float_parameter var rng) v.
Proof.
  intros (vc & vb & vs & vg & Hp) Hget. rewrite Hp in Hget.
  cbn [dict_get] in Hget.
  repeat match type of Hget with
         | context [String.eqb var ?k] =>
             destruct (String.eqb_spec var k) as [-> | _];
             [injection Hget as <-; do 2 eexists; split; [ | reflexivity];
              cbn; tauto | ]
         end.
  discriminate.
Qed.

Lemma configured_unique (var : string) (rng rng' : Range.t float) :
  In (var, rng) RANGES -> In (var, rng') RANGES -> rng = rng'.
Proof.
  intros H H'.
  assert (E : dict_get var RANGES = Ok rng) by (configured H; reflexivity).
  assert (E' : dict_get var RANGES = Ok rng') by (configured H'; reflexivity).
  congruence.
Qed.

Lemma slot_reset_var_inv (w w' : MainWindow.t) (var : string) :
  MainWindow.slot_reset_var w var = Ok w' ->
  exists p rng,
    dict_get var (MainWindow.parameters w) = Ok p
    /\ dict_get var RANGES = Ok rng
    /\ MainWindow.parameters w'
       = dict_set var (Param.set_value p (Range.default rng)) (MainWindow.parameters w).
Proof.
  unfold MainWindow.slot_reset_var.
  destruct (dict_get var (MainWindow.parameters w)) as [p | ]; [ | discriminate].
  cbn [bind].
  destruct (dict_get var RANGES) as [rng | ]; [ | discriminate]. cbn [bind].
  destruct (Param.slider_value _); [ | discriminate]. cbn [bind].
  intros [= <-]. exists p, rng. repeat split.
Qed.

Lemma init_window_parameters :
  exists w, MainWindow.__init__ = Ok w /\ values_in_range w.
Proof.
  eexists. split; [vm_compute; reflexivity | ].
  intros var rng p Hin. cbn [MainWindow.parameters dict_get].
  configured Hin; cbn; intros [= <-]; vm_compute; reflexivity.
Qed.

(** X13: as long as the sliders deliver positions from 0 to SLIDER_MAX, the
    value of every parameter of the window stays in its range, whatever
    sequence of slider changes and resets is played. *)
Theorem window_values_in_range (w : MainWindow.t) :
  slider_reachable w -> values_in_range w.
Proof.
  induction 1 as [w Hinit | w var0 value w' Hreach IH Hvalue Hslot
                  | w var0 w' Hreach IH Hslot].
  - destruct init_window_parameters as (w0 & Hinit0 & Hall).
    rewrite Hinit in Hinit0. injection Hinit0 as <-. exact Hall.
  - pose proof (window_reachable_wired w (slider_reachable_window w Hreach)) as Hw.
    destruct (slot_slider_value_changed_inv w w' var0 value Hslot)
      as (p0 & p0' & text & args & Hget0 & Hset & _ & ->).
    intros var rng p Hin Hget. cbn [MainWindow.parameters] in Hget.
    destruct (string_dec var var0) as [-> | Hne].
    + rewrite dict_get_set_same in Hget. injection Hget as <-.
      destruct (wired_get_inv w var0 p0 Hw Hget0) as (rng0 & v0 & Hin0 & ->).
      rewrite (configured_unique var0 rng rng0 Hin Hin0).
      destruct (configured_value_within var0 rng0 Hin0 var0 value Hvalue)
        as (v & Hv & Hwithin).
      apply float_set_from_Ok in Hset. destruct Hset as (x & Ex & Hscale & ->).
      cbn [Param.offset Param.scale Param.set_value Param.value] in *.
      rewrite (float_value_at var0 rng0 value x) in Hv; try assumption;
        [ | configured Hin0; reflexivity].
      injection Hv as <-. exact Hwithin.
    + rewrite dict_get_set_other in Hget by exact Hne.
      eapply IH; eassumption.
  - pose proof (window_reachable_wired w (slider_reachable_window w Hreach)) as Hw.
    destruct (slot_reset_var_inv w w' var0 Hslot) as (p0 & rng0 & Hget0 & Hrng0 & Hp).
    intros var rng p Hin Hget. rewrite Hp in Hget.
    destruct (string_dec var var0) as [-> | Hne].
    + rewrite dict_get_set_same in Hget. injection Hget as <-.
      cbn [Param.value Param.set_value].
      assert (E : dict_get var0 RANGES = Ok rng) by (configured Hin; reflexivity).
      rewrite E in Hrng0. injection Hrng0 as <-.
      configured Hin; vm_compute; reflexivity.
    + rewrite dict_get_set_other in Hget by exact Hne.
      eapply IH; eassumption.
Qed.

Lemma window_values_in_range_witness :
  exists w w',
    MainWindow.__init__ = Ok w
    /\ MainWindow.slot_slider_value_changed w "gamma" 200 = Ok w'
    /\ values_in_range w'.
Proof.
  do 2 eexists. split; [vm_compute; reflexivity | ].
  split; [vm_compute; reflexivity | ].
  apply window_values_in_range.
  eapply slider_moved with (var := "gamma"%string) (value := 200).
  - apply slider_init. vm_compute. reflexivity.
  - unfold SLIDER_MAX. lia.
  - vm_compute. reflexivity.
Defined.

(** ** A reset click and a start with a file lead to the states above *)

Lemma reset_clicked_reachable
    (w w' : MainWindow.t) (var : string) (current : Z) :
  window_reachable w ->
  reset_clicked w var current = Ok w' ->
  window_reachable w'.
Proof.
  intros Hreach. unfold reset_clicked.
  destruct (MainWindow.slot_reset_var w var) as [w1 | ] eqn:Hreset; [ | discriminate].
  cbn [bind].
  destruct (dict_get var (MainWindow.sliders w1)) as [handed | ]; [ | discriminate].
  cbn [bind]. cbv zeta.
  pose proof (window_reset w var w1 Hreach Hreset) as Hreach1.
  destruct (Z.max 0 (Z.min SLIDER_MAX handed) =? current).
  - intros [= <-]. exact Hreach1.
  - intros Hslot. eapply window_slider; eassumption.
Qed.

Lemma reset_clicked_slider_reachable
    (w w' : MainWindow.t) (var : string) (current : Z) :
  slider_reachable w ->
  reset_clicked w var current = Ok w' ->
  slider_reachable w'.
Proof.
  intros Hreach. unfold reset_clicked.
  destruct (MainWindow.slot_reset_var w var) as [w1 | ] eqn:Hreset; [ | discriminate].
  cbn [bind].
  destruct (dict_get var (MainWindow.sliders w1)) as [handed | ]; [ | discriminate].
  cbn [bind]. cbv zeta.
  pose proof (slider_reset w var w1 Hreach Hreset) as Hreach1.
  destruct (Z.max 0 (Z.min SLIDER_MAX handed) =? current).
  - intros [= <-]. exact Hreach1.
  - intros Hslot. eapply slider_moved; [exact Hreach1 | | exact Hslot].
    unfold SLIDER_MAX. lia.
Qed.

Lemma init_with_options_reachable
    (Filename played : option string) (w : MainWindow.t) :
  init_with_options Filename = Ok (w, played) ->
  window_reachable w /\ slider_reachable w.
Proof.
  unfold init_with_options.
  destruct MainWindow.__init__ as [w0 | ] eqn:Hinit; [ | discriminate].
  cbn [bind]. intros H.
  assert (E : w0 = w).
  { destruct Filename as [f | ]; [destruct (String.eqb f "") | ];
      injection H as <- _; reflexivity. }
  subst w0. split; [apply window_init | apply slider_init]; exact Hinit.
Qed.
